(** * Frequent itemsets and association rules (question_2.py)

    A shallow embedding of the Apriori pipeline of [question_2.py]:
    [apriori_L1], [apriori_L2], [apriori_C3_from_L2], [apriori_L3],
    [top5_part_d], [top5_part_e] and the part of [main] that chains them.

    Modelling choices, all taken from the source:
    - an item is a Python [str]; it is a [string] here and [<] on items is
      [String.compare] (code-point order is byte order on UTF-8);
    - a transaction is a Python [set] of items: a [gset string]; the list
      of transactions is the value returned by [load_transactions];
    - a [defaultdict(int)] is a [gmap _ Z] read with default [0];
    - [sorted] and [list.sort] are a stable insertion sort on the key;
    - [itertools.combinations] keeps the positional order of its input;
    - [sup / n] on two ints is the double (IEEE 754 binary64) nearest to
      the exact quotient, ties to even, with [ZeroDivisionError] when [n]
      is zero and [OverflowError] when the quotient is out of the range of
      a double; a double is held as the rational number it denotes, so
      that doubles compare as these rationals do;
    - the module globals [MIN_SUPPORT] and [TOP_K] are the fields of a
      configuration record, read by the functions that mention them;
    - the loop [for t in transactions] counts the transactions it visits;
    - [load_transactions] reads the list of the lines of the file; a line
      is a [string] of bytes and whitespace is the ASCII whitespace, so the
      loader is modelled on ASCII text.

    The friend recommendation of [question_1.py] ([mapper], [reducer] and
    the map, shuffle and reduce phases of its [main]) is embedded in the
    module [question_1] below. *)

From Stdlib Require Import QArith Qabs.
From Stdlib Require Floats.SpecFloat Floats.PrimFloat Floats.FloatOps Uint63.
From stdpp Require Import gmap strings list fin_maps sorting.

Close Scope Q_scope.

(** ** Three-way comparisons and the keys of [sort] *)

Definition lex (c1 c2 : comparison) : comparison :=
  match c1 with Eq => c2 | _ => c1 end.

(** A comparison that is a total preorder: [Gt] is the mirror of [Lt] and
    "not greater" is transitive. *)
Class Comparator {A} (cmp : A → A → comparison) : Prop := {
  cmp_opp x y : cmp y x = CompOpp (cmp x y);
  cmp_le_trans x y z : cmp x y ≠ Gt → cmp y z ≠ Gt → cmp x z ≠ Gt
}.
Arguments cmp_opp {A} cmp {_} x y.
Arguments cmp_le_trans {A} cmp {_} x y z.

Definition cmp_le {A} (cmp : A → A → comparison) : relation A :=
  λ x y, cmp x y ≠ Gt.
Definition cmp_lt {A} (cmp : A → A → comparison) : relation A :=
  λ x y, cmp x y = Lt.

(** Comparison through a key function, and Python's comparison of tuples:
    the first components decide unless they compare equal. *)
Definition cmp_on {A B} (f : A → B) (cmp : B → B → comparison) : A → A → comparison :=
  λ x y, cmp (f x) (f y).
Definition cmp_pair {A B} (ca : A → A → comparison) (cb : B → B → comparison) :
    A * B → A * B → comparison :=
  λ p q, lex (ca p.1 q.1) (cb p.2 q.2).

(** ** [sorted(xs)] and [xs.sort(key=...)]: a stable sort *)

Section sorted.
Context {A : Type} (cmp : A → A → comparison).

Fixpoint insert_sorted (x : A) (l : list A) : list A :=
  match l with
  | [] => [x]
  | y :: l' =>
      match cmp x y with
      | Gt => y :: insert_sorted x l'
      | _ => x :: l
      end
  end.

Definition sorted (l : list A) : list A := foldr insert_sorted [] l.
End sorted.

(** ** [itertools.combinations(xs, 2)] and [combinations(xs, 3)] *)

Fixpoint combinations2 {A} (l : list A) : list (A * A) :=
  match l with
  | [] => []
  | x :: l' => ((λ y, (x, y)) <$> l') ++ combinations2 l'
  end.

Fixpoint combinations3 {A} (l : list A) : list (A * A * A) :=
  match l with
  | [] => []
  | x :: l' => ((λ p, (x, p.1, p.2)) <$> combinations2 l') ++ combinations3 l'
  end.

(** ** Exceptions *)

Inductive exn := ZeroDivisionError | OverflowError.

Inductive result (A : Type) : Type :=
  | Ok (a : A)
  | Raise (e : exn).
Arguments Ok {A} a.
Arguments Raise {A} e.

Global Instance result_ret : MRet result := λ A a, Ok a.
Global Instance result_bind : MBind result := λ A B f m,
  match m with Ok a => f a | Raise e => Raise e end.

(** A [for] loop whose body may raise. *)
Fixpoint for_each {S X} (body : S → X → result S) (s : S) (xs : list X) : result S :=
  match xs with
  | [] => Ok s
  | x :: xs' => s' ← body s x; for_each body s' xs'
  end.

(** ** [n / d] on two Python ints

    True division gives the double nearest to the exact quotient, ties
    going to the even significand.  A double is held as the rational it
    denotes; the two zeros are one value, as they compare equal. *)

(** [n / d] rounded to the nearest integer, ties to the even one, for
    [d > 0]. *)
Definition round_half_even (n d : Z) : Z :=
  let q := (n / d)%Z in
  match (2 * (n mod d) ?= d)%Z with
  | Lt => q
  | Eq => if Z.even q then q else (q + 1)%Z
  | Gt => (q + 1)%Z
  end.

(** The binade of [n / d], for [n > 0] and [d > 0]: the [k] with
    [2^k <= n / d < 2^(k+1)].  [Z.log2] is the position of the leading
    bit, so [k] is the difference of the two positions or one less. *)
Definition binade (n d : Z) : Z :=
  let k := (Z.log2 n - Z.log2 d)%Z in
  if (d * 2 ^ Z.max 0 k <=? n * 2 ^ Z.max 0 (- k))%Z then k else (k - 1)%Z.

(** The significand and the exponent [(m, e)] of the double nearest to
    [n / d], for [n >= 0] and [d > 0]: [2^e] is the weight of the last of
    the 53 bits of the binade of [n / d], and at least [2^-1074], the
    smallest positive double; [m] is [n / d] counted in units of [2^e]. *)
Definition nearest (n d : Z) : Z * Z :=
  let e := Z.max (binade n d - 52) (-1074) in
  (round_half_even (n * 2 ^ Z.max 0 (- e)) (d * 2 ^ Z.max 0 e), e).

(** [2^e] and [m * 2^e] as rationals in lowest terms. *)
Definition pow2 (e : Z) : Q :=
  if decide (e < 0)%Z then (1 # Z.to_pos (2 ^ (- e)))%Q else inject_Z (2 ^ e).

Definition dyadic (me : Z * Z) : Q := Qred (inject_Z me.1 * pow2 me.2).

(** The value of [n / d] when it does not raise: the sign is that of the
    exact quotient. *)
Definition quotient (n d : Z) : Q :=
  let v := dyadic (nearest (Z.abs n) (Z.abs d)) in
  if decide (0 ≤ n * d)%Z then v else Qred (- v).

(** The rounded quotient is beyond the largest double: it has reached
    [2^1024]. *)
Definition overflows (n d : Z) : bool :=
  Qle_bool (inject_Z (2 ^ 1024)) (Qabs (quotient n d)).

Definition truediv (n d : Z) : result Q :=
  if decide (d = 0%Z) then Raise ZeroDivisionError
  else if overflows n d then Raise OverflowError
  else Ok (quotient n d).

(** [xs[:k]]: a negative [k] counts from the end. *)
Definition slice_to {A} (k : Z) (l : list A) : list A :=
  if decide (k < 0)%Z then take (Z.to_nat (Z.of_nat (length l) + k)) l
  else take (Z.to_nat k) l.

(** ** The scan of the transaction sequence *)

(** A computation that reads transactions: it threads the number of
    transactions visited so far. *)
Definition Scan (A : Type) : Type := nat → A * nat.

Global Instance scan_ret : MRet Scan := λ A a n, (a, n).
Global Instance scan_bind : MBind Scan := λ A B f m n,
  let '(a, n') := m n in f a n'.

Definition run {A} (m : Scan A) : A := (m 0).1.
Definition visited {A} (m : Scan A) : nat := (m 0).2.

(** [for t in transactions: body], on an accumulator [s]. *)
Fixpoint for_transactions {S T} (ts : list T) (s : S) (body : S → T → S) : Scan S :=
  match ts with
  | [] => mret s
  | t :: ts' => λ n, for_transactions ts' (body s t) body (Datatypes.S n)
  end.

(** ** [defaultdict(int)] *)

(** [d[k]] on a [defaultdict(int)]: [0] for a key that was never set. *)
Definition getitem `{Countable K} (d : gmap K Z) (k : K) : Z :=
  default 0%Z (d !! k).

(** [d[k] += 1]. *)
Definition incr `{Countable K} (k : K) (d : gmap K Z) : gmap K Z :=
  <[k := (getitem d k + 1)%Z]> d.

(** Every stored count is at least one: a key is there because it was
    incremented. *)
Definition positive_counts `{Countable K} (d : gmap K Z) : Prop :=
  ∀ k c, d !! k = Some c → (0 < c)%Z.

(** ** The module globals *)

Record config := { MIN_SUPPORT : Z; TOP_K : Z }.

(** [MIN_SUPPORT = 100] and [TOP_K = 5], as the module sets them. *)
Definition module_config : config := {| MIN_SUPPORT := 100; TOP_K := 5 |}.

Abbreviation item := string (only parsing).
Abbreviation pair := (string * string)%type (only parsing).
Abbreviation triple := (string * string * string)%type (only parsing).
Abbreviation transaction := (gset string) (only parsing).

(** A rule tuple [(conf, lhs, rhs, sup)]. *)
Abbreviation rule L := (Q * L * string * Z)%type (only parsing).

(** [key=lambda r: (-r[0], r[1], r[2])] and the order of those keys. *)
Definition key_d (r : rule item) : Q * item * item :=
  let '(conf, lhs, rhs, _) := r in (Qopp conf, lhs, rhs).
Definition cmp_key_d : Q * item * item → Q * item * item → comparison :=
  cmp_pair (cmp_pair Qcompare String.compare) String.compare.

(** [key=lambda r: (-r[0], r[1][0], r[1][1], r[2])]. *)
Definition key_e (r : rule pair) : Q * item * item * item :=
  let '(conf, lhs, rhs, _) := r in (Qopp conf, lhs.1, lhs.2, rhs).
Definition cmp_key_e : Q * item * item * item → Q * item * item * item → comparison :=
  cmp_pair (cmp_pair (cmp_pair Qcompare String.compare) String.compare) String.compare.

Section pipeline.
Variable cfg : config.

(** [[k for k, c in d.items() if c >= MIN_SUPPORT]]. *)
Definition frequent `{Countable K} (d : gmap K Z) : list K :=
  (filter (λ kc, (MIN_SUPPORT cfg ≤ kc.2)%Z) (map_to_list d)).*1.

Definition apriori_L1 (transactions : list transaction) :
    Scan (gmap item Z * list item) :=
  item_sup ← for_transactions transactions ∅ (λ item_sup t,
    foldl (λ d x, incr x d) item_sup (elements t));
  let L1 := sorted String.compare (frequent item_sup) in
  mret (item_sup, L1).

(** The candidate pairs built at the top of [apriori_L2]. *)
Definition C2_of (L1 : list item) : gset pair :=
  list_to_set (combinations2 L1).

Definition apriori_L2 (transactions : list transaction) (L1 : list item) :
    Scan (gmap pair Z * gset pair) :=
  let L1_set : gset item := list_to_set L1 in
  let C2 := C2_of L1 in
  pair_sup ← for_transactions transactions ∅ (λ pair_sup t,
    let ft := sorted String.compare (filter (λ x, x ∈ L1_set) (elements t)) in
    foldl (λ d p, if decide (p ∈ C2) then incr p d else d)
          pair_sup (combinations2 ft));
  let L2 : gset pair := list_to_set (frequent pair_sup) in
  mret (pair_sup, L2).

(** [by_first[a].add(b)] for every pair of [L2]. *)
Definition by_first_of (L2 : gset pair) : gmap item (gset item) :=
  foldl (λ by_first ab,
           <[ab.1 := {[ab.2]} ∪ default ∅ (by_first !! ab.1)]> by_first)
        ∅ (elements L2).

Definition apriori_C3_from_L2 (L2 : gset pair) : gset triple :=
  let by_first := by_first_of L2 in
  foldl (λ C3 entry,
           let a := entry.1 in
           let bs := sorted String.compare (elements entry.2) in
           foldl (λ C3 bc,
                    let '(b, c) := bc in
                    if decide ((a, b) ∈ L2 ∧ (a, c) ∈ L2 ∧ (b, c) ∈ L2)
                    then {[(a, b, c)]} ∪ C3 else C3)
                 C3 (combinations2 bs))
        (∅ : gset triple) (map_to_list by_first).

Definition apriori_L3 (transactions : list transaction) (C3 : gset triple) :
    Scan (gmap triple Z * gset triple) :=
  if decide (C3 = ∅) then mret (∅, ∅)
  else
    let C3_set := C3 in
    triple_sup ← for_transactions transactions ∅ (λ triple_sup t,
      let ft := sorted String.compare (elements t) in
      foldl (λ d tri, if decide (tri ∈ C3_set) then incr tri d else d)
            triple_sup (combinations3 ft));
    let L3 : gset triple := list_to_set (frequent triple_sup) in
    mret (triple_sup, L3).

(** The loop of [top5_part_d]; [L2] is the order in which the set hands
    out its pairs. *)
Definition rules_part_d (item_sup : gmap item Z) (pair_sup : gmap pair Z)
    (L2 : list pair) : result (list (rule item)) :=
  for_each (λ rules ab,
              let '(a, b) := ab in
              let sup_ab := getitem pair_sup (a, b) in
              c1 ← truediv sup_ab (getitem item_sup a);
              let rules := rules ++ [(c1, a, b, sup_ab)] in
              c2 ← truediv sup_ab (getitem item_sup b);
              mret (rules ++ [(c2, b, a, sup_ab)]))
           [] L2.

Definition top5_part_d (item_sup : gmap item Z) (pair_sup : gmap pair Z)
    (L2 : list pair) : result (list (rule item)) :=
  rules ← rules_part_d item_sup pair_sup L2;
  let rules := sorted (cmp_on key_d cmp_key_d) rules in
  mret (slice_to (TOP_K cfg) rules).

(** The loop of [top5_part_e]. *)
Definition rules_part_e (pair_sup : gmap pair Z) (triple_sup : gmap triple Z)
    (L3 : list triple) : result (list (rule pair)) :=
  for_each (λ rules xyz,
              let '(x, y, z) := xyz in
              let sup_xyz := getitem triple_sup (x, y, z) in
              c1 ← truediv sup_xyz (getitem pair_sup (x, y));
              let rules := rules ++ [(c1, (x, y), z, sup_xyz)] in
              c2 ← truediv sup_xyz (getitem pair_sup (x, z));
              let rules := rules ++ [(c2, (x, z), y, sup_xyz)] in
              c3 ← truediv sup_xyz (getitem pair_sup (y, z));
              mret (rules ++ [(c3, (y, z), x, sup_xyz)]))
           [] L3.

Definition top5_part_e (pair_sup : gmap pair Z) (triple_sup : gmap triple Z)
    (L3 : list triple) : result (list (rule pair)) :=
  rules ← rules_part_e pair_sup triple_sup L3;
  let rules := sorted (cmp_on key_e cmp_key_e) rules in
  mret (slice_to (TOP_K cfg) rules).

(** [main] after [load_transactions], up to the two rule lists it
    prints; the sets [L2] and [L3] are visited in their own order. *)
Definition main (transactions : list transaction) :
    Scan (result (list (rule item) * list (rule pair))) :=
  '(item_sup, L1) ← apriori_L1 transactions;
  '(pair_sup, L2) ← apriori_L2 transactions L1;
  let C3 := apriori_C3_from_L2 L2 in
  '(triple_sup, L3) ← apriori_L3 transactions C3;
  mret (d_rules ← top5_part_d item_sup pair_sup (elements L2);
        e_rules ← top5_part_e pair_sup triple_sup (elements L3);
        mret (d_rules, e_rules)).
End pipeline.

(** The spec's scenario, at a threshold of 2. *)
Definition scenario : list transaction :=
  [ {["A"; "B"; "C"]}; {["A"; "B"]}; {["A"; "C"]}; {["B"; "C"]}; {["A"; "B"; "C"]} ].
Definition cfg2 : config := {| MIN_SUPPORT := 2; TOP_K := 5 |}.

(** The stages of the pipeline on the scenario. *)
Definition scenario_L1 := run (apriori_L1 cfg2 scenario).
Definition scenario_L2 := run (apriori_L2 cfg2 scenario scenario_L1.2).
Definition scenario_L3 :=
  run (apriori_L3 cfg2 scenario (apriori_C3_from_L2 scenario_L2.2)).

(** Four items, so that there are four frequent triples to rank. *)
Definition scenario4 : list transaction :=
  [ {["A"; "B"; "C"; "D"]}; {["A"; "B"; "C"; "D"]}; {["A"; "B"]} ].
Definition scenario4_L1 := run (apriori_L1 cfg2 scenario4).
Definition scenario4_L2 := run (apriori_L2 cfg2 scenario4 scenario4_L1.2).
Definition scenario4_L3 :=
  run (apriori_L3 cfg2 scenario4 (apriori_C3_from_L2 scenario4_L2.2)).

(** A configuration that the spec wants refused. *)
Definition bad_cfg : config := {| MIN_SUPPORT := 0; TOP_K := -1 |}.

(** At the module's own threshold: "A" is in 100 transactions, "B" in 99. *)
Definition boundary : list transaction :=
  replicate 99 {["A"; "B"]} ++ [ {["A"]} ].
Definition boundary_L1 := run (apriori_L1 module_config boundary).


(** ** Vocabulary of the properties *)

(** The order of items, [a < b] on two Python strings. *)
Definition item_lt : relation item := cmp_lt String.compare.

Global Instance item_lt_dec : RelDecision item_lt.
Proof. intros x y. unfold item_lt, cmp_lt. apply _. Defined.

(** Support by direct scan: the number of transactions that contain the
    itemset. *)
Definition support (s : gset item) (ts : list transaction) : Z :=
  Z.of_nat (length (filter (λ t, s ⊆ t) ts)).

(** The exception of a division, if it raises one; the exact ratio that
    the division rounds. *)
Definition div_error (n d : Z) : option exn :=
  if decide (d = 0%Z) then Some ZeroDivisionError
  else if overflows n d then Some OverflowError
  else None.

Definition ratio (n d : Z) : Q := (inject_Z n / inject_Z d)%Q.

(** The first exception that a loop over [l] meets. *)
Definition first_error {X} (err : X → option exn) (l : list X) : option exn :=
  head (omap err l).

(** The rules one frequent pair gives, and the exception of its two
    divisions, the first one first. *)
Definition pair_error (item_sup : gmap item Z) (pair_sup : gmap pair Z)
    (ab : pair) : option exn :=
  let sup_ab := getitem pair_sup ab in
  match div_error sup_ab (getitem item_sup ab.1) with
  | Some e => Some e
  | None => div_error sup_ab (getitem item_sup ab.2)
  end.

Definition pair_ok (item_sup : gmap item Z) (pair_sup : gmap pair Z)
    (ab : pair) : Prop :=
  pair_error item_sup pair_sup ab = None.

Definition emit_d (item_sup : gmap item Z) (pair_sup : gmap pair Z)
    (ab : pair) : list (rule item) :=
  let sup_ab := getitem pair_sup ab in
  [ (quotient sup_ab (getitem item_sup ab.1), ab.1, ab.2, sup_ab);
    (quotient sup_ab (getitem item_sup ab.2), ab.2, ab.1, sup_ab) ].

(** The same for one frequent triple. *)
Definition triple_error (pair_sup : gmap pair Z) (triple_sup : gmap triple Z)
    (xyz : triple) : option exn :=
  let '(x, y, z) := xyz in
  let sup_xyz := getitem triple_sup (x, y, z) in
  match div_error sup_xyz (getitem pair_sup (x, y)) with
  | Some e => Some e
  | None =>
      match div_error sup_xyz (getitem pair_sup (x, z)) with
      | Some e => Some e
      | None => div_error sup_xyz (getitem pair_sup (y, z))
      end
  end.

Definition triple_ok (pair_sup : gmap pair Z) (triple_sup : gmap triple Z)
    (xyz : triple) : Prop :=
  triple_error pair_sup triple_sup xyz = None.

Definition emit_e (pair_sup : gmap pair Z) (triple_sup : gmap triple Z)
    (xyz : triple) : list (rule pair) :=
  let '(x, y, z) := xyz in
  let sup_xyz := getitem triple_sup (x, y, z) in
  [ (quotient sup_xyz (getitem pair_sup (x, y)), (x, y), z, sup_xyz);
    (quotient sup_xyz (getitem pair_sup (x, z)), (x, z), y, sup_xyz);
    (quotient sup_xyz (getitem pair_sup (y, z)), (y, z), x, sup_xyz) ].

(** Pairs and triples in canonical form: ascending items. *)
Definition canonical_pair (ab : pair) : Prop := item_lt ab.1 ab.2.
Definition canonical_triple (xyz : triple) : Prop :=
  item_lt xyz.1.1 xyz.1.2 ∧ item_lt xyz.1.2 xyz.2.

Global Instance canonical_pair_dec ab : Decision (canonical_pair ab).
Proof. unfold canonical_pair. apply _. Defined.
Global Instance canonical_triple_dec xyz : Decision (canonical_triple xyz).
Proof. unfold canonical_triple. apply _. Defined.

(** The ranking of the rules of pairs: higher confidence first, then the
    left item ascending, then the right item ascending. *)
Definition ranks_before_d (r1 r2 : rule item) : Prop :=
  let '(c1, l1, x1, _) := r1 in
  let '(c2, l2, x2, _) := r2 in
  (c2 < c1)%Q ∨
  ((c1 == c2)%Q ∧ (item_lt l1 l2 ∨ (l1 = l2 ∧ (item_lt x1 x2 ∨ x1 = x2)))).

(** The ranking of the rules of triples: higher confidence first, then the
    left pair by its first and its second item, then the right item. *)
Definition ranks_before_e (r1 r2 : rule pair) : Prop :=
  let '(c1, l1, x1, _) := r1 in
  let '(c2, l2, x2, _) := r2 in
  (c2 < c1)%Q ∨
  ((c1 == c2)%Q ∧
   (item_lt l1.1 l2.1 ∨
    (l1.1 = l2.1 ∧
     (item_lt l1.2 l2.2 ∨
      (l1.2 = l2.2 ∧ (item_lt x1 x2 ∨ x1 = x2)))))).

(** ** The division against the Standard Library's binary64

    [SpecFloat.SFdiv] is the library's specification of the division of
    IEEE 754, which the primitive floats of the kernel follow; it takes
    the two ints as significands with exponent 0. *)
Definition SF2Q (x : SpecFloat.spec_float) : option Q :=
  match x with
  | SpecFloat.S754_zero _ => Some 0%Q
  | SpecFloat.S754_finite s m e =>
      Some (let v := dyadic (Zpos m, e) in if s then Qred (- v) else v)
  | _ => None
  end.

Definition SF_of_int (n : Z) : SpecFloat.spec_float :=
  match n with
  | Z0 => SpecFloat.S754_zero false
  | Zpos p => SpecFloat.S754_finite false p 0
  | Zneg p => SpecFloat.S754_finite true p 0
  end.

Definition SFdiv_ints (n d : Z) : option Q :=
  SF2Q (SpecFloat.SFdiv 53 1024 (SF_of_int n) (SF_of_int d)).

(** What [truediv] returns, [None] standing for an exception. *)
Definition truediv_value (n d : Z) : option Q :=
  match truediv n d with Ok c => Some c | Raise _ => None end.

(** Divisions that are exact, inexact, ties, subnormal, at the edge of the
    range and beyond it, of either sign. *)
Definition division_samples : list (Z * Z) :=
  [ (1, 3); (2, 3); (1, 10); (3, 4); (7, 1); (0, 5); (0, -5);
    (-1, 3); (1, -3); (-7, -9);
    (100000000, 200000001); (100000001, 200000003);
    (2 ^ 53, 1); (2 ^ 53 + 1, 1); (2 ^ 53 + 3, 1); (2 ^ 54 + 2, 1);
    (2 ^ 54 + 6, 1); (2 ^ 52 + 1, 2 ^ 53);
    (123456789123456789123456789, 987654321987654321);
    (10 ^ 400, 1); (10 ^ 400, 10 ^ 399); (1, 10 ^ 400);
    (2 ^ 1024, 1); (2 ^ 1024 - 1, 1); (2 ^ 1024 - 2 ^ 970, 1);
    (2 ^ 1024 - 2 ^ 970 - 1, 1); (2 ^ 1024 - 2 ^ 971, 1);
    (1, 2 ^ 1074); (3, 2 ^ 1074); (1, 2 ^ 1075); (3, 2 ^ 1075);
    (1, 2 ^ 1076); (3, 2 ^ 1076); (5, 2 ^ 1076);
    (2 ^ 1022 + 1, 2 ^ 2096); (2 ^ 53 - 1, 2 ^ 1127) ]%Z.

(** The same division on the machine's doubles, for two ints below
    [2^53], which convert exactly. *)
Definition hardware_div (n d : Z) : option Q :=
  SF2Q (FloatOps.Prim2SF
          (PrimFloat.div (PrimFloat.of_uint63 (Uint63.of_Z n))
                         (PrimFloat.of_uint63 (Uint63.of_Z d)))).

Definition hardware_samples : list (Z * Z) :=
  [ (1, 3); (2, 3); (1, 10); (3, 4); (7, 1); (0, 5); (150, 200); (100, 150);
    (100000000, 200000001); (100000001, 200000003);
    (2 ^ 53, 1); (2 ^ 52 + 1, 2 ^ 53); (2 ^ 53 - 1, 2 ^ 53);
    (123456789, 987654321) ]%Z.

(** ** Tables on which doubles tie *)

(** Two rules whose exact confidences differ,
    100000000/200000001 < 100000001/200000003, and round to one double. *)
Definition close_item_sup : gmap item Z :=
  {[ "a" := 200000001; "b" := 1000000000;
     "c" := 200000003; "d" := 1000000000 ]}%Z.
Definition close_pair_sup : gmap pair Z :=
  {[ ("a", "b") := 100000000; ("c", "d") := 100000001 ]}%Z.
Definition top1 : config := {| MIN_SUPPORT := 100; TOP_K := 1 |}.

(** A pair in both orders, with counts [2^53] and [2^53 + 1] that are the
    same double. *)
Definition tie_item_sup : gmap item Z := {[ "a" := 1; "b" := 1 ]}%Z.
Definition tie_pair_sup : gmap pair Z :=
  {[ ("a", "b") := 2 ^ 53; ("b", "a") := 2 ^ 53 + 1 ]}%Z.
Definition tie_triple_sup : gmap triple Z :=
  {[ ("a", "b", "c") := 2 ^ 53; ("a", "c", "b") := 2 ^ 53 + 1 ]}%Z.
Definition unit_pair_sup : gmap pair Z :=
  {[ ("a", "b") := 1; ("a", "c") := 1; ("b", "c") := 1; ("c", "b") := 1 ]}%Z.

(** A count beyond the range of a double. *)
Definition huge_pair_sup : gmap pair Z := {[ ("A", "B") := 10 ^ 400 ]}%Z.
Definition one_item_sup : gmap item Z := {[ "A" := 1; "B" := 1 ]}%Z.

(** ** [load_transactions]

    The function reads a text file; here it starts from the lines that
    [for line in f] hands out.  A character is one [ascii] and the text is
    ASCII, where [str.isspace] holds of the tab to the carriage return
    (9-13), of the separators FS to US (28-31) and of the space (32). *)

Definition isspace (c : Ascii.ascii) : bool :=
  let n := Ascii.N_of_ascii c in
  ((9 <=? n) && (n <=? 13) || (28 <=? n) && (n <=? 32))%N.

Fixpoint lstrip (s : list Ascii.ascii) : list Ascii.ascii :=
  match s with
  | c :: s' => if isspace c then lstrip s' else s
  | [] => []
  end.

Definition rstrip (s : list Ascii.ascii) : list Ascii.ascii :=
  reverse (lstrip (reverse s)).

(** [line.strip()]. *)
Definition str_strip (line : string) : string :=
  String.string_of_list_ascii
    (rstrip (lstrip (String.list_ascii_of_string line))).

(** The word in progress, when the scan meets whitespace or the end. *)
Definition flush (cur : list Ascii.ascii) : list (list Ascii.ascii) :=
  match cur with [] => [] | _ => [cur] end.

Fixpoint split_go (cur s : list Ascii.ascii) : list (list Ascii.ascii) :=
  match s with
  | [] => flush cur
  | c :: s' =>
      if isspace c then flush cur ++ split_go [] s'
      else split_go (cur ++ [c]) s'
  end.

(** [line.split()]: the maximal runs of characters that are not
    whitespace. *)
Definition str_split (line : string) : list string :=
  String.string_of_list_ascii <$>
    split_go [] (String.list_ascii_of_string line).

Definition load_transactions (lines : list string) : list transaction :=
  foldl (λ transactions line,
           let line := str_strip line in
           if decide (line = "") then transactions
           else transactions ++ [list_to_set (str_split line)])
        [] lines.

(** ASCII text, a line of whitespace only, and a token that can be an
    item: not empty and free of whitespace. *)
Definition ascii_text (line : string) : Prop :=
  Forall (λ c, (Ascii.N_of_ascii c < 128)%N) (String.list_ascii_of_string line).

Definition blank (line : string) : Prop :=
  Forall (λ c, isspace c = true) (String.list_ascii_of_string line).

Definition valid_item (x : string) : Prop :=
  x ≠ "" ∧ Forall (λ c, isspace c = false) (String.list_ascii_of_string x).

Global Instance blank_dec line : Decision (blank line).
Proof. unfold blank. apply _. Defined.

(** The newline that ends a line of the file. *)
Definition newline : string := String (Ascii.ascii_of_nat 10) "".

(** A second threshold for the scenario. *)
Definition cfg3 : config := {| MIN_SUPPORT := 3; TOP_K := 5 |}.

(** Four lines of a file: a repeated item, an empty line, a line of
    whitespace only and a line with blanks around its words. *)
Definition sample_lines : list string :=
  [ "FRO1 GRO2 FRO1" +:+ newline;
    newline;
    "   " +:+ newline;
    "  GRO2   SNA3 " +:+ newline ].

(** * Friend recommendation (question_1.py)

    [mapper], [reducer] and the map, shuffle and reduce phases of [main],
    from the [adjacency] dict to the [results] dict.  A user id is a Python
    [int]: a [Z].  The [adjacency] dict is the list of its items in
    insertion order; [intermediate] and [results] are read by key only and
    are [gmap]s.  The parsing of the input file and the printing are not
    modelled. *)

Module question_1.

(** A value [(candidate, count)] of the shuffle and an emission
    [(key, (candidate, count))] of the map phase. *)
Abbreviation value := (Z * Z)%type (only parsing).
Abbreviation emission := (Z * (Z * Z))%type (only parsing).

(** The second loop visits the positions [i < j] of [friend_list] in the
    order of [combinations2]. *)
Definition mapper (user : Z) (friend_list : list Z) : list emission :=
  let emissions := (λ fi, (user, (fi, -1)%Z)) <$> friend_list in
  emissions ++
  (combinations2 friend_list ≫= λ '(fi, fj), [(fi, (fj, 1%Z)); (fj, (fi, 1%Z))]).

(** The body of [for candidate, count in values], on the state
    [(existing_friends, mutual_counts)]. *)
Definition tally (st : gset Z * gmap Z Z) (v : value) : gset Z * gmap Z Z :=
  let '(existing_friends, mutual_counts) := st in
  let '(candidate, count) := v in
  if decide (count = -1)%Z then ({[candidate]} ∪ existing_friends, mutual_counts)
  else (existing_friends,
        <[candidate := (getitem mutual_counts candidate + count)%Z]> mutual_counts).

(** [mutual_counts] after the two loops: the second pops every existing
    friend. *)
Definition mutual_counts_of (values : list value) : gmap Z Z :=
  let '(existing_friends, mutual_counts) := foldl tally (∅, ∅) values in
  foldl (λ d friend, delete friend d) mutual_counts (elements existing_friends).

(** [key=lambda x: (-x[1], x[0])] and the order of those keys. *)
Definition key_rec (x : Z * Z) : Z * Z := ((- x.2)%Z, x.1).
Definition cmp_key_rec : Z * Z → Z * Z → comparison :=
  cmp_pair Z.compare Z.compare.

(** The last two lines of [reducer], on the items of [mutual_counts] in the
    order the dict lists them. *)
Definition recommend (items : list (Z * Z)) : list Z :=
  let sorted_recs := sorted (cmp_on key_rec cmp_key_rec) items in
  (take 10 sorted_recs).*1.

Definition reducer (user : Z) (values : list value) : list Z :=
  recommend (map_to_list (mutual_counts_of values)).

(** [intermediate[key]] and [intermediate[key].append(value)] on a
    [defaultdict(list)]. *)
Definition getlist (intermediate : gmap Z (list value)) (key : Z) : list value :=
  default [] (intermediate !! key).

Definition append (intermediate : gmap Z (list value)) (e : emission) :
    gmap Z (list value) :=
  <[e.1 := getlist intermediate e.1 ++ [e.2]]> intermediate.

(** The map phase of [main]. *)
Definition map_phase (adjacency : list (Z * list Z)) : gmap Z (list value) :=
  foldl (λ intermediate '(user, friend_list),
           foldl append intermediate (mapper user friend_list))
        ∅ adjacency.

(** The reduce phase of [main], and the entries added for the users the
    reduce phase did not reach. *)
Definition reduce_phase (intermediate : gmap Z (list value)) : gmap Z (list Z) :=
  foldl (λ results user,
           <[user := reducer user (getlist intermediate user)]> results)
        ∅ (sorted Z.compare (map_to_list intermediate).*1).

Definition main (adjacency : list (Z * list Z)) : gmap Z (list Z) :=
  let intermediate := map_phase adjacency in
  let results := reduce_phase intermediate in
  foldl (λ results '(user, _),
           if decide (is_Some (results !! user)) then results
           else <[user := []]> results)
        results adjacency.

(** ** Vocabulary *)

(** [c] is marked as a friend, or is counted, in [values]. *)
Definition marked (values : list value) (c : Z) : Prop :=
  (c, -1)%Z ∈ values.
Definition counted (values : list value) (c : Z) : Prop :=
  ∃ n, n ≠ (-1)%Z ∧ (c, n) ∈ values.

(** The sum of the counts [values] holds for [c], the marks aside. *)
Definition score (values : list value) (c : Z) : Z :=
  foldr Z.add 0%Z (filter (λ v, v.1 = c ∧ v.2 ≠ (-1)%Z) values).*2.

(** [a] is recommended before [b]: a larger score, or the same score and a
    smaller id. *)
Definition ranks_before (values : list value) (a b : Z) : Prop :=
  (score values b < score values a)%Z ∨
  (score values a = score values b ∧ (a < b)%Z).

(** All the emissions of the map phase, and the number of friend lists
    that hold both [u] and [c]. *)
Definition emissions (adjacency : list (Z * list Z)) : list emission :=
  adjacency ≫= λ '(user, friend_list), mapper user friend_list.

(** The values the shuffle collects under [key]. *)
Definition values_for (key : Z) (es : list emission) : list value :=
  (filter (λ e, e.1 = key) es).*2.

Definition mutual (adjacency : list (Z * list Z)) (u c : Z) : Z :=
  Z.of_nat (length (filter (λ p, u ∈ p.2 ∧ c ∈ p.2) adjacency)).

(** [a] comes before [b] in the recommendations for [u]: more friend
    lists shared with [u], or as many and a smaller id. *)
Definition closer (adjacency : list (Z * list Z)) (u a b : Z) : Prop :=
  (mutual adjacency u b < mutual adjacency u a)%Z ∨
  (mutual adjacency u a = mutual adjacency u b ∧ (a < b)%Z).

(** A dict with duplicate-free friend lists. *)
Definition well_formed (adjacency : list (Z * list Z)) : Prop :=
  NoDup adjacency.*1 ∧ Forall (λ p, NoDup p.2) adjacency.

(** Seven users with the friendships 1-2, 1-3, 2-3, 2-4, 2-6, 3-4, 4-5
    and 5-6; user 7 has no friend. *)
Definition sample_adjacency : list (Z * list Z) :=
  [ (1, [2; 3]); (2, [1; 3; 4; 6]); (3, [1; 2; 4]); (4, [2; 3; 5]);
    (5, [4; 6]); (6, [2; 5]); (7, []) ]%Z.

(** Values for one user: 7 is a friend, 8 and 9 are counted. *)
Definition sample_values : list value :=
  [ (8, 1); (7, -1); (9, 1); (7, 1); (9, 1) ]%Z.

(** Twelve candidates for one user, 12 counted twice: more than the ten
    that are returned. *)
Definition crowd_values : list value :=
  [ (1, 1); (2, 1); (3, 1); (4, 1); (5, 1); (6, 1); (7, 1); (8, 1); (9, 1);
    (10, 1); (11, 1); (12, 1); (12, 1) ]%Z.

(** User 100 is in the list of user 0 with eleven others, and in the list
    of user 50 with user 5. *)
Definition crowd_adjacency : list (Z * list Z) :=
  [ (0, [100; 1; 2; 3; 4; 5; 6; 7; 8; 9; 10; 11]); (50, [100; 5]) ]%Z.

End question_1.

(** * Properties *)

(** ** Comparators *)

Section comparator.
Context {A} (cmp : A → A → comparison) `{!Comparator cmp}.

Lemma cmp_refl x : cmp x x = Eq.
Proof. pose proof (cmp_opp cmp x x) as E. destruct (cmp x x); done. Qed.

Lemma cmp_le_total x y : cmp_le cmp x y ∨ cmp_le cmp y x.
Proof.
  unfold cmp_le. rewrite (cmp_opp cmp x y).
  destruct (cmp x y); simpl; auto.
Qed.

(** Composition of two steps that do not go down. *)
Lemma cmp_trans x y z :
  cmp x y ≠ Gt → cmp y z ≠ Gt → cmp x z = lex (cmp x y) (cmp y z).
Proof.
  intros Hxy Hyz.
  pose proof (cmp_le_trans cmp x y z Hxy Hyz) as Hxz.
  pose proof (cmp_le_trans cmp z x y) as H1.
  pose proof (cmp_le_trans cmp y z x) as H2.
  pose proof (cmp_le_trans cmp z y x) as H3.
  rewrite (cmp_opp cmp x z) in H1, H2, H3.
  rewrite (cmp_opp cmp y z) in H1, H3. rewrite (cmp_opp cmp x y) in H2, H3.
  destruct (cmp x y), (cmp y z), (cmp x z); simpl in *;
    try done; exfalso; (by apply H1) || (by apply H2) || (by apply H3).
Qed.

Lemma cmp_eq_sym x y : cmp x y = Eq → cmp y x = Eq.
Proof. intros E. by rewrite (cmp_opp cmp), E. Qed.

Lemma cmp_le_antisym x y : cmp_le cmp x y → cmp_le cmp y x → cmp x y = Eq.
Proof.
  unfold cmp_le. rewrite (cmp_opp cmp x y). destruct (cmp x y); simpl; done.
Qed.

Global Instance cmp_le_transitive : Transitive (cmp_le cmp).
Proof. intros x y z. apply (cmp_le_trans cmp). Qed.

Global Instance cmp_le_dec : RelDecision (cmp_le cmp).
Proof. intros x y. unfold cmp_le. apply _. Defined.
End comparator.

Global Instance string_comparator : Comparator String.compare.
Proof.
  split.
  - intros x y. apply String.compare_antisym.
  - intros x y z Hxy Hyz.
    assert (L : ∀ a b, String.compare a b ≠ Gt ↔ String.le a b).
    { intros a b. unfold String.le, String.leb.
      destruct (String.compare a b); simpl; naive_solver. }
    apply L. transitivity y; by apply L.
Qed.

Global Instance Q_comparator : Comparator Qcompare.
Proof.
  split.
  - intros x y. symmetry. apply Qcompare_antisym.
  - intros x y z Hxy Hyz. apply Qle_alt.
    apply Qle_trans with y; by apply Qle_alt.
Qed.

Global Instance cmp_on_comparator {A B} (f : A → B) cmp `{!Comparator cmp} :
  Comparator (cmp_on f cmp).
Proof.
  split; unfold cmp_on.
  - intros x y. apply (cmp_opp cmp).
  - intros x y z. apply (cmp_le_trans cmp).
Qed.

Global Instance cmp_pair_comparator {A B} (ca : A → A → comparison)
    (cb : B → B → comparison) `{!Comparator ca, !Comparator cb} :
  Comparator (cmp_pair ca cb).
Proof.
  split; unfold cmp_pair.
  - intros [a b] [a' b']; simpl.
    rewrite (cmp_opp ca a a'), (cmp_opp cb b b').
    by destruct (ca a a').
  - intros [a1 b1] [a2 b2] [a3 b3]; simpl. intros H12 H23.
    assert (ca a1 a2 ≠ Gt) as Ha12 by (by destruct (ca a1 a2)).
    assert (ca a2 a3 ≠ Gt) as Ha23 by (by destruct (ca a2 a3)).
    rewrite (cmp_trans ca a1 a2 a3 Ha12 Ha23).
    destruct (ca a1 a2), (ca a2 a3); simpl in *; try done.
    by apply (cmp_le_trans cb b1 b2 b3).
Qed.

Lemma string_compare_eq (x y : string) : String.compare x y = Eq ↔ x = y.
Proof.
  split; [apply String.compare_eq_iff|].
  intros ->. apply (cmp_refl String.compare).
Qed.

Lemma string_lt_neq (x y : string) : item_lt x y → x ≠ y.
Proof. unfold item_lt, cmp_lt. intros H ->. by rewrite (cmp_refl String.compare) in H. Qed.

Global Instance string_lt_trans : Transitive item_lt.
Proof.
  intros x y z Hxy Hyz. unfold item_lt, cmp_lt in *.
  rewrite (cmp_trans String.compare x y z); rewrite ?Hxy, ?Hyz; done.
Qed.

(** ** The sort *)

Section sorted_facts.
Context {A} (cmp : A → A → comparison) `{!Comparator cmp}.

Lemma insert_sorted_perm x l : insert_sorted cmp x l ≡ₚ x :: l.
Proof.
  induction l as [|y l IH]; simpl; [done|].
  destruct (cmp x y); try done.
  rewrite IH. apply Permutation_swap.
Qed.

Lemma sorted_perm l : sorted cmp l ≡ₚ l.
Proof.
  induction l as [|x l IH]; simpl; [done|].
  by rewrite insert_sorted_perm, IH.
Qed.

Lemma elem_of_sorted x l : x ∈ sorted cmp l ↔ x ∈ l.
Proof. by rewrite sorted_perm. Qed.

Lemma length_sorted l : length (sorted cmp l) = length l.
Proof. by rewrite sorted_perm. Qed.

Lemma insert_sorted_Sorted x l :
  Sorted (cmp_le cmp) l → Sorted (cmp_le cmp) (insert_sorted cmp x l).
Proof.
  induction 1 as [|y l Hl IH Hhd]; simpl.
  - repeat constructor.
  - destruct (cmp x y) eqn:E.
    + repeat constructor; [done..|]. unfold cmp_le. by rewrite E.
    + repeat constructor; [done..|]. unfold cmp_le. by rewrite E.
    + constructor; [done|].
      assert (cmp_le cmp y x) as Hyx.
      { unfold cmp_le. by rewrite (cmp_opp cmp), E. }
      destruct Hhd as [|z l' Hz]; simpl; [by constructor|].
      destruct (cmp x z); by constructor.
Qed.

Lemma sorted_Sorted l : StronglySorted (cmp_le cmp) (sorted cmp l).
Proof.
  apply Sorted_StronglySorted; [apply _|].
  induction l as [|x l IH]; simpl; [constructor|].
  by apply insert_sorted_Sorted.
Qed.

(** Two runs of the sort on the same elements agree as soon as equal
    keys mean equal elements. *)
Lemma sorted_unique l1 l2 :
  l1 ≡ₚ l2 →
  (∀ x y, x ∈ l1 → y ∈ l1 → cmp x y = Eq → x = y) →
  sorted cmp l1 = sorted cmp l2.
Proof.
  intros Hp Heq.
  apply (StronglySorted_unique_strong (cmp_le cmp));
    [|apply sorted_Sorted..|by rewrite !sorted_perm].
  intros x y Hx Hy Hxy Hyx.
  rewrite elem_of_sorted in Hx. rewrite elem_of_sorted, <- Hp in Hy.
  apply Heq; [done..|]. by apply cmp_le_antisym.
Qed.

Lemma sorted_strict l :
  NoDup l → (∀ x y, cmp x y = Eq → x = y) →
  StronglySorted (cmp_lt cmp) (sorted cmp l).
Proof.
  intros Hnd Heq.
  assert (NoDup (sorted cmp l)) as Hnd' by (by rewrite sorted_perm).
  pose proof (sorted_Sorted l) as Hs.
  induction Hs as [|x l' Hs IH Hall]; [constructor|].
  apply NoDup_cons in Hnd' as [Hx Hnd'].
  constructor; [by apply IH|].
  apply Forall_forall. intros y Hy.
  rewrite Forall_forall in Hall. specialize (Hall y Hy).
  unfold cmp_le, cmp_lt in *.
  destruct (cmp x y) eqn:E; try done.
  apply Heq in E. by subst.
Qed.
End sorted_facts.

Global Instance string_lt_strict : StrictOrder item_lt.
Proof.
  split; [|apply _].
  intros x Hx. by apply string_lt_neq in Hx.
Qed.

(** ** Combinations *)

Section combinations_facts.
Context {A : Type}.
Implicit Types l : list A.

Lemma elem_of_combinations2 l a b :
  (a, b) ∈ combinations2 l → a ∈ l ∧ b ∈ l.
Proof.
  induction l as [|x l IH]; simpl; [by intros ?%elem_of_nil|].
  rewrite elem_of_app, list_elem_of_fmap.
  intros [(y & [= -> ->] & Hy)|H%IH].
  - split; [left|by right].
  - destruct H. split; by right.
Qed.

Lemma combinations2_ordered (R : relation A) l a b :
  StronglySorted R l → (a, b) ∈ combinations2 l → R a b.
Proof.
  induction 1 as [|x l Hs IH Hall]; simpl; [by intros ?%elem_of_nil|].
  rewrite elem_of_app, list_elem_of_fmap.
  intros [(y & [= -> ->] & Hy)|H]; [|by apply IH].
  rewrite Forall_forall in Hall. by apply Hall.
Qed.

Lemma combinations2_complete (R : relation A) `{!StrictOrder R} l a b :
  StronglySorted R l → a ∈ l → b ∈ l → R a b → (a, b) ∈ combinations2 l.
Proof.
  induction 1 as [|x l Hs IH Hall]; simpl; [by intros ?%elem_of_nil|].
  rewrite Forall_forall in Hall.
  rewrite !elem_of_cons, elem_of_app, list_elem_of_fmap.
  intros [->|Ha] [->|Hb] Hab.
  - destruct (irreflexivity R _ Hab).
  - left. by exists b.
  - destruct (irreflexivity R a). transitivity x; [done|by apply Hall].
  - right. by apply IH.
Qed.

Lemma NoDup_combinations2 l : NoDup l → NoDup (combinations2 l).
Proof.
  induction 1 as [|x l Hx Hnd IH]; simpl; [constructor|].
  apply NoDup_app. split_and!; [|intros [a b]|done].
  - apply NoDup_fmap_2; [|done]. by intros y y' [= ->].
  - intros (y & [= -> ->] & Hy)%list_elem_of_fmap [? _]%elem_of_combinations2.
    done.
Qed.

Lemma elem_of_combinations3 l a b c :
  (a, b, c) ∈ combinations3 l → a ∈ l ∧ b ∈ l ∧ c ∈ l.
Proof.
  induction l as [|x l IH]; simpl; [by intros ?%elem_of_nil|].
  rewrite elem_of_app, list_elem_of_fmap.
  intros [([y z] & [= -> -> ->] & [??]%elem_of_combinations2)|H%IH].
  - split_and!; [left|by right..].
  - destruct H as (? & ? & ?). split_and!; by right.
Qed.

Lemma combinations3_ordered (R : relation A) l a b c :
  StronglySorted R l → (a, b, c) ∈ combinations3 l → R a b ∧ R b c.
Proof.
  induction 1 as [|x l Hs IH Hall]; simpl; [by intros ?%elem_of_nil|].
  rewrite elem_of_app, list_elem_of_fmap.
  intros [([y z] & [= -> -> ->] & Hyz)|H]; [|by apply IH].
  rewrite Forall_forall in Hall. split.
  - apply Hall. by apply elem_of_combinations2 in Hyz as [? _].
  - by apply (combinations2_ordered R l).
Qed.

Lemma combinations3_complete (R : relation A) `{!StrictOrder R} l a b c :
  StronglySorted R l → a ∈ l → b ∈ l → c ∈ l → R a b → R b c →
  (a, b, c) ∈ combinations3 l.
Proof.
  induction 1 as [|x l Hs IH Hall]; simpl; [by intros ?%elem_of_nil|].
  rewrite Forall_forall in Hall.
  rewrite !elem_of_cons, elem_of_app, list_elem_of_fmap.
  intros Ha Hb Hc Hab Hbc.
  assert (R a c) as Hac by (by transitivity b).
  assert (∀ u, R u x → u ∈ l → False) as Hlow.
  { intros u Hu Hin. destruct (irreflexivity R u).
    transitivity x; [done|by apply Hall]. }
  assert (∀ u, R u x → u = x ∨ u ∈ l → False) as Hlow'.
  { intros u Hu [->|Hin]; [destruct (irreflexivity R _ Hu)|by eapply Hlow]. }
  destruct Ha as [->|Ha].
  - left. exists (b, c). split; [done|].
    destruct Hb as [->|Hb]; [destruct (irreflexivity R _ Hab)|].
    destruct Hc as [->|Hc]; [destruct (irreflexivity R _ Hac)|].
    by apply (combinations2_complete R).
  - right. apply IH; try done.
    + destruct Hb as [->|Hb]; [|done]. destruct (Hlow a Hab Ha).
    + destruct Hc as [->|Hc]; [|done]. destruct (Hlow a Hac Ha).
Qed.

Lemma NoDup_combinations3 l : NoDup l → NoDup (combinations3 l).
Proof.
  induction 1 as [|x l Hx Hnd IH]; simpl; [constructor|].
  apply NoDup_app. split_and!; [|intros [[a b] c]|done].
  - apply NoDup_fmap_2; [|by apply NoDup_combinations2].
    by intros [y z] [y' z'] [= -> ->].
  - intros ([y z] & [= -> -> ->] & Hy)%list_elem_of_fmap
           (? & _)%elem_of_combinations3.
    done.
Qed.
End combinations_facts.

(** ** Counting in a [defaultdict(int)] *)

Lemma foldl_invariant {S X} (P : S → Prop) (f : S → X → S) (l : list X) (s : S) :
  P s → (∀ s x, x ∈ l → P s → P (f s x)) → P (foldl f s l).
Proof.
  revert s. induction l as [|x l IH]; intros s Hs Hf; simpl; [done|].
  apply IH.
  - apply Hf; [left|done].
  - intros s' x' Hx'. apply Hf. by right.
Qed.

Lemma for_transactions_spec {S T} (ts : list T) (s : S) (body : S → T → S) n :
  for_transactions ts s body n = (foldl body s ts, n + length ts).
Proof.
  revert s n. induction ts as [|t ts IH]; intros s n; simpl.
  - unfold mret, scan_ret. f_equal. lia.
  - rewrite IH. f_equal. lia.
Qed.

Section counting.
Context `{Countable K}.
Implicit Types d : gmap K Z.

Lemma positive_counts_empty : positive_counts (∅ : gmap K Z).
Proof. by intros k c ?%lookup_empty_Some. Qed.

Lemma getitem_empty k : getitem (∅ : gmap K Z) k = 0%Z.
Proof. unfold getitem. by rewrite lookup_empty. Qed.

Lemma getitem_nonneg d k : positive_counts d → (0 ≤ getitem d k)%Z.
Proof.
  intros Hd. unfold getitem. destruct (d !! k) as [c|] eqn:E; simpl; [|done].
  apply Hd in E. lia.
Qed.

Lemma lookup_getitem d k c :
  positive_counts d → d !! k = Some c ↔ getitem d k = c ∧ (0 < c)%Z.
Proof.
  intros Hd. unfold getitem. split.
  - intros E. rewrite E. split; [done|by eapply Hd].
  - destruct (d !! k); simpl; intros [<- ?]; [done|lia].
Qed.

Lemma lookup_None_getitem d k :
  positive_counts d → d !! k = None ↔ getitem d k = 0%Z.
Proof.
  intros Hd. unfold getitem. destruct (d !! k) as [c|] eqn:E; simpl; [|done].
  apply Hd in E. split; [done|lia].
Qed.

Lemma getitem_incr k d q :
  getitem (incr k d) q = (getitem d q + if decide (k = q) then 1 else 0)%Z.
Proof.
  unfold incr, getitem at 1. rewrite lookup_insert.
  case_decide; subst; simpl; [done|]. unfold getitem. lia.
Qed.

Lemma incr_positive k d : positive_counts d → positive_counts (incr k d).
Proof.
  intros Hd q c. unfold incr. rewrite lookup_insert.
  case_decide; subst; [|apply Hd].
  intros [= <-]. pose proof (getitem_nonneg d q Hd). lia.
Qed.

(** The inner loop: one increment for every listed key that passes the
    test. *)
Section inner_loop.
Context (P : K → Prop) {P_dec : ∀ k, Decision (P k)}.
Context (f : gmap K Z → K → gmap K Z).
Hypothesis f_step : ∀ d p, f d p = if decide (P p) then incr p d else d.

Lemma getitem_inner_loop d l q :
  NoDup l →
  getitem (foldl f d l) q =
    (getitem d q + if decide (P q ∧ q ∈ l) then 1 else 0)%Z.
Proof.
  intros Hnd. revert d.
  induction Hnd as [|p l Hp Hnd IH]; intros d; simpl.
  - rewrite decide_False; [lia|]. by intros [_ ?%elem_of_nil].
  - rewrite IH, f_step. destruct (decide (q = p)) as [->|Hqp].
    + rewrite (decide_False (P:=P p ∧ p ∈ l)) by (by intros [_ ?]).
      destruct (decide (P p)) as [HP|HP].
      * rewrite getitem_incr, !decide_True; [lia|by split; [|left]|done].
      * rewrite decide_False; [lia|by intros [? _]].
    + assert (getitem (if decide (P p) then incr p d else d) q = getitem d q)
        as ->.
      { destruct (decide (P p)); [|done].
        rewrite getitem_incr, decide_False by done. lia. }
      f_equal. apply decide_ext. rewrite elem_of_cons. tauto.
Qed.

Lemma inner_loop_positive d l :
  positive_counts d → positive_counts (foldl f d l).
Proof.
  intros Hd. apply foldl_invariant; [done|].
  intros d' p _ Hd'. rewrite f_step. case_decide; [|done].
  by apply incr_positive.
Qed.
End inner_loop.

(** The outer loop: a key gains one for every transaction that hits it. *)
Section outer_loop.
Context {T} (hit : T → K → Prop) {hit_dec : ∀ t k, Decision (hit t k)}.
Context (body : gmap K Z → T → gmap K Z).
Hypothesis body_step : ∀ d t q,
  getitem (body d t) q = (getitem d q + if decide (hit t q) then 1 else 0)%Z.
Hypothesis body_positive : ∀ d t,
  positive_counts d → positive_counts (body d t).

Lemma getitem_outer_loop d ts q :
  getitem (foldl body d ts) q =
    (getitem d q + Z.of_nat (length (filter (λ t, hit t q) ts)))%Z.
Proof.
  revert d. induction ts as [|t ts IH]; intros d; simpl; [lia|].
  rewrite IH, body_step, filter_cons.
  case_decide; simpl; lia.
Qed.

Lemma outer_loop_positive d ts :
  positive_counts d → positive_counts (foldl body d ts).
Proof.
  intros Hd. apply foldl_invariant; [done|].
  intros d' t _. apply body_positive.
Qed.
End outer_loop.
End counting.

Lemma filter_none {A} (P : A → Prop) `{!∀ x, Decision (P x)} (l : list A) :
  (∀ x, x ∈ l → ¬ P x) → filter P l = [].
Proof.
  induction l as [|x l IH]; intros Hl; [done|].
  rewrite filter_cons_False by (apply Hl; left).
  apply IH. intros y Hy. apply Hl. by right.
Qed.

Lemma sorted_items_strict (l : list item) :
  NoDup l → StronglySorted item_lt (sorted String.compare l).
Proof.
  intros Hl. apply (sorted_strict String.compare); [done|].
  intros x y. apply string_compare_eq.
Qed.

Lemma support_positive s ts : (0 < support s ts)%Z ↔ ∃ t, t ∈ ts ∧ s ⊆ t.
Proof.
  unfold support. split.
  - intros Hpos. destruct (filter (λ t, s ⊆ t) ts) as [|t l] eqn:E;
      simpl in Hpos; [lia|].
    exists t. apply and_comm, (list_elem_of_filter (λ t, s ⊆ t) ts t).
    rewrite E. left.
  - intros (t & Ht & Hs).
    assert (t ∈ filter (λ t, s ⊆ t) ts) as Hin by (by apply list_elem_of_filter).
    destruct (filter (λ t, s ⊆ t) ts); [by apply elem_of_nil in Hin|].
    simpl. lia.
Qed.

Lemma pair_subseteq (a b : item) (t : transaction) :
  a ∈ t → b ∈ t → {[a; b]} ⊆ t.
Proof. intros Ha Hb. apply union_subseteq. by rewrite !singleton_subseteq_l. Qed.

Lemma triple_subseteq (a b c : item) (t : transaction) :
  a ∈ t → b ∈ t → c ∈ t → {[a; b; c]} ⊆ t.
Proof.
  intros Ha Hb Hc. rewrite !union_subseteq. by rewrite !singleton_subseteq_l.
Qed.

Lemma support_nonneg s ts : (0 ≤ support s ts)%Z.
Proof. unfold support. lia. Qed.

Lemma support_anti_monotone s s' ts :
  s ⊆ s' → (support s' ts ≤ support s ts)%Z.
Proof.
  intros Hs. unfold support.
  induction ts as [|t ts IH]; simpl; [done|].
  rewrite !filter_cons.
  destruct (decide (s' ⊆ t)) as [Ht|Ht].
  - rewrite decide_True by (by transitivity s'). simpl. lia.
  - destruct (decide (s ⊆ t)); simpl; lia.
Qed.

Lemma singleton_in_pair_l (a b : item) : ({[a]} : gset item) ⊆ {[a; b]}.
Proof. apply union_subseteq_l. Qed.
Lemma singleton_in_pair_r (a b : item) : ({[b]} : gset item) ⊆ {[a; b]}.
Proof. apply union_subseteq_r. Qed.
Lemma pair_in_triple_xy (x y z : item) : ({[x; y]} : gset item) ⊆ {[x; y; z]}.
Proof. apply union_subseteq_l. Qed.
Lemma pair_in_triple_xz (x y z : item) : ({[x; z]} : gset item) ⊆ {[x; y; z]}.
Proof.
  apply union_least; [|apply union_subseteq_r].
  transitivity ({[x; y]} : gset item); apply union_subseteq_l.
Qed.
Lemma pair_in_triple_yz (x y z : item) : ({[y; z]} : gset item) ⊆ {[x; y; z]}.
Proof.
  apply union_least; [|apply union_subseteq_r].
  transitivity ({[x; y]} : gset item);
    [apply union_subseteq_r|apply union_subseteq_l].
Qed.

(** ** The three counting levels *)

Section levels.
Variable cfg : config.
Implicit Types ts : list transaction.

Lemma elem_of_frequent `{Countable K} (d : gmap K Z) k :
  k ∈ frequent cfg d ↔ ∃ c, d !! k = Some c ∧ (MIN_SUPPORT cfg ≤ c)%Z.
Proof.
  unfold frequent. rewrite list_elem_of_fmap. split.
  - intros ([k' c] & -> & [Hc Hin]%list_elem_of_filter).
    exists c. split; [by apply elem_of_map_to_list|done].
  - intros (c & Hd & Hc). exists (k, c). split; [done|].
    apply list_elem_of_filter. split; [done|by apply elem_of_map_to_list].
Qed.

Lemma NoDup_frequent `{Countable K} (d : gmap K Z) : NoDup (frequent cfg d).
Proof.
  unfold frequent. eapply sublist_NoDup; [apply (NoDup_fst_map_to_list d)|].
  apply fmap_sublist, sublist_filter.
Qed.

Lemma frequent_empty `{Countable K} : frequent cfg (∅ : gmap K Z) = [].
Proof. unfold frequent. by rewrite map_to_list_empty. Qed.

(** Level 1: the table holds the support of every item. *)
Lemma apriori_L1_spec ts item_sup L1 :
  run (apriori_L1 cfg ts) = (item_sup, L1) →
  positive_counts item_sup ∧
  (∀ x, getitem item_sup x = support {[x]} ts) ∧
  L1 = sorted String.compare (frequent cfg item_sup).
Proof.
  unfold run, apriori_L1, mbind, scan_bind.
  rewrite for_transactions_spec. simpl. intros [= <- <-].
  set (f := λ (d : gmap item Z) (x : item), incr x d).
  assert (Hf : ∀ d p, f d p = if decide True then incr p d else d) by done.
  split_and!; [| |done].
  - apply outer_loop_positive; [|apply positive_counts_empty].
    intros d t. by apply (inner_loop_positive (λ _, True) (P_dec:=λ _, True_dec) f).
  - intros x.
    rewrite (getitem_outer_loop (λ (t : transaction) q, True ∧ q ∈ elements t)).
    + rewrite getitem_empty, Z.add_0_l. unfold support. do 2 f_equal.
      apply list_filter_iff. intros t.
      rewrite elem_of_elements, singleton_subseteq_l. tauto.
    + intros d t q.
      apply (getitem_inner_loop (λ _, True) (P_dec:=λ _, True_dec) f); [done|]. apply NoDup_elements.
Qed.

Lemma elem_of_C2_of L1 a b : (a, b) ∈ C2_of L1 → a ∈ L1 ∧ b ∈ L1.
Proof.
  unfold C2_of. rewrite elem_of_list_to_set. apply elem_of_combinations2.
Qed.

(** Level 2: a pair is counted when it is a candidate in ascending
    order, and then once for every transaction that holds both items. *)
Lemma apriori_L2_spec ts L1 pair_sup L2 :
  run (apriori_L2 cfg ts L1) = (pair_sup, L2) →
  positive_counts pair_sup ∧
  (∀ a b, getitem pair_sup (a, b) =
            if decide ((a, b) ∈ C2_of L1 ∧ item_lt a b)
            then support {[a; b]} ts else 0%Z) ∧
  L2 = list_to_set (frequent cfg pair_sup).
Proof.
  unfold run, apriori_L2, mbind, scan_bind.
  rewrite for_transactions_spec. simpl. intros [= <- <-].
  set (C2 := C2_of L1).
  set (f := λ (d : gmap pair Z) (p : pair),
              if decide (p ∈ C2) then incr p d else d).
  pose (mem := λ p : pair, decide (p ∈ C2)).
  assert (Hf : ∀ d p, f d p = if decide (p ∈ C2) then incr p d else d) by done.
  set (ft := λ t : transaction,
         sorted String.compare
           (filter (λ x, x ∈ (list_to_set L1 : gset item)) (elements t))).
  assert (Hft : ∀ t, StronglySorted item_lt (ft t)).
  { intros t. apply sorted_items_strict, NoDup_filter, NoDup_elements. }
  assert (Hin : ∀ t x, x ∈ ft t ↔ x ∈ L1 ∧ x ∈ t).
  { intros t x. unfold ft.
    rewrite (elem_of_sorted String.compare), list_elem_of_filter.
    by rewrite elem_of_list_to_set, elem_of_elements. }
  split_and!; [| |done].
  - apply outer_loop_positive; [|apply positive_counts_empty].
    intros d t. by apply (inner_loop_positive (λ p, p ∈ C2) (P_dec:=mem) f).
  - intros a b.
    rewrite (getitem_outer_loop
               (λ (t : transaction) q, q ∈ C2 ∧ q ∈ combinations2 (ft t))).
    + rewrite getitem_empty, Z.add_0_l. unfold support.
      case_decide as Hab.
      * destruct Hab as [HC2 Hlt]. do 2 f_equal.
        apply list_filter_iff. intros t.
        pose proof (elem_of_C2_of _ _ _ HC2) as [Ha Hb].
        rewrite union_subseteq, !singleton_subseteq_l. split.
        -- intros [_ (?%Hin & ?%Hin)%elem_of_combinations2]. tauto.
        -- intros [Hat Hbt]. split; [done|].
           apply (combinations2_complete item_lt);
             [done|by apply Hin|by apply Hin|done].
      * rewrite filter_none; [done|].
        intros t _ [HC2 Hc]. apply Hab. split; [done|].
        by apply (combinations2_ordered item_lt (ft t)).
    + intros d t q.
      apply (getitem_inner_loop (λ p, p ∈ C2) (P_dec:=mem) f); [done|].
      apply NoDup_combinations2.
      unfold ft. rewrite (sorted_perm String.compare).
      apply NoDup_filter, NoDup_elements.
Qed.

(** Level 3, the same for triples. *)
Lemma apriori_L3_spec ts C3 triple_sup L3 :
  run (apriori_L3 cfg ts C3) = (triple_sup, L3) →
  positive_counts triple_sup ∧
  (∀ x y z, getitem triple_sup (x, y, z) =
              if decide ((x, y, z) ∈ C3 ∧ item_lt x y ∧ item_lt y z)
              then support {[x; y; z]} ts else 0%Z) ∧
  L3 = list_to_set (frequent cfg triple_sup).
Proof.
  unfold run, apriori_L3. destruct (decide (C3 = ∅)) as [->|HC3].
  { simpl. intros [= <- <-]. split_and!.
    - apply positive_counts_empty.
    - intros x y z. rewrite getitem_empty, decide_False; [done|].
      intros [?%not_elem_of_empty _]. done.
    - by rewrite frequent_empty. }
  unfold mbind, scan_bind.
  rewrite for_transactions_spec. simpl. intros [= <- <-].
  set (f := λ (d : gmap triple Z) (p : triple),
              if decide (p ∈ C3) then incr p d else d).
  pose (mem := λ p : triple, decide (p ∈ C3)).
  assert (Hf : ∀ d p, f d p = if decide (p ∈ C3) then incr p d else d) by done.
  set (ft := λ t : transaction, sorted String.compare (elements t)).
  assert (Hft : ∀ t, StronglySorted item_lt (ft t)).
  { intros t. apply sorted_items_strict, NoDup_elements. }
  assert (Hin : ∀ t x, x ∈ ft t ↔ x ∈ t).
  { intros t x. unfold ft.
    by rewrite (elem_of_sorted String.compare), elem_of_elements. }
  split_and!; [| |done].
  - apply outer_loop_positive; [|apply positive_counts_empty].
    intros d t. by apply (inner_loop_positive (λ p, p ∈ C3) (P_dec:=mem) f).
  - intros x y z.
    rewrite (getitem_outer_loop
               (λ (t : transaction) q, q ∈ C3 ∧ q ∈ combinations3 (ft t))).
    + rewrite getitem_empty, Z.add_0_l. unfold support.
      case_decide as Hxyz.
      * destruct Hxyz as (HC & Hxy & Hyz). do 2 f_equal.
        apply list_filter_iff. intros t.
        rewrite !union_subseteq, !singleton_subseteq_l. split.
        -- intros [_ (?%Hin & ?%Hin & ?%Hin)%elem_of_combinations3]. tauto.
        -- intros [[Hxt Hyt] Hzt]. split; [done|].
           apply (combinations3_complete item_lt); try done; by apply Hin.
      * rewrite filter_none; [done|].
        intros t _ [HC Hc]. apply Hxyz. split; [done|].
        by apply (combinations3_ordered item_lt (ft t)).
    + intros d t q.
      apply (getitem_inner_loop (λ p, p ∈ C3) (P_dec:=mem) f); [done|].
      apply NoDup_combinations3.
      unfold ft. rewrite (sorted_perm String.compare).
      apply NoDup_elements.
Qed.
End levels.

(** ** The candidate triples *)

Lemma elem_of_apriori_C3_from_L2 (L2 : gset pair) x y z :
  (x, y, z) ∈ apriori_C3_from_L2 L2 →
  (x, y) ∈ L2 ∧ (x, z) ∈ L2 ∧ (y, z) ∈ L2.
Proof.
  unfold apriori_C3_from_L2. revert x y z.
  apply (foldl_invariant
           (λ C3 : gset triple, ∀ x y z, (x, y, z) ∈ C3 →
              (x, y) ∈ L2 ∧ (x, z) ∈ L2 ∧ (y, z) ∈ L2)).
  { intros x y z ?%not_elem_of_empty. done. }
  intros C3 [a bs] _ HC3. simpl.
  apply foldl_invariant; [done|].
  intros C3' [b c] _ HC3'. case_decide as Hk; [|done].
  intros x y z [[= -> -> ->]%elem_of_singleton|?]%elem_of_union; [done|].
  by apply HC3'.
Qed.

Lemma apriori_C3_from_L2_empty : apriori_C3_from_L2 ∅ = ∅.
Proof.
  unfold apriori_C3_from_L2, by_first_of.
  rewrite elements_empty. simpl. by rewrite map_to_list_empty.
Qed.

(** ** Rule generation *)

Lemma Qcompare_opp_eq (c1 c2 : Q) :
  Qcompare (- c1) (- c2) = Eq → (c1 == c2)%Q.
Proof.
  intros E%Qeq_alt.
  by rewrite <- (Qopp_involutive c1), E, Qopp_involutive.
Qed.

Lemma Qcompare_opp_lt (c1 c2 : Q) :
  Qcompare (- c1) (- c2) = Lt → (c2 < c1)%Q.
Proof.
  intros E%Qlt_alt%Qopp_lt_compat. by rewrite !Qopp_involutive in E.
Qed.

Lemma string_compare_le (x y : item) :
  String.compare x y ≠ Gt → item_lt x y ∨ x = y.
Proof.
  unfold item_lt, cmp_lt. destruct (String.compare x y) eqn:E; try done.
  - right. by apply string_compare_eq.
  - by left.
Qed.

Lemma key_d_le r1 r2 :
  cmp_le (cmp_on key_d cmp_key_d) r1 r2 → ranks_before_d r1 r2.
Proof.
  destruct r1 as [[[c1 l1] x1] s1], r2 as [[[c2 l2] x2] s2].
  unfold cmp_le, cmp_on, cmp_key_d, cmp_pair. simpl.
  destruct (Qcompare (- c1) (- c2)) eqn:Ec; simpl; [| |done].
  - intros Hle. right. split; [by apply Qcompare_opp_eq|].
    destruct (String.compare l1 l2) eqn:El; simpl in Hle; [| |done].
    + right. split; [by apply string_compare_eq|].
      by apply string_compare_le.
    + by left.
  - intros _. left. by apply Qcompare_opp_lt.
Qed.

Lemma key_e_le r1 r2 :
  cmp_le (cmp_on key_e cmp_key_e) r1 r2 → ranks_before_e r1 r2.
Proof.
  destruct r1 as [[[c1 [a1 b1]] x1] s1], r2 as [[[c2 [a2 b2]] x2] s2].
  unfold cmp_le, cmp_on, cmp_key_e, cmp_pair. simpl.
  destruct (Qcompare (- c1) (- c2)) eqn:Ec; simpl; [| |done].
  - intros Hle. right. split; [by apply Qcompare_opp_eq|].
    destruct (String.compare a1 a2) eqn:Ea; simpl in Hle; [| |done].
    + right. split; [by apply string_compare_eq|].
      destruct (String.compare b1 b2) eqn:Eb; simpl in Hle; [| |done].
      * right. split; [by apply string_compare_eq|].
        by apply string_compare_le.
      * by left.
    + by left.
  - intros _. left. by apply Qcompare_opp_lt.
Qed.

(** *** The nearest double *)

Lemma round_half_even_bounds n d :
  (0 < d)%Z →
  (2 * (round_half_even n d * d - n) ≤ d)%Z ∧
  (- d ≤ 2 * (round_half_even n d * d - n))%Z.
Proof.
  intros Hd. unfold round_half_even. cbv zeta.
  pose proof (Z.div_mod n d ltac:(lia)) as Hdm.
  pose proof (Z.mod_pos_bound n d Hd) as Hm.
  destruct (Z.compare_spec (2 * (n mod d)) d) as [E|E|E];
    [destruct (Z.even (n / d))|..]; nia.
Qed.

Lemma round_half_even_nonneg n d :
  (0 ≤ n)%Z → (0 < d)%Z → (0 ≤ round_half_even n d)%Z.
Proof.
  intros Hn Hd. unfold round_half_even. cbv zeta.
  pose proof (Z.div_pos n d Hn Hd).
  destruct (2 * (n mod d) ?= d)%Z; [destruct (Z.even (n / d))|..]; lia.
Qed.

Lemma round_half_even_upper n d K :
  (0 < d)%Z → (n ≤ K * d)%Z → (round_half_even n d ≤ K)%Z.
Proof.
  intros Hd Hn. pose proof (round_half_even_bounds n d Hd) as [Hhi _]. nia.
Qed.

Lemma binade_unit n d : (0 ≤ n ≤ d)%Z → (binade n d ≤ 0)%Z.
Proof.
  intros Hnd. unfold binade.
  pose proof (Z.log2_le_mono n d ltac:(lia)).
  case_match; lia.
Qed.

(** A quotient of at most one: the exponent is at most [-52], and the
    significand is within a half of the scaled quotient. *)
Lemma nearest_unit n d :
  (0 ≤ n ≤ d)%Z → (0 < d)%Z →
  ∃ m e, nearest n d = (m, e) ∧ (-1074 ≤ e ≤ -52)%Z ∧
         (0 ≤ m ≤ 2 ^ (- e))%Z ∧
         (2 * (m * d - n * 2 ^ (- e)) ≤ d)%Z ∧
         (- d ≤ 2 * (m * d - n * 2 ^ (- e)))%Z.
Proof.
  intros Hnd Hd. pose proof (binade_unit n d Hnd) as Hb.
  unfold nearest. set (e := Z.max (binade n d - 52) (-1074)).
  assert (-1074 ≤ e ≤ -52)%Z as He by lia.
  exists (round_half_even (n * 2 ^ Z.max 0 (- e)) (d * 2 ^ Z.max 0 e)), e.
  rewrite (Z.max_l 0 e), (Z.max_r 0 (- e)), Z.pow_0_r, Z.mul_1_r by lia.
  assert (0 < 2 ^ (- e))%Z as Hp by (apply Z.pow_pos_nonneg; lia).
  split_and!; try done; try lia.
  - apply round_half_even_nonneg; nia.
  - apply round_half_even_upper; nia.
  - apply round_half_even_bounds; lia.
  - apply round_half_even_bounds; lia.
Qed.

Lemma dyadic_neg m e :
  (e < 0)%Z → (dyadic (m, e) == m # Z.to_pos (2 ^ (- e)))%Q.
Proof.
  intros He. unfold dyadic, pow2. simpl. rewrite decide_True by done.
  rewrite Qred_correct. unfold Qeq, Qmult, inject_Z. simpl. lia.
Qed.

Lemma quotient_nonneg n d :
  (0 ≤ n)%Z → (0 < d)%Z → quotient n d = dyadic (nearest n d).
Proof.
  intros Hn Hd. unfold quotient.
  rewrite (Z.abs_eq n), (Z.abs_eq d), decide_True by nia. done.
Qed.

Lemma quotient_unit n d :
  (0 ≤ n ≤ d)%Z → (0 < d)%Z →
  (0 <= quotient n d)%Q ∧ (quotient n d <= 1)%Q.
Proof.
  intros Hnd Hd. rewrite quotient_nonneg by lia.
  destruct (nearest_unit n d Hnd Hd) as (m & e & -> & He & Hm & _).
  rewrite dyadic_neg by lia.
  assert (0 < 2 ^ (- e))%Z as Hp by (apply Z.pow_pos_nonneg; lia).
  unfold Qle. simpl. rewrite Z2Pos.id by done. lia.
Qed.

(** The rounding moves a quotient of at most one by [2^-53] at most. *)
Lemma quotient_error n d :
  (0 ≤ n ≤ d)%Z → (0 < d)%Z →
  (Qabs (quotient n d - ratio n d) <= 1 # 2 ^ 53)%Q.
Proof.
  intros Hnd Hd. rewrite quotient_nonneg by lia.
  destruct (nearest_unit n d Hnd Hd) as (m & e & -> & He & Hm & Hhi & Hlo).
  rewrite dyadic_neg by lia.
  assert (ratio n d == n # Z.to_pos d)%Q as ->.
  { unfold ratio. rewrite Qmake_Qdiv. by rewrite Z2Pos.id. }
  assert (0 < 2 ^ (- e))%Z as Hp by (apply Z.pow_pos_nonneg; lia).
  assert (2 ^ 52 ≤ 2 ^ (- e))%Z as H52 by (apply Z.pow_le_mono_r; lia).
  apply Qabs_Qle_condition. unfold Qle, Qminus, Qplus, Qopp. simpl.
  rewrite !Pos2Z.inj_mul, !Z2Pos.id by lia.
  set (P := (2 ^ (- e))%Z) in *. clearbody P. nia.
Qed.

Lemma overflows_unit n d :
  (0 ≤ n ≤ d)%Z → (0 < d)%Z → overflows n d = false.
Proof.
  intros Hnd Hd. destruct (quotient_unit n d Hnd Hd) as [H0 H1].
  unfold overflows. destruct (Qle_bool _ _) eqn:E; [|done].
  apply Qle_bool_iff in E. rewrite Qabs_pos in E by done.
  assert (inject_Z (2 ^ 1024) <= 1)%Q as Habs by (by eapply Qle_trans).
  unfold Qle in Habs. simpl in Habs. vm_compute in Habs. by destruct Habs.
Qed.

Lemma truediv_spec n d :
  truediv n d =
    match div_error n d with Some e => Raise e | None => Ok (quotient n d) end.
Proof.
  unfold truediv, div_error. case_decide; [done|]. by destruct (overflows n d).
Qed.

(** A part over the whole: the division goes through. *)
Lemma div_error_unit n d : (0 ≤ n ≤ d)%Z → (0 < d)%Z → div_error n d = None.
Proof.
  intros Hnd Hd. unfold div_error.
  rewrite decide_False by lia. by rewrite overflows_unit.
Qed.

Lemma div_error_cases n d e :
  div_error n d = Some e →
  (e = ZeroDivisionError ∧ d = 0%Z) ∨
  (e = OverflowError ∧ d ≠ 0%Z ∧ overflows n d = true).
Proof.
  unfold div_error. case_decide; [intros [= <-]; by left|].
  destruct (overflows n d); [|done]. intros [= <-]. by right.
Qed.

(** *** The first exception of a loop *)

Lemma first_error_cons {X} (err : X → option exn) x l :
  first_error err (x :: l) =
    match err x with Some e => Some e | None => first_error err l end.
Proof. unfold first_error. simpl. by destruct (err x). Qed.

Lemma first_error_None {X} (err : X → option exn) l :
  first_error err l = None ↔ Forall (λ x, err x = None) l.
Proof.
  induction l as [|x l IH]; [by split; [constructor|]|].
  rewrite first_error_cons, Forall_cons, <- IH.
  destruct (err x); split; try done; [by intros [? _]|by intros [_ ?]].
Qed.

Lemma first_error_Some {X} (err : X → option exn) l e :
  first_error err l = Some e → ∃ x, x ∈ l ∧ err x = Some e.
Proof.
  induction l as [|x l IH]; [done|]. rewrite first_error_cons.
  destruct (err x) as [e'|] eqn:E.
  - intros [= ->]. exists x. split; [left|done].
  - intros (y & Hy & He)%IH. exists y. split; [by right|done].
Qed.

Lemma first_error_is_Some {X} (err : X → option exn) l x e :
  x ∈ l → err x = Some e → ∃ e', first_error err l = Some e'.
Proof.
  intros Hx He. destruct (first_error err l) as [e'|] eqn:E; [by eexists|].
  apply first_error_None in E. rewrite Forall_forall in E.
  rewrite (E _ Hx) in He. done.
Qed.

(** A loop that appends what each element gives until one raises. *)
Lemma for_each_emit {X R} (err : X → option exn) (emit : X → list R)
    (body : list R → X → result (list R)) (l : list X) (acc : list R) :
  (∀ acc x, body acc x =
     match err x with Some e => Raise e | None => Ok (acc ++ emit x) end) →
  for_each body acc l =
    match first_error err l with
    | Some e => Raise e
    | None => Ok (acc ++ l ≫= emit)
    end.
Proof.
  intros Hbody. revert acc. induction l as [|x l IH]; intros acc.
  { simpl. by rewrite app_nil_r. }
  cbn [for_each]. rewrite Hbody, first_error_cons.
  destruct (err x); [done|]. unfold mbind, result_bind. rewrite IH.
  destruct (first_error err l); [done|].
  by rewrite bind_cons, app_assoc.
Qed.

(** The loop of [top5_part_d] either appends the rules of every pair or
    stops at the first division that raises. *)
Lemma rules_part_d_spec item_sup pair_sup (L2 : list pair) :
  rules_part_d item_sup pair_sup L2 =
    match first_error (pair_error item_sup pair_sup) L2 with
    | Some e => Raise e
    | None => Ok (L2 ≫= emit_d item_sup pair_sup)
    end.
Proof.
  unfold rules_part_d.
  apply (for_each_emit (pair_error item_sup pair_sup)
           (emit_d item_sup pair_sup)).
  intros acc [a b]. unfold pair_error, emit_d, mbind, result_bind. simpl.
  rewrite !truediv_spec.
  destruct (div_error _ (getitem item_sup a)); [done|].
  destruct (div_error _ (getitem item_sup b)); [done|].
  unfold mret, result_ret. by rewrite <- app_assoc.
Qed.

Lemma rules_part_e_spec pair_sup triple_sup (L3 : list triple) :
  rules_part_e pair_sup triple_sup L3 =
    match first_error (triple_error pair_sup triple_sup) L3 with
    | Some e => Raise e
    | None => Ok (L3 ≫= emit_e pair_sup triple_sup)
    end.
Proof.
  unfold rules_part_e.
  apply (for_each_emit (triple_error pair_sup triple_sup)
           (emit_e pair_sup triple_sup)).
  intros acc [[x y] z]. unfold triple_error, emit_e, mbind, result_bind.
  rewrite !truediv_spec.
  destruct (div_error _ (getitem pair_sup (x, y))); [done|].
  destruct (div_error _ (getitem pair_sup (x, z))); [done|].
  destruct (div_error _ (getitem pair_sup (y, z))); [done|].
  unfold mret, result_ret. by rewrite <- !app_assoc.
Qed.

(** *** The keys of the rules of canonical itemsets *)

Lemma item_lt_asym (a b : item) : item_lt a b → item_lt b a → False.
Proof.
  intros Hab Hba. assert (item_lt a a) as Haa by (by transitivity b).
  by apply string_lt_neq in Haa.
Qed.

Lemma key_d_same r1 r2 :
  cmp_on key_d cmp_key_d r1 r2 = Eq →
  r1.1.1.2 = r2.1.1.2 ∧ r1.1.2 = r2.1.2.
Proof.
  destruct r1 as [[[c1 l1] x1] s1], r2 as [[[c2 l2] x2] s2].
  unfold cmp_on, cmp_key_d, cmp_pair. simpl.
  destruct (Qcompare _ _); simpl; try done.
  destruct (String.compare l1 l2) eqn:El; simpl; try done.
  intros ->%string_compare_eq. by apply string_compare_eq in El as ->.
Qed.

Lemma key_e_same r1 r2 :
  cmp_on key_e cmp_key_e r1 r2 = Eq →
  r1.1.1.2 = r2.1.1.2 ∧ r1.1.2 = r2.1.2.
Proof.
  destruct r1 as [[[c1 [a1 b1]] x1] s1], r2 as [[[c2 [a2 b2]] x2] s2].
  unfold cmp_on, cmp_key_e, cmp_pair. simpl.
  destruct (Qcompare _ _); simpl; try done.
  destruct (String.compare a1 a2) eqn:Ea; simpl; try done.
  destruct (String.compare b1 b2) eqn:Eb; simpl; try done.
  intros ->%string_compare_eq.
  apply string_compare_eq in Ea as ->. by apply string_compare_eq in Eb as ->.
Qed.

(** Two rules of canonical pairs with the same left and right side are
    the same rule: the key of the sort tells the rules apart, whatever
    their confidences. *)
Lemma emit_d_key_inj item_sup pair_sup (L2 : list pair) r1 r2 :
  Forall canonical_pair L2 →
  r1 ∈ L2 ≫= emit_d item_sup pair_sup →
  r2 ∈ L2 ≫= emit_d item_sup pair_sup →
  cmp_on key_d cmp_key_d r1 r2 = Eq → r1 = r2.
Proof.
  rewrite Forall_forall. intros Hcan.
  intros ([a b] & Hr1 & Hab)%list_elem_of_bind
         ([a' b'] & Hr2 & Hab')%list_elem_of_bind [Hl Hx]%key_d_same.
  pose proof (Hcan _ Hab) as Hlt. pose proof (Hcan _ Hab') as Hlt'.
  unfold canonical_pair in Hlt, Hlt'. unfold emit_d in Hr1, Hr2.
  simpl in *.
  apply elem_of_cons in Hr1 as [->|Hr1%list_elem_of_singleton];
    apply elem_of_cons in Hr2 as [->|Hr2%list_elem_of_singleton];
    subst; simpl in *; subst; try done;
    by destruct (item_lt_asym _ _ Hlt Hlt').
Qed.

Lemma emit_e_key_inj pair_sup triple_sup (L3 : list triple) r1 r2 :
  Forall canonical_triple L3 →
  r1 ∈ L3 ≫= emit_e pair_sup triple_sup →
  r2 ∈ L3 ≫= emit_e pair_sup triple_sup →
  cmp_on key_e cmp_key_e r1 r2 = Eq → r1 = r2.
Proof.
  rewrite Forall_forall. intros Hcan.
  intros ([[x y] z] & Hr1 & Hxyz)%list_elem_of_bind
         ([[x' y'] z'] & Hr2 & Hxyz')%list_elem_of_bind [Hl Hx]%key_e_same.
  destruct (Hcan _ Hxyz) as [Hxy Hyz]. destruct (Hcan _ Hxyz') as [Hxy' Hyz'].
  simpl in *.
  assert (item_lt x z) as Hxz by (by transitivity y).
  assert (item_lt x' z') as Hxz' by (by transitivity y').
  unfold emit_e in Hr1, Hr2.
  apply elem_of_cons in Hr1 as [->|Hr1];
    [|apply elem_of_cons in Hr1 as [->|Hr1%list_elem_of_singleton]];
    (apply elem_of_cons in Hr2 as [->|Hr2];
     [|apply elem_of_cons in Hr2 as [->|Hr2%list_elem_of_singleton]]);
    subst; simpl in *; simplify_eq; try done;
    solve [ by destruct (item_lt_asym _ _ Hyz Hyz')
          | by destruct (item_lt_asym _ _ Hxy Hxy')
          | by destruct (item_lt_asym _ _ Hxz Hxy')
          | by destruct (item_lt_asym _ _ Hxy Hxz')
          | by destruct (item_lt_asym _ _ Hxz Hyz')
          | by destruct (item_lt_asym _ _ Hyz Hxz')
          | by destruct (item_lt_asym _ _ Hxy Hyz')
          | by destruct (item_lt_asym _ _ Hyz Hxy') ].
Qed.

(** ** The cut after the sort *)

Lemma slice_to_nonneg {A} (k : Z) (l : list A) :
  (0 ≤ k)%Z → slice_to k l = take (Z.to_nat k) l.
Proof. intros Hk. unfold slice_to. rewrite decide_False; [done|lia]. Qed.

Lemma slice_to_nil {A} (k : Z) : slice_to k (@nil A) = [].
Proof. unfold slice_to. case_decide; apply take_nil. Qed.

Lemma StronglySorted_mono {A} (R1 R2 : relation A) (l : list A) :
  (∀ x y, R1 x y → R2 x y) → StronglySorted R1 l → StronglySorted R2 l.
Proof.
  intros HR. induction 1 as [|x l Hs IH Hall]; constructor; [done|].
  eapply Forall_impl; [done|]. intros y. apply HR.
Qed.

(** What is kept is the head of the sorted list, what is dropped its
    tail. *)
Lemma top_of_sorted {A} (cmp : A → A → comparison) `{!Comparator cmp}
    (k : Z) (rules : list A) :
  (0 ≤ k)%Z →
  ∃ rest,
    rules ≡ₚ slice_to k (sorted cmp rules) ++ rest ∧
    length (slice_to k (sorted cmp rules)) = min (Z.to_nat k) (length rules) ∧
    StronglySorted (cmp_le cmp) (slice_to k (sorted cmp rules) ++ rest).
Proof.
  intros Hk. rewrite slice_to_nonneg by done.
  exists (drop (Z.to_nat k) (sorted cmp rules)).
  rewrite take_drop, length_take, (length_sorted cmp).
  split_and!; [by rewrite (sorted_perm cmp)|done|by apply sorted_Sorted].
Qed.

(** ** Keys of the support tables and members of the frequent sets *)

Section tables.
Variable cfg : config.
Implicit Types ts : list transaction.

Lemma apriori_L1_sorted ts item_sup L1 :
  run (apriori_L1 cfg ts) = (item_sup, L1) → StronglySorted item_lt L1.
Proof.
  intros (_ & _ & ->)%apriori_L1_spec.
  apply sorted_items_strict, NoDup_frequent.
Qed.

Lemma apriori_L1_member ts item_sup L1 x :
  run (apriori_L1 cfg ts) = (item_sup, L1) →
  x ∈ L1 ↔ ∃ c, item_sup !! x = Some c ∧ (MIN_SUPPORT cfg ≤ c)%Z.
Proof.
  intros (_ & _ & ->)%apriori_L1_spec.
  by rewrite (elem_of_sorted String.compare), elem_of_frequent.
Qed.

Lemma item_sup_key ts item_sup L1 x c :
  run (apriori_L1 cfg ts) = (item_sup, L1) →
  item_sup !! x = Some c ↔ c = support {[x]} ts ∧ (0 < c)%Z.
Proof.
  intros (Hpos & Hget & _)%apriori_L1_spec.
  rewrite (lookup_getitem _ _ _ Hpos), Hget. split; intros [? ?]; by split.
Qed.

Lemma C2_of_canonical L1 a b :
  StronglySorted item_lt L1 → (a, b) ∈ C2_of L1 → item_lt a b.
Proof.
  intros Hs. unfold C2_of. rewrite elem_of_list_to_set.
  by apply combinations2_ordered.
Qed.

Lemma pair_sup_key ts L1 pair_sup L2 a b c :
  run (apriori_L2 cfg ts L1) = (pair_sup, L2) →
  pair_sup !! (a, b) = Some c ↔
    ((a, b) ∈ C2_of L1 ∧ item_lt a b) ∧ c = support {[a; b]} ts ∧ (0 < c)%Z.
Proof.
  intros (Hpos & Hget & _)%apriori_L2_spec.
  rewrite (lookup_getitem _ _ _ Hpos), Hget.
  case_decide as Hd; split.
  - intros [<- ?]. by split.
  - intros (_ & -> & ?). by split.
  - intros [<- ?]. lia.
  - by intros [? _].
Qed.

Lemma apriori_L2_member ts L1 pair_sup L2 p :
  run (apriori_L2 cfg ts L1) = (pair_sup, L2) →
  p ∈ L2 ↔ ∃ c, pair_sup !! p = Some c ∧ (MIN_SUPPORT cfg ≤ c)%Z.
Proof.
  intros (_ & _ & ->)%apriori_L2_spec.
  by rewrite elem_of_list_to_set, elem_of_frequent.
Qed.

Lemma triple_sup_key ts C3 triple_sup L3 x y z c :
  run (apriori_L3 cfg ts C3) = (triple_sup, L3) →
  triple_sup !! (x, y, z) = Some c ↔
    ((x, y, z) ∈ C3 ∧ item_lt x y ∧ item_lt y z) ∧
    c = support {[x; y; z]} ts ∧ (0 < c)%Z.
Proof.
  intros (Hpos & Hget & _)%apriori_L3_spec.
  rewrite (lookup_getitem _ _ _ Hpos), Hget.
  case_decide as Hd; split.
  - intros [<- ?]. by split.
  - intros (_ & -> & ?). by split.
  - intros [<- ?]. lia.
  - by intros [? _].
Qed.

Lemma apriori_L3_member ts C3 triple_sup L3 t :
  run (apriori_L3 cfg ts C3) = (triple_sup, L3) →
  t ∈ L3 ↔ ∃ c, triple_sup !! t = Some c ∧ (MIN_SUPPORT cfg ≤ c)%Z.
Proof.
  intros (_ & _ & ->)%apriori_L3_spec.
  by rewrite elem_of_list_to_set, elem_of_frequent.
Qed.

(** The scan of level 3 reads every transaction unless there is no
    candidate. *)
Lemma apriori_L3_visited ts C3 :
  visited (apriori_L3 cfg ts C3) = if decide (C3 = ∅) then 0 else length ts.
Proof.
  unfold visited, apriori_L3. case_decide; [done|].
  unfold mbind, scan_bind. by rewrite for_transactions_spec.
Qed.

(** Through the levels: the counts that the divisions use. *)
Section chained.
Variables (ts : list transaction).
Variables (item_sup : gmap item Z) (L1 : list item).
Variables (pair_sup : gmap pair Z) (L2 : gset pair).
Variables (triple_sup : gmap triple Z) (L3 : gset triple).
Hypothesis run_L1 : run (apriori_L1 cfg ts) = (item_sup, L1).
Hypothesis run_L2 : run (apriori_L2 cfg ts L1) = (pair_sup, L2).
Hypothesis run_L3 :
  run (apriori_L3 cfg ts (apriori_C3_from_L2 L2)) = (triple_sup, L3).

Lemma frequent_pair_items a b :
  (a, b) ∈ L2 →
  ∃ ca cb, item_sup !! a = Some ca ∧ item_sup !! b = Some cb ∧
           (MIN_SUPPORT cfg ≤ ca)%Z ∧ (MIN_SUPPORT cfg ≤ cb)%Z ∧
           (0 < ca)%Z ∧ (0 < cb)%Z.
Proof.
  intros (c & Hc & _)%(apriori_L2_member _ _ _ _ _ run_L2).
  apply (pair_sup_key _ _ _ _ _ _ _ run_L2) in Hc as [[HC2 _] _].
  apply elem_of_C2_of in HC2 as [Ha Hb].
  apply (apriori_L1_member _ _ _ _ run_L1) in Ha as (ca & Ha & Hca).
  apply (apriori_L1_member _ _ _ _ run_L1) in Hb as (cb & Hb & Hcb).
  exists ca, cb. split_and!; try done.
  - by apply (item_sup_key _ _ _ _ _ run_L1) in Ha as [_ ?].
  - by apply (item_sup_key _ _ _ _ _ run_L1) in Hb as [_ ?].
Qed.

Lemma frequent_pair_canonical a b : (a, b) ∈ L2 → item_lt a b.
Proof.
  intros (c & Hc & _)%(apriori_L2_member _ _ _ _ _ run_L2).
  by apply (pair_sup_key _ _ _ _ _ _ _ run_L2) in Hc as [[_ ?] _].
Qed.

Lemma frequent_pair_count a b :
  (a, b) ∈ L2 →
  ∃ c, pair_sup !! (a, b) = Some c ∧ (MIN_SUPPORT cfg ≤ c)%Z ∧ (0 < c)%Z.
Proof.
  intros (c & Hc & Hmin)%(apriori_L2_member _ _ _ _ _ run_L2).
  exists c. split_and!; [done..|].
  by apply (pair_sup_key _ _ _ _ _ _ _ run_L2) in Hc as (_ & _ & ?).
Qed.

Lemma frequent_triple_pairs x y z :
  (x, y, z) ∈ L3 → (x, y) ∈ L2 ∧ (x, z) ∈ L2 ∧ (y, z) ∈ L2.
Proof.
  intros (c & Hc & _)%(apriori_L3_member _ _ _ _ _ run_L3).
  apply (triple_sup_key _ _ _ _ _ _ _ _ run_L3) in Hc as [[HC3 _] _].
  by apply elem_of_apriori_C3_from_L2.
Qed.

(** The divisions of the pipeline are of a part by the whole: the count
    of an itemset by the count of one of its subsets. *)
Lemma pairs_ok (order : list pair) :
  (∀ p, p ∈ order → p ∈ L2) → Forall (pair_ok item_sup pair_sup) order.
Proof.
  intros Hin. apply Forall_forall. intros [a b] Hab%Hin.
  destruct (frequent_pair_items a b Hab)
    as (ca & cb & Ha & Hb & _ & _ & Hca & Hcb).
  destruct (frequent_pair_count a b Hab) as (c & Hc & _ & Hpos).
  pose proof (proj1 (item_sup_key _ _ _ _ _ run_L1) Ha) as [Eca _].
  pose proof (proj1 (item_sup_key _ _ _ _ _ run_L1) Hb) as [Ecb _].
  pose proof (proj1 (pair_sup_key _ _ _ _ _ _ _ run_L2) Hc) as (_ & Ec & _).
  pose proof (support_anti_monotone _ _ ts (singleton_in_pair_l a b)).
  pose proof (support_anti_monotone _ _ ts (singleton_in_pair_r a b)).
  unfold pair_ok, pair_error, getitem. simpl. rewrite Ha, Hb, Hc. simpl.
  rewrite !div_error_unit; [done|lia..].
Qed.

Lemma triples_ok (order : list triple) :
  (∀ t, t ∈ order → t ∈ L3) → Forall (triple_ok pair_sup triple_sup) order.
Proof.
  intros Hin. apply Forall_forall. intros [[x y] z] Hxyz%Hin.
  destruct (frequent_triple_pairs x y z Hxyz) as (Hxy & Hxz & Hyz).
  apply frequent_pair_count in Hxy as (c1 & E1 & _ & ?).
  apply frequent_pair_count in Hxz as (c2 & E2 & _ & ?).
  apply frequent_pair_count in Hyz as (c3 & E3 & _ & ?).
  pose proof (proj1 (apriori_L3_member _ _ _ _ (x, y, z) run_L3) Hxyz)
    as (c & Ec & _).
  pose proof (proj1 (triple_sup_key _ _ _ _ _ _ _ _ run_L3) Ec)
    as (_ & Hc & Hpos).
  pose proof (proj1 (pair_sup_key _ _ _ _ _ _ _ run_L2) E1) as (_ & Hc1 & _).
  pose proof (proj1 (pair_sup_key _ _ _ _ _ _ _ run_L2) E2) as (_ & Hc2 & _).
  pose proof (proj1 (pair_sup_key _ _ _ _ _ _ _ run_L2) E3) as (_ & Hc3 & _).
  pose proof (support_anti_monotone _ _ ts (pair_in_triple_xy x y z)).
  pose proof (support_anti_monotone _ _ ts (pair_in_triple_xz x y z)).
  pose proof (support_anti_monotone _ _ ts (pair_in_triple_yz x y z)).
  unfold triple_ok, triple_error, getitem. rewrite E1, E2, E3, Ec. simpl.
  rewrite !div_error_unit; [done|lia..].
Qed.
End chained.

(** The counter only records the visits; the results do not read it. *)
Lemma apriori_L1_counter ts n :
  apriori_L1 cfg ts n = (run (apriori_L1 cfg ts), n + length ts).
Proof.
  unfold run, apriori_L1, mbind, scan_bind.
  by rewrite !for_transactions_spec.
Qed.

Lemma apriori_L2_counter ts L1 n :
  apriori_L2 cfg ts L1 n = (run (apriori_L2 cfg ts L1), n + length ts).
Proof.
  unfold run, apriori_L2, mbind, scan_bind.
  by rewrite !for_transactions_spec.
Qed.

Lemma apriori_L3_counter ts C3 n :
  apriori_L3 cfg ts C3 n =
    (run (apriori_L3 cfg ts C3), n + visited (apriori_L3 cfg ts C3)).
Proof.
  unfold run, visited, apriori_L3. case_decide.
  - unfold mret, scan_ret. simpl. f_equal. lia.
  - unfold mbind, scan_bind. by rewrite !for_transactions_spec.
Qed.

(** [main] splits into its four stages. *)
Lemma main_stages ts :
  ∃ item_sup L1 pair_sup L2 triple_sup L3,
    run (apriori_L1 cfg ts) = (item_sup, L1) ∧
    run (apriori_L2 cfg ts L1) = (pair_sup, L2) ∧
    run (apriori_L3 cfg ts (apriori_C3_from_L2 L2)) = (triple_sup, L3) ∧
    run (main cfg ts) =
      (d_rules ← top5_part_d cfg item_sup pair_sup (elements L2);
       e_rules ← top5_part_e cfg pair_sup triple_sup (elements L3);
       mret (d_rules, e_rules)).
Proof.
  destruct (run (apriori_L1 cfg ts)) as [item_sup L1] eqn:E1.
  destruct (run (apriori_L2 cfg ts L1)) as [pair_sup L2] eqn:E2.
  destruct (run (apriori_L3 cfg ts (apriori_C3_from_L2 L2)))
    as [triple_sup L3] eqn:E3.
  exists item_sup, L1, pair_sup, L2, triple_sup, L3. split_and!; try done.
  unfold run at 1, main, mbind at 1 2 3, scan_bind.
  rewrite apriori_L1_counter, E1, apriori_L2_counter, E2.
  by rewrite apriori_L3_counter, E3.
Qed.

Lemma top5_part_d_ok item_sup pair_sup (order : list pair) :
  Forall (pair_ok item_sup pair_sup) order →
  ∃ rules, top5_part_d cfg item_sup pair_sup order = Ok rules.
Proof.
  intros Hok. apply (first_error_None (pair_error item_sup pair_sup)) in Hok.
  unfold top5_part_d. rewrite rules_part_d_spec, Hok. by eexists.
Qed.

Lemma top5_part_e_ok pair_sup triple_sup (order : list triple) :
  Forall (triple_ok pair_sup triple_sup) order →
  ∃ rules, top5_part_e cfg pair_sup triple_sup order = Ok rules.
Proof.
  intros Hok.
  apply (first_error_None (triple_error pair_sup triple_sup)) in Hok.
  unfold top5_part_e. rewrite rules_part_e_spec, Hok. by eexists.
Qed.

End tables.

(** ** The pipeline on small inputs *)

Example scenario_frequent_items : scenario_L1.2 = ["A"; "B"; "C"].
Proof. vm_compute. reflexivity. Qed.

Example scenario_pair_supports :
  (λ p, scenario_L2.1 !! p) <$> [("A", "B"); ("A", "C"); ("B", "C")]
  = [Some 3%Z; Some 3%Z; Some 3%Z].
Proof. vm_compute. reflexivity. Qed.

Example scenario_frequent_pairs :
  sorted (cmp_pair String.compare String.compare) (elements scenario_L2.2)
  = [("A", "B"); ("A", "C"); ("B", "C")].
Proof. vm_compute. reflexivity. Qed.

Example scenario_triple :
  elements scenario_L3.2 = [("A", "B", "C")] ∧
  scenario_L3.1 !! ("A", "B", "C") = Some 2%Z.
Proof. split; vm_compute; reflexivity. Qed.

Example scenario_rules :
  run (main cfg2 scenario) =
    Ok ([ ((3 # 4)%Q, "A", "B", 3%Z); ((3 # 4)%Q, "A", "C", 3%Z);
          ((3 # 4)%Q, "B", "A", 3%Z); ((3 # 4)%Q, "B", "C", 3%Z);
          ((3 # 4)%Q, "C", "A", 3%Z) ],
        [ (quotient 2 3, ("A", "B"), "C", 2%Z);
          (quotient 2 3, ("A", "C"), "B", 2%Z);
          (quotient 2 3, ("B", "C"), "A", 2%Z) ]).
Proof. vm_compute. reflexivity. Qed.

(** The module's own configuration, on 250 transactions. *)
Example module_config_rules :
  run (main module_config (mjoin (replicate 50 scenario))) =
    Ok ([ ((3 # 4)%Q, "A", "B", 150%Z); ((3 # 4)%Q, "A", "C", 150%Z);
          ((3 # 4)%Q, "B", "A", 150%Z); ((3 # 4)%Q, "B", "C", 150%Z);
          ((3 # 4)%Q, "C", "A", 150%Z) ],
        [ (quotient 2 3, ("A", "B"), "C", 100%Z);
          (quotient 2 3, ("A", "C"), "B", 100%Z);
          (quotient 2 3, ("B", "C"), "A", 100%Z) ]) ∧
  visited (main module_config (mjoin (replicate 50 scenario))) = 750.
Proof. split; vm_compute; reflexivity. Qed.

(** A candidate pair that no transaction contains gets no entry. *)
Example unseen_candidate_has_no_entry :
  ("A", "B") ∈ C2_of ["A"; "B"] ∧
  (run (apriori_L2 cfg2 [ {["A"]}; {["A"]}; {["B"]}; {["B"]} ] ["A"; "B"])).1
    !! ("A", "B") = None.
Proof. split; vm_compute; reflexivity. Qed.

(** [apriori_L2] counts a pair in ascending order only: it relies on the
    ascending [L1] that [apriori_L1] returns. *)
Example descending_candidate_is_not_counted :
  ("B", "A") ∈ C2_of ["B"; "A"] ∧
  (run (apriori_L2 cfg2 [ {["A"; "B"]}; {["A"; "B"]} ] ["B"; "A"])).1
    !! ("B", "A") = None.
Proof. split; vm_compute; reflexivity. Qed.

(** ** The division and the rule generators on small tables *)

(** The model of [n / d] agrees with the library's IEEE 754 division. *)
Example truediv_is_binary64_division :
  (λ nd, truediv_value nd.1 nd.2) <$> division_samples
  = (λ nd, SFdiv_ints nd.1 nd.2) <$> division_samples.
Proof. vm_compute. reflexivity. Qed.

(** And with the division of the machine's doubles. *)
Example truediv_is_hardware_division :
  (λ nd, truediv_value nd.1 nd.2) <$> hardware_samples
  = (λ nd, hardware_div nd.1 nd.2) <$> hardware_samples.
Proof. vm_compute. reflexivity. Qed.

(** Some values: an inexact quotient, an exact one, the two exceptions
    (a zero divisor is checked first), and [2^53 + 1], which is no
    double. *)
Example truediv_values :
  (λ nd, truediv nd.1 nd.2)
    <$> [ (1, 3); (2, 3); (3, 4); (0, -5); (1, 0); (0, 0); (10 ^ 400, 1);
          (10 ^ 400, 0); (2 ^ 53 + 1, 1) ]%Z
  = [ Ok (6004799503160661 # 18014398509481984)%Q;
      Ok (6004799503160661 # 9007199254740992)%Q;
      Ok (3 # 4)%Q; Ok 0%Q;
      Raise ZeroDivisionError; Raise ZeroDivisionError;
      Raise OverflowError; Raise ZeroDivisionError;
      Ok (inject_Z (2 ^ 53)) ].
Proof. vm_compute. reflexivity. Qed.

(** Two exact confidences that differ and are one double: the rule with
    the smaller exact confidence is ranked first, by its names, whatever
    the order of [L2]. *)
Example rounded_confidences_tie :
  (ratio 100000000 200000001 < ratio 100000001 200000003)%Q ∧
  quotient 100000000 200000001 = quotient 100000001 200000003 ∧
  top5_part_d top1 close_item_sup close_pair_sup [("a", "b"); ("c", "d")]
  = Ok [ (quotient 100000000 200000001, "a", "b", 100000000%Z) ] ∧
  top5_part_d top1 close_item_sup close_pair_sup [("c", "d"); ("a", "b")]
  = Ok [ (quotient 100000000 200000001, "a", "b", 100000000%Z) ].
Proof. split_and!; vm_compute; reflexivity. Qed.

(** Outside canonical form two entries of [L2] can give rules with one
    sort key, and the stable sort keeps them in the order of [L2]. *)
Example pair_order_shows_outside_canonical_form :
  top5_part_d module_config tie_item_sup tie_pair_sup [("a", "b"); ("b", "a")]
  = Ok [ (inject_Z (2 ^ 53), "a", "b", 2 ^ 53); (inject_Z (2 ^ 53), "a", "b", 2 ^ 53 + 1);
         (inject_Z (2 ^ 53), "b", "a", 2 ^ 53); (inject_Z (2 ^ 53), "b", "a", 2 ^ 53 + 1) ]%Z ∧
  top5_part_d module_config tie_item_sup tie_pair_sup [("b", "a"); ("a", "b")]
  = Ok [ (inject_Z (2 ^ 53), "a", "b", 2 ^ 53 + 1); (inject_Z (2 ^ 53), "a", "b", 2 ^ 53);
         (inject_Z (2 ^ 53), "b", "a", 2 ^ 53 + 1); (inject_Z (2 ^ 53), "b", "a", 2 ^ 53) ]%Z.
Proof. split; vm_compute; reflexivity. Qed.

(** The same for two triples that share their pairs. *)
Example triple_order_shows_outside_canonical_form :
  top5_part_e module_config unit_pair_sup tie_triple_sup
    [("a", "b", "c"); ("a", "c", "b")]
  = Ok [ (inject_Z (2 ^ 53), ("a", "b"), "c", 2 ^ 53);
         (inject_Z (2 ^ 53), ("a", "b"), "c", 2 ^ 53 + 1);
         (inject_Z (2 ^ 53), ("a", "c"), "b", 2 ^ 53);
         (inject_Z (2 ^ 53), ("a", "c"), "b", 2 ^ 53 + 1);
         (inject_Z (2 ^ 53), ("b", "c"), "a", 2 ^ 53) ]%Z ∧
  top5_part_e module_config unit_pair_sup tie_triple_sup
    [("a", "c", "b"); ("a", "b", "c")]
  = Ok [ (inject_Z (2 ^ 53), ("a", "b"), "c", 2 ^ 53 + 1);
         (inject_Z (2 ^ 53), ("a", "b"), "c", 2 ^ 53);
         (inject_Z (2 ^ 53), ("a", "c"), "b", 2 ^ 53 + 1);
         (inject_Z (2 ^ 53), ("a", "c"), "b", 2 ^ 53);
         (inject_Z (2 ^ 53), ("b", "c"), "a", 2 ^ 53) ]%Z.
Proof. split; vm_compute; reflexivity. Qed.

(** A count beyond the range of a double: the first division raises
    before the missing key is reached. *)
Example huge_count_overflows :
  top5_part_d cfg2 one_item_sup huge_pair_sup [("A", "B"); ("A", "Z")]
  = Raise OverflowError ∧
  top5_part_d cfg2 one_item_sup huge_pair_sup [("A", "Z"); ("A", "B")]
  = Raise ZeroDivisionError.
Proof. split; vm_compute; reflexivity. Qed.

(** * The claims *)

(** C1 — support consistency.  The count stored for an item, for a pair
    or for a triple is the number of transactions of the input that
    contain it, as a direct scan recomputes it; an item that was never
    seen reads as 0.  The pair table is the one [apriori_L2] returns for
    any list [L1'], the triple table the one [apriori_L3] returns for any
    candidate set [C3]. *)
Theorem support_consistency cfg ts L1' C3 item_sup L1 pair_sup L2 triple_sup L3 :
  run (apriori_L1 cfg ts) = (item_sup, L1) →
  run (apriori_L2 cfg ts L1') = (pair_sup, L2) →
  run (apriori_L3 cfg ts C3) = (triple_sup, L3) →
  (∀ x, getitem item_sup x = support {[x]} ts) ∧
  (∀ x c, item_sup !! x = Some c → c = support {[x]} ts) ∧
  (∀ a b c, pair_sup !! (a, b) = Some c → c = support {[a; b]} ts) ∧
  (∀ x y z c, triple_sup !! (x, y, z) = Some c → c = support {[x; y; z]} ts).
Proof.
  intros E1 E2 E3. split_and!.
  - by apply apriori_L1_spec in E1 as (_ & ? & _).
  - intros x c Hc. by apply (item_sup_key _ _ _ _ _ _ E1) in Hc as [? _].
  - intros a b c Hc. by apply (pair_sup_key _ _ _ _ _ _ _ _ E2) in Hc as (_ & ? & _).
  - intros x y z c Hc.
    by apply (triple_sup_key _ _ _ _ _ _ _ _ _ E3) in Hc as (_ & ? & _).
Qed.

Lemma support_consistency_witness :
  getitem (run (apriori_L1 cfg2 scenario)).1 "A" = support {["A"]} scenario ∧
  (run (apriori_L1 cfg2 scenario)).1 !! "B" = Some 4%Z ∧
  4%Z = support {["B"]} scenario ∧
  (run (apriori_L2 cfg2 scenario ["A"; "B"; "C"])).1 !! ("A", "B") = Some 3%Z ∧
  3%Z = support {["A"; "B"]} scenario ∧
  (run (apriori_L3 cfg2 scenario {[("A", "B", "C")]})).1 !! ("A", "B", "C")
    = Some 2%Z ∧
  2%Z = support {["A"; "B"; "C"]} scenario.
Proof.
  destruct (support_consistency cfg2 scenario ["A"; "B"; "C"]
              {[("A", "B", "C")]}
              (run (apriori_L1 cfg2 scenario)).1
              (run (apriori_L1 cfg2 scenario)).2
              (run (apriori_L2 cfg2 scenario ["A"; "B"; "C"])).1
              (run (apriori_L2 cfg2 scenario ["A"; "B"; "C"])).2
              (run (apriori_L3 cfg2 scenario {[("A", "B", "C")]})).1
              (run (apriori_L3 cfg2 scenario {[("A", "B", "C")]})).2)
    as (H1 & H2 & H3 & H4); [apply surjective_pairing..|].
  assert ((run (apriori_L1 cfg2 scenario)).1 !! "B" = Some 4%Z) as E1
    by (vm_compute; reflexivity).
  assert ((run (apriori_L2 cfg2 scenario ["A"; "B"; "C"])).1 !! ("A", "B")
          = Some 3%Z) as E2 by (vm_compute; reflexivity).
  assert ((run (apriori_L3 cfg2 scenario {[("A", "B", "C")]})).1
            !! ("A", "B", "C") = Some 2%Z) as E3 by (vm_compute; reflexivity).
  split_and!; [apply H1|exact E1|exact (H2 _ _ E1)|exact E2|exact (H3 _ _ _ E2)
              |exact E3|exact (H4 _ _ _ _ E3)].
Defined.


(** C4 — anti-monotonicity.  Both items of a pair of [L2] are in the list
    [L1] that [apriori_L2] was given; the three pairs inside a candidate
    triple that [apriori_C3_from_L2] builds from a set of pairs are in that
    set, and so are the three pairs inside a triple of the [L3] that
    [apriori_L3] returns for these candidates. *)
Theorem anti_monotonicity cfg ts L1 pair_sup L2 ts' L2' triple_sup L3 :
  run (apriori_L2 cfg ts L1) = (pair_sup, L2) →
  run (apriori_L3 cfg ts' (apriori_C3_from_L2 L2')) = (triple_sup, L3) →
  (∀ a b, (a, b) ∈ L2 → a ∈ L1 ∧ b ∈ L1) ∧
  (∀ x y z, (x, y, z) ∈ apriori_C3_from_L2 L2' →
     (x, y) ∈ L2' ∧ (x, z) ∈ L2' ∧ (y, z) ∈ L2') ∧
  (∀ x y z, (x, y, z) ∈ L3 → (x, y) ∈ L2' ∧ (x, z) ∈ L2' ∧ (y, z) ∈ L2').
Proof.
  intros E2 E3. split_and!.
  - intros a b (c & Hc & _)%(apriori_L2_member _ _ _ _ _ _ E2).
    apply (pair_sup_key _ _ _ _ _ _ _ _ E2) in Hc as [[HC2 _] _].
    by apply elem_of_C2_of.
  - apply elem_of_apriori_C3_from_L2.
  - by apply (frequent_triple_pairs cfg ts' L2' triple_sup L3).
Qed.

Lemma anti_monotonicity_witness :
  ("A", "B") ∈ scenario_L2.2 ∧ ("A" ∈ scenario_L1.2 ∧ "B" ∈ scenario_L1.2) ∧
  ("A", "B", "C") ∈ scenario_L3.2 ∧
  (("A", "B") ∈ scenario_L2.2 ∧ ("A", "C") ∈ scenario_L2.2 ∧
   ("B", "C") ∈ scenario_L2.2).
Proof.
  destruct (anti_monotonicity cfg2 scenario scenario_L1.2
              scenario_L2.1 scenario_L2.2 scenario scenario_L2.2
              scenario_L3.1 scenario_L3.2)
    as (H1 & _ & H3); [apply surjective_pairing..|].
  assert (("A", "B") ∈ scenario_L2.2) as E2 by (vm_compute; reflexivity).
  assert (("A", "B", "C") ∈ scenario_L3.2) as E3 by (vm_compute; reflexivity).
  exact (conj E2 (conj (H1 _ _ E2) (conj E3 (H3 _ _ _ E3)))).
Defined.

(** C5 — canonical form.  Along the pipeline every pair that is a
    candidate, a key of the pair table or a frequent pair has its items in
    strictly ascending order, and so has every triple that is a candidate,
    a key of the triple table or a frequent triple; ascending items are
    distinct items. *)
Theorem canonical_form cfg ts item_sup L1 pair_sup L2 triple_sup L3 :
  run (apriori_L1 cfg ts) = (item_sup, L1) →
  run (apriori_L2 cfg ts L1) = (pair_sup, L2) →
  run (apriori_L3 cfg ts (apriori_C3_from_L2 L2)) = (triple_sup, L3) →
  (∀ a b, (a, b) ∈ C2_of L1 → item_lt a b) ∧
  (∀ a b c, pair_sup !! (a, b) = Some c → item_lt a b) ∧
  (∀ a b, (a, b) ∈ L2 → item_lt a b) ∧
  (∀ x y z, (x, y, z) ∈ apriori_C3_from_L2 L2 → item_lt x y ∧ item_lt y z) ∧
  (∀ x y z c, triple_sup !! (x, y, z) = Some c → item_lt x y ∧ item_lt y z) ∧
  (∀ x y z, (x, y, z) ∈ L3 → item_lt x y ∧ item_lt y z) ∧
  (∀ a b, item_lt a b → a ≠ b).
Proof.
  intros E1 E2 E3.
  assert (∀ a b, (a, b) ∈ L2 → item_lt a b) as HL2.
  { apply (frequent_pair_canonical cfg ts L1 pair_sup L2 E2). }
  assert (∀ x y z c, triple_sup !! (x, y, z) = Some c →
            item_lt x y ∧ item_lt y z) as Hkey.
  { intros x y z c Hc.
    by apply (triple_sup_key _ _ _ _ _ _ _ _ _ E3) in Hc as [(_ & ? & ?) _]. }
  split_and!; [|by intros a b c [[_ ?] _]%(pair_sup_key _ _ _ _ _ _ _ _ E2)
               |done| |done| |apply string_lt_neq].
  - intros a b. apply C2_of_canonical. by eapply apriori_L1_sorted.
  - intros x y z (Hxy & _ & Hyz)%elem_of_apriori_C3_from_L2. auto.
  - intros x y z (c & Hc & _)%(apriori_L3_member _ _ _ _ _ _ E3). eauto.
Qed.

Lemma canonical_form_witness :
  ("A", "B") ∈ C2_of scenario_L1.2 ∧ item_lt "A" "B" ∧
  ("B", "C") ∈ scenario_L2.2 ∧ item_lt "B" "C" ∧
  ("A", "B", "C") ∈ scenario_L3.2 ∧ (item_lt "A" "B" ∧ item_lt "B" "C").
Proof.
  destruct (canonical_form cfg2 scenario scenario_L1.1 scenario_L1.2
              scenario_L2.1 scenario_L2.2 scenario_L3.1 scenario_L3.2)
    as (H1 & _ & H3 & _ & _ & H6 & _); [apply surjective_pairing..|].
  assert (("A", "B") ∈ C2_of scenario_L1.2) as E1 by (vm_compute; reflexivity).
  assert (("B", "C") ∈ scenario_L2.2) as E2 by (vm_compute; reflexivity).
  assert (("A", "B", "C") ∈ scenario_L3.2) as E3 by (vm_compute; reflexivity).
  exact (conj E1 (conj (H1 _ _ E1) (conj E2 (conj (H3 _ _ E2)
           (conj E3 (H6 _ _ _ E3)))))).
Defined.

(** C6 — the threshold of level 1.  With a positive [MIN_SUPPORT], as the
    module has it, [L1] is in strictly ascending item order and holds
    exactly the items whose support is at least [MIN_SUPPORT]: support
    equal to [MIN_SUPPORT] is in, support [MIN_SUPPORT - 1] is out. *)
Theorem L1_threshold cfg ts item_sup L1 :
  (0 < MIN_SUPPORT cfg)%Z →
  run (apriori_L1 cfg ts) = (item_sup, L1) →
  StronglySorted item_lt L1 ∧
  (∀ x, x ∈ L1 ↔ (MIN_SUPPORT cfg ≤ support {[x]} ts)%Z) ∧
  (∀ x, support {[x]} ts = MIN_SUPPORT cfg → x ∈ L1) ∧
  (∀ x, support {[x]} ts = (MIN_SUPPORT cfg - 1)%Z → ¬ (x ∈ L1)).
Proof.
  intros Hmin E1.
  assert (∀ x, x ∈ L1 ↔ (MIN_SUPPORT cfg ≤ support {[x]} ts)%Z) as Hiff.
  { intros x. rewrite (apriori_L1_member _ _ _ _ _ E1). split.
    - intros (c & Hc & Hle).
      apply (item_sup_key _ _ _ _ _ _ E1) in Hc as [<- _]. done.
    - intros Hle. exists (support {[x]} ts). split; [|done].
      apply (item_sup_key _ _ _ _ _ _ E1). split; [done|lia]. }
  split_and!; [by eapply apriori_L1_sorted|done| |].
  - intros x Hx. apply Hiff. lia.
  - intros x Hx. rewrite Hiff. lia.
Qed.

Lemma L1_threshold_witness :
  support {["A"]} boundary = 100%Z ∧ "A" ∈ boundary_L1.2 ∧
  support {["B"]} boundary = 99%Z ∧ ¬ ("B" ∈ boundary_L1.2) ∧
  StronglySorted item_lt scenario_L1.2.
Proof.
  destruct (L1_threshold module_config boundary boundary_L1.1 boundary_L1.2)
    as (_ & _ & Hin & Hout); [done|apply surjective_pairing|].
  destruct (L1_threshold cfg2 scenario scenario_L1.1 scenario_L1.2)
    as (Hs & _); [done|apply surjective_pairing|].
  assert (support {["A"]} boundary = 100%Z) as EA by (vm_compute; reflexivity).
  assert (support {["B"]} boundary = 99%Z) as EB by (vm_compute; reflexivity).
  exact (conj EA (conj (Hin _ EA) (conj EB (conj (Hout _ EB) Hs)))).
Defined.

(** C10 — no entry for a candidate that no transaction contains.  For a
    list [L1] in ascending order, as [apriori_L1] returns it, a pair is a
    key of the pair table exactly when it is a candidate of [C2] and some
    transaction contains it; for candidates [C3] in canonical form, as
    [apriori_C3_from_L2] builds them from the pairs of [apriori_L2], a
    triple is a key of the triple table exactly when it is in [C3] and
    some transaction contains it; every stored count is at least one. *)
Theorem zero_support_absent cfg ts L1 C3 pair_sup L2 triple_sup L3 :
  StronglySorted item_lt L1 →
  (∀ x y z, (x, y, z) ∈ C3 → item_lt x y ∧ item_lt y z) →
  run (apriori_L2 cfg ts L1) = (pair_sup, L2) →
  run (apriori_L3 cfg ts C3) = (triple_sup, L3) →
  (∀ a b, is_Some (pair_sup !! (a, b)) ↔
     (a, b) ∈ C2_of L1 ∧ ∃ t, t ∈ ts ∧ {[a; b]} ⊆ t) ∧
  (∀ p c, pair_sup !! p = Some c → (1 ≤ c)%Z) ∧
  (∀ x y z, is_Some (triple_sup !! (x, y, z)) ↔
     (x, y, z) ∈ C3 ∧ ∃ t, t ∈ ts ∧ {[x; y; z]} ⊆ t) ∧
  (∀ t c, triple_sup !! t = Some c → (1 ≤ c)%Z).
Proof.
  intros HL1 HC3 E2 E3. split_and!.
  - intros a b. split.
    + intros [c Hc].
      apply (pair_sup_key _ _ _ _ _ _ _ _ E2) in Hc as ([HC2 _] & -> & Hpos).
      split; [done|]. by apply support_positive.
    + intros [HC2 Hex]. exists (support {[a; b]} ts).
      apply (pair_sup_key _ _ _ _ _ _ _ _ E2). split_and!; [done| |done|].
      * by eapply C2_of_canonical.
      * by apply support_positive.
  - intros p c Hc. apply apriori_L2_spec in E2 as (Hpos & _).
    apply Hpos in Hc. lia.
  - intros x y z. split.
    + intros [c Hc].
      apply (triple_sup_key _ _ _ _ _ _ _ _ _ E3) in Hc as ([HC _] & -> & Hpos).
      split; [done|]. by apply support_positive.
    + intros [HC Hex]. exists (support {[x; y; z]} ts).
      apply (triple_sup_key _ _ _ _ _ _ _ _ _ E3).
      destruct (HC3 _ _ _ HC) as [Hxy Hyz].
      split_and!; [done..|]. by apply support_positive.
  - intros t c Hc. apply apriori_L3_spec in E3 as (Hpos & _).
    apply Hpos in Hc. lia.
Qed.

(** The candidate sets of the pipeline are in that form. *)
Lemma pipeline_candidates_canonical cfg ts item_sup L1 pair_sup L2 :
  run (apriori_L1 cfg ts) = (item_sup, L1) →
  run (apriori_L2 cfg ts L1) = (pair_sup, L2) →
  StronglySorted item_lt L1 ∧
  (∀ x y z, (x, y, z) ∈ apriori_C3_from_L2 L2 → item_lt x y ∧ item_lt y z).
Proof.
  intros E1 E2. split; [by eapply apriori_L1_sorted|].
  intros x y z (Hxy & _ & Hyz)%elem_of_apriori_C3_from_L2.
  split; by apply (frequent_pair_canonical cfg ts L1 pair_sup L2 E2).
Qed.

Lemma zero_support_absent_witness :
  is_Some ((run (apriori_L2 cfg2 scenario ["A"; "B"; "C"])).1 !! ("A", "B")) ∧
  is_Some ((run (apriori_L3 cfg2 scenario {[("A", "B", "C")]})).1
             !! ("A", "B", "C")) ∧
  (run (apriori_L2 cfg2 scenario ["A"; "B"; "C"])).1 !! ("A", "C") = Some 3%Z ∧
  (1 ≤ 3)%Z.
Proof.
  destruct (zero_support_absent cfg2 scenario ["A"; "B"; "C"]
              {[("A", "B", "C")]}
              (run (apriori_L2 cfg2 scenario ["A"; "B"; "C"])).1
              (run (apriori_L2 cfg2 scenario ["A"; "B"; "C"])).2
              (run (apriori_L3 cfg2 scenario {[("A", "B", "C")]})).1
              (run (apriori_L3 cfg2 scenario {[("A", "B", "C")]})).2)
    as (H1 & H2 & H3 & _).
  - repeat constructor; vm_compute; reflexivity.
  - intros x y z [= -> -> ->]%elem_of_singleton.
    split; vm_compute; reflexivity.
  - apply surjective_pairing.
  - apply surjective_pairing.
  - assert ((run (apriori_L2 cfg2 scenario ["A"; "B"; "C"])).1 !! ("A", "C")
            = Some 3%Z) as E by (vm_compute; reflexivity).
    refine (conj _ (conj _ (conj E (H2 _ _ E)))).
    + apply H1. split; [vm_compute; reflexivity|].
      exists {["A"; "B"; "C"]}. split; [left|].
      apply pair_subseteq; vm_compute; reflexivity.
    + apply H3. split; [vm_compute; reflexivity|].
      exists {["A"; "B"; "C"]}. split; [left|].
      apply triple_subseteq; vm_compute; reflexivity.
Defined.

(** ** Ranking *)

Section ranking.
Variable cfg : config.

(** Canonical itemsets: the list that comes back does not depend on the
    order of the loop. *)
Lemma top5_part_d_perm item_sup pair_sup (l1 l2 : list pair) rules :
  Forall canonical_pair l1 → l1 ≡ₚ l2 →
  top5_part_d cfg item_sup pair_sup l1 = Ok rules →
  top5_part_d cfg item_sup pair_sup l2 = Ok rules.
Proof.
  intros Hcan Hp. unfold top5_part_d. rewrite !rules_part_d_spec.
  destruct (first_error _ l1) as [e|] eqn:E1; [done|].
  apply first_error_None in E1. rewrite Hp in E1.
  apply first_error_None in E1. rewrite E1. simpl.
  intros [= <-]. do 2 f_equal. symmetry.
  apply (sorted_unique (cmp_on key_d cmp_key_d)); [by rewrite Hp|].
  intros x y Hx Hy. by apply (emit_d_key_inj item_sup pair_sup l1).
Qed.

Lemma top5_part_e_perm pair_sup triple_sup (l1 l2 : list triple) rules :
  Forall canonical_triple l1 → l1 ≡ₚ l2 →
  top5_part_e cfg pair_sup triple_sup l1 = Ok rules →
  top5_part_e cfg pair_sup triple_sup l2 = Ok rules.
Proof.
  intros Hcan Hp. unfold top5_part_e. rewrite !rules_part_e_spec.
  destruct (first_error _ l1) as [e|] eqn:E1; [done|].
  apply first_error_None in E1. rewrite Hp in E1.
  apply first_error_None in E1. rewrite E1. simpl.
  intros [= <-]. do 2 f_equal. symmetry.
  apply (sorted_unique (cmp_on key_e cmp_key_e)); [by rewrite Hp|].
  intros x y Hx Hy. by apply (emit_e_key_inj pair_sup triple_sup l1).
Qed.

Lemma ranks_before_d_conf r r' :
  ranks_before_d r r' → (r'.1.1.1 <= r.1.1.1)%Q.
Proof.
  destruct r as [[[c1 l1] x1] s1], r' as [[[c2 l2] x2] s2]. simpl.
  intros [Hlt|[Heq _]]; [by apply Qlt_le_weak|].
  rewrite Heq. apply Qle_refl.
Qed.

Lemma ranks_before_e_conf r r' :
  ranks_before_e r r' → (r'.1.1.1 <= r.1.1.1)%Q.
Proof.
  destruct r as [[[c1 l1] x1] s1], r' as [[[c2 l2] x2] s2]. simpl.
  intros [Hlt|[Heq _]]; [by apply Qlt_le_weak|].
  rewrite Heq. apply Qle_refl.
Qed.

(** The list that comes back is the head of the ranking of what the loop
    built. *)
Lemma top5_part_d_top item_sup pair_sup (L2 : list pair) d_rules :
  (0 ≤ TOP_K cfg)%Z →
  top5_part_d cfg item_sup pair_sup L2 = Ok d_rules →
  ∃ emitted rest,
    rules_part_d item_sup pair_sup L2 = Ok emitted ∧
    emitted ≡ₚ d_rules ++ rest ∧
    length d_rules = min (Z.to_nat (TOP_K cfg)) (length emitted) ∧
    StronglySorted ranks_before_d (d_rules ++ rest) ∧
    (∀ r r', r ∈ d_rules → r' ∈ rest → (r'.1.1.1 <= r.1.1.1)%Q).
Proof.
  intros Hk. unfold top5_part_d.
  destruct (rules_part_d item_sup pair_sup L2) as [emitted|] eqn:E;
    simpl; [|done].
  intros [= <-].
  destruct (top_of_sorted (cmp_on key_d cmp_key_d) (TOP_K cfg) emitted Hk)
    as (rest & Hperm & Hlen & Hsorted).
  apply (StronglySorted_mono _ ranks_before_d) in Hsorted; [|apply key_d_le].
  exists emitted, rest. split_and!; try done.
  intros r r' Hr Hr'. apply ranks_before_d_conf.
  by eapply StronglySorted_app_1_elem_of.
Qed.

Lemma top5_part_e_top pair_sup triple_sup (L3 : list triple) e_rules :
  (0 ≤ TOP_K cfg)%Z →
  top5_part_e cfg pair_sup triple_sup L3 = Ok e_rules →
  ∃ emitted rest,
    rules_part_e pair_sup triple_sup L3 = Ok emitted ∧
    emitted ≡ₚ e_rules ++ rest ∧
    length e_rules = min (Z.to_nat (TOP_K cfg)) (length emitted) ∧
    StronglySorted ranks_before_e (e_rules ++ rest) ∧
    (∀ r r', r ∈ e_rules → r' ∈ rest → (r'.1.1.1 <= r.1.1.1)%Q).
Proof.
  intros Hk. unfold top5_part_e.
  destruct (rules_part_e pair_sup triple_sup L3) as [emitted|] eqn:E;
    simpl; [|done].
  intros [= <-].
  destruct (top_of_sorted (cmp_on key_e cmp_key_e) (TOP_K cfg) emitted Hk)
    as (rest & Hperm & Hlen & Hsorted).
  apply (StronglySorted_mono _ ranks_before_e) in Hsorted; [|apply key_e_le].
  exists emitted, rest. split_and!; try done.
  intros r r' Hr Hr'. apply ranks_before_e_conf.
  by eapply StronglySorted_app_1_elem_of.
Qed.
End ranking.

(** Along the pipeline the frequent sets are in canonical form and no
    division raises: each rule generator returns one and the same list,
    whatever the order in which its set hands out the itemsets. *)
Lemma pipeline_ranking cfg ts item_sup L1 pair_sup L2 triple_sup L3 :
  run (apriori_L1 cfg ts) = (item_sup, L1) →
  run (apriori_L2 cfg ts L1) = (pair_sup, L2) →
  run (apriori_L3 cfg ts (apriori_C3_from_L2 L2)) = (triple_sup, L3) →
  (∃ d_rules, ∀ order, order ≡ₚ elements L2 →
     top5_part_d cfg item_sup pair_sup order = Ok d_rules) ∧
  (∃ e_rules, ∀ order, order ≡ₚ elements L3 →
     top5_part_e cfg pair_sup triple_sup order = Ok e_rules).
Proof.
  intros E1 E2 E3. split.
  - destruct (top5_part_d_ok cfg item_sup pair_sup (elements L2))
      as [d_rules Hd].
    { apply (pairs_ok cfg ts item_sup L1 pair_sup L2 E1 E2).
      intros p. by rewrite elem_of_elements. }
    exists d_rules. intros order Hp.
    apply (top5_part_d_perm cfg item_sup pair_sup (elements L2)); [|done..].
    apply Forall_forall. intros [a b] Hab%elem_of_elements.
    by apply (frequent_pair_canonical cfg ts L1 pair_sup L2 E2).
  - destruct (top5_part_e_ok cfg pair_sup triple_sup (elements L3))
      as [e_rules He].
    { apply (triples_ok cfg ts L1 pair_sup L2 triple_sup L3 E2 E3).
      intros t. by rewrite elem_of_elements. }
    exists e_rules. intros order Hp.
    apply (top5_part_e_perm cfg pair_sup triple_sup (elements L3)); [|done..].
    apply Forall_forall. intros [[x y] z] Hxyz%elem_of_elements.
    apply (apriori_L3_member _ _ _ _ _ _ E3) in Hxyz as (c & Hc & _).
    by apply (triple_sup_key _ _ _ _ _ _ _ _ _ E3) in Hc as [(_ & ? & ?) _].
Qed.

(** C2 — top-K correctness.  With [TOP_K] not negative, as the module has
    it, the list [top5_part_d] returns is the first [TOP_K] rules (all of
    them when there are fewer) of the rules its loop built, ranked by
    confidence descending, then left item ascending, then right item
    ascending: the rules left out all rank after the rules kept, so none
    of them has a higher confidence.  The same holds for [top5_part_e],
    where the left side is a pair compared by its first and then its
    second item.  The confidence of a rule is the double its division
    gave: two rules whose exact quotients differ and round to one double
    are ranked by their items, as in [rounded_confidences_tie]. *)
Theorem top_k_rules cfg item_sup pair_sup triple_sup
    (L2 : list pair) (L3 : list triple) :
  (0 ≤ TOP_K cfg)%Z →
  (∀ d_rules, top5_part_d cfg item_sup pair_sup L2 = Ok d_rules →
   ∃ emitted rest,
     rules_part_d item_sup pair_sup L2 = Ok emitted ∧
     emitted ≡ₚ d_rules ++ rest ∧
     length d_rules = min (Z.to_nat (TOP_K cfg)) (length emitted) ∧
     StronglySorted ranks_before_d (d_rules ++ rest) ∧
     (∀ r r', r ∈ d_rules → r' ∈ rest → (r'.1.1.1 <= r.1.1.1)%Q)) ∧
  (∀ e_rules, top5_part_e cfg pair_sup triple_sup L3 = Ok e_rules →
   ∃ emitted rest,
     rules_part_e pair_sup triple_sup L3 = Ok emitted ∧
     emitted ≡ₚ e_rules ++ rest ∧
     length e_rules = min (Z.to_nat (TOP_K cfg)) (length emitted) ∧
     StronglySorted ranks_before_e (e_rules ++ rest) ∧
     (∀ r r', r ∈ e_rules → r' ∈ rest → (r'.1.1.1 <= r.1.1.1)%Q)).
Proof.
  intros Hk. split.
  - intros d_rules. by apply top5_part_d_top.
  - intros e_rules. by apply top5_part_e_top.
Qed.

Lemma top_k_rules_witness :
  top5_part_d cfg2 scenario4_L1.1 scenario4_L2.1 (elements scenario4_L2.2) =
    Ok [ (1%Q, "A", "B", 3%Z); (1%Q, "B", "A", 3%Z); (1%Q, "C", "A", 2%Z);
         (1%Q, "C", "B", 2%Z); (1%Q, "C", "D", 2%Z) ] ∧
  top5_part_e cfg2 scenario4_L2.1 scenario4_L3.1 (elements scenario4_L3.2) =
    Ok [ (1%Q, ("A", "C"), "B", 2%Z); (1%Q, ("A", "C"), "D", 2%Z);
         (1%Q, ("A", "D"), "B", 2%Z); (1%Q, ("A", "D"), "C", 2%Z);
         (1%Q, ("B", "C"), "A", 2%Z) ] ∧
  (∃ emitted rest,
     rules_part_d scenario4_L1.1 scenario4_L2.1 (elements scenario4_L2.2)
       = Ok emitted ∧
     emitted ≡ₚ [ (1%Q, "A", "B", 3%Z); (1%Q, "B", "A", 3%Z);
                  (1%Q, "C", "A", 2%Z); (1%Q, "C", "B", 2%Z);
                  (1%Q, "C", "D", 2%Z) ] ++ rest ∧
     5 = min (Z.to_nat (TOP_K cfg2)) (length emitted)) ∧
  (∃ emitted rest,
     rules_part_e scenario4_L2.1 scenario4_L3.1 (elements scenario4_L3.2)
       = Ok emitted ∧
     emitted ≡ₚ [ (1%Q, ("A", "C"), "B", 2%Z); (1%Q, ("A", "C"), "D", 2%Z);
                  (1%Q, ("A", "D"), "B", 2%Z); (1%Q, ("A", "D"), "C", 2%Z);
                  (1%Q, ("B", "C"), "A", 2%Z) ] ++ rest ∧
     5 = min (Z.to_nat (TOP_K cfg2)) (length emitted)).
Proof.
  assert (top5_part_d cfg2 scenario4_L1.1 scenario4_L2.1
            (elements scenario4_L2.2) =
    Ok [ (1%Q, "A", "B", 3%Z); (1%Q, "B", "A", 3%Z); (1%Q, "C", "A", 2%Z);
         (1%Q, "C", "B", 2%Z); (1%Q, "C", "D", 2%Z) ]) as Ed
    by (vm_compute; reflexivity).
  assert (top5_part_e cfg2 scenario4_L2.1 scenario4_L3.1
            (elements scenario4_L3.2) =
    Ok [ (1%Q, ("A", "C"), "B", 2%Z); (1%Q, ("A", "C"), "D", 2%Z);
         (1%Q, ("A", "D"), "B", 2%Z); (1%Q, ("A", "D"), "C", 2%Z);
         (1%Q, ("B", "C"), "A", 2%Z) ]) as Ee by (vm_compute; reflexivity).
  assert (0 ≤ TOP_K cfg2)%Z as Hk by (vm_compute; discriminate).
  destruct (top_k_rules cfg2 scenario4_L1.1 scenario4_L2.1 scenario4_L3.1
              (elements scenario4_L2.2) (elements scenario4_L3.2) Hk)
    as [Hd He].
  destruct (Hd _ Ed) as (em1 & rest1 & Hr1 & Hp1 & Hl1 & _).
  destruct (He _ Ee) as (em2 & rest2 & Hr2 & Hp2 & Hl2 & _).
  refine (conj Ed (conj Ee (conj _ _))).
  - exists em1, rest1. exact (conj Hr1 (conj Hp1 Hl1)).
  - exists em2, rest2. exact (conj Hr2 (conj Hp2 Hl2)).
Defined.

(** C9 — deterministic ranking.  For fixed tables, whatever they hold,
    and a set of pairs in canonical form (ascending items: the form of an
    itemset, and of every pair and triple the pipeline builds),
    [top5_part_d] returns the same list whatever the order in which the
    set [L2] hands out its pairs: if it returns a list for one order it
    returns that list for every order.  So does [top5_part_e] for a set
    [L3] of canonical triples.  Two rules of canonical itemsets never
    have the same sort key, even when their confidences are the same
    double, so the stable sort has nothing to keep in loop order.  For
    itemsets that are not canonical the order can show, as in
    [pair_order_shows_outside_canonical_form]; and when a division
    raises, which exception it is depends on the order, as in
    [huge_count_overflows]. *)
Theorem ranking_deterministic cfg item_sup pair_sup triple_sup
    (order order' : list pair) (order3 order3' : list triple) :
  Forall canonical_pair order →
  Forall canonical_triple order3 →
  order ≡ₚ order' →
  order3 ≡ₚ order3' →
  (∀ d_rules,
     top5_part_d cfg item_sup pair_sup order = Ok d_rules ↔
     top5_part_d cfg item_sup pair_sup order' = Ok d_rules) ∧
  (∀ e_rules,
     top5_part_e cfg pair_sup triple_sup order3 = Ok e_rules ↔
     top5_part_e cfg pair_sup triple_sup order3' = Ok e_rules).
Proof.
  intros Hcan Hcan3 Hp Hp3.
  assert (Forall canonical_pair order') as Hcan' by (by rewrite <- Hp).
  assert (Forall canonical_triple order3') as Hcan3' by (by rewrite <- Hp3).
  split.
  - intros d_rules. split; by apply top5_part_d_perm.
  - intros e_rules. split; by apply top5_part_e_perm.
Qed.

Lemma ranking_deterministic_witness :
  top5_part_d cfg2 scenario4_L1.1 scenario4_L2.1
    (reverse (elements scenario4_L2.2)) =
    Ok [ (1%Q, "A", "B", 3%Z); (1%Q, "B", "A", 3%Z); (1%Q, "C", "A", 2%Z);
         (1%Q, "C", "B", 2%Z); (1%Q, "C", "D", 2%Z) ] ∧
  top5_part_e cfg2 scenario4_L2.1 scenario4_L3.1
    (reverse (elements scenario4_L3.2)) =
    Ok [ (1%Q, ("A", "C"), "B", 2%Z); (1%Q, ("A", "C"), "D", 2%Z);
         (1%Q, ("A", "D"), "B", 2%Z); (1%Q, ("A", "D"), "C", 2%Z);
         (1%Q, ("B", "C"), "A", 2%Z) ].
Proof.
  assert (Forall canonical_pair (elements scenario4_L2.2)) as Hcan.
  { apply (bool_decide_unpack _). vm_compute. exact I. }
  assert (Forall canonical_triple (elements scenario4_L3.2)) as Hcan3.
  { apply (bool_decide_unpack _). vm_compute. exact I. }
  destruct (ranking_deterministic cfg2 scenario4_L1.1 scenario4_L2.1
              scenario4_L3.1
              (elements scenario4_L2.2) (reverse (elements scenario4_L2.2))
              (elements scenario4_L3.2) (reverse (elements scenario4_L3.2))
              Hcan Hcan3) as [Hd He].
  - symmetry. apply reverse_Permutation.
  - symmetry. apply reverse_Permutation.
  - split.
    + apply Hd. vm_compute. reflexivity.
    + apply He. vm_compute. reflexivity.
Defined.

(** C3 — no division by zero.  Along the pipeline both items of a
    frequent pair have a stored count, at least [MIN_SUPPORT] and positive,
    and the three pairs inside a frequent triple have a stored positive
    count, at least [MIN_SUPPORT]; so [top5_part_d] and [top5_part_e]
    return a list and raise nothing, in whatever order the sets hand out
    their elements. *)
Theorem confidence_denominators cfg ts item_sup L1 pair_sup L2 triple_sup L3 :
  run (apriori_L1 cfg ts) = (item_sup, L1) →
  run (apriori_L2 cfg ts L1) = (pair_sup, L2) →
  run (apriori_L3 cfg ts (apriori_C3_from_L2 L2)) = (triple_sup, L3) →
  (∀ a b, (a, b) ∈ L2 →
     ∃ ca cb, item_sup !! a = Some ca ∧ item_sup !! b = Some cb ∧
              (MIN_SUPPORT cfg ≤ ca)%Z ∧ (MIN_SUPPORT cfg ≤ cb)%Z ∧
              (0 < ca)%Z ∧ (0 < cb)%Z) ∧
  (∀ x y z, (x, y, z) ∈ L3 →
     ∃ cxy cxz cyz,
       pair_sup !! (x, y) = Some cxy ∧ pair_sup !! (x, z) = Some cxz ∧
       pair_sup !! (y, z) = Some cyz ∧
       (MIN_SUPPORT cfg ≤ cxy)%Z ∧ (MIN_SUPPORT cfg ≤ cxz)%Z ∧
       (MIN_SUPPORT cfg ≤ cyz)%Z ∧
       (0 < cxy)%Z ∧ (0 < cxz)%Z ∧ (0 < cyz)%Z) ∧
  (∀ order, order ≡ₚ elements L2 →
     ∃ rules, top5_part_d cfg item_sup pair_sup order = Ok rules) ∧
  (∀ order, order ≡ₚ elements L3 →
     ∃ rules, top5_part_e cfg pair_sup triple_sup order = Ok rules).
Proof.
  intros E1 E2 E3. split_and!.
  - by apply (frequent_pair_items cfg ts item_sup L1 pair_sup L2).
  - intros x y z Hxyz.
    destruct (frequent_triple_pairs cfg ts L2 triple_sup L3 E3 x y z Hxyz)
      as (Hxy & Hxz & Hyz).
    apply (frequent_pair_count cfg ts L1 pair_sup L2 E2) in Hxy
      as (cxy & ? & ? & ?).
    apply (frequent_pair_count cfg ts L1 pair_sup L2 E2) in Hxz
      as (cxz & ? & ? & ?).
    apply (frequent_pair_count cfg ts L1 pair_sup L2 E2) in Hyz
      as (cyz & ? & ? & ?).
    exists cxy, cxz, cyz. by split_and!.
  - intros order Hp. apply top5_part_d_ok.
    apply (pairs_ok cfg ts item_sup L1 pair_sup L2 E1 E2).
    intros p. by rewrite Hp, elem_of_elements.
  - intros order Hp. apply top5_part_e_ok.
    apply (triples_ok cfg ts L1 pair_sup L2 triple_sup L3 E2 E3).
    intros t. by rewrite Hp, elem_of_elements.
Qed.

Lemma confidence_denominators_witness :
  ("A", "B") ∈ scenario_L2.2 ∧
  (∃ ca cb, scenario_L1.1 !! "A" = Some ca ∧ scenario_L1.1 !! "B" = Some cb ∧
            (MIN_SUPPORT cfg2 ≤ ca)%Z ∧ (MIN_SUPPORT cfg2 ≤ cb)%Z ∧
            (0 < ca)%Z ∧ (0 < cb)%Z) ∧
  (∃ rules, top5_part_d cfg2 scenario_L1.1 scenario_L2.1
              (elements scenario_L2.2) = Ok rules) ∧
  (∃ rules, top5_part_e cfg2 scenario_L2.1 scenario_L3.1
              (elements scenario_L3.2) = Ok rules).
Proof.
  destruct (confidence_denominators cfg2 scenario scenario_L1.1 scenario_L1.2
              scenario_L2.1 scenario_L2.2 scenario_L3.1 scenario_L3.2)
    as (H1 & _ & H3 & H4); [apply surjective_pairing..|].
  assert (("A", "B") ∈ scenario_L2.2) as E by (vm_compute; reflexivity).
  exact (conj E (conj (H1 _ _ E)
           (conj (H3 _ (Permutation_refl _)) (H4 _ (Permutation_refl _))))).
Defined.

(** C7 — degenerate inputs.  On an empty sequence of transactions [L1],
    [L2] and [L3] are empty and [main] returns two empty rule lists,
    raising nothing; the rule generators return an empty list on an empty
    set; an empty [L2] gives no candidate triple and an empty [L3]; and
    with no candidate [apriori_L3] returns empty results having visited no
    transaction. *)
Theorem degenerate_inputs cfg :
  run (apriori_L1 cfg []) = (∅, []) ∧
  run (apriori_L2 cfg [] []) = (∅, ∅) ∧
  run (apriori_L3 cfg [] (apriori_C3_from_L2 ∅)) = (∅, ∅) ∧
  run (main cfg []) = Ok ([], []) ∧
  (∀ item_sup pair_sup, top5_part_d cfg item_sup pair_sup [] = Ok []) ∧
  (∀ pair_sup triple_sup, top5_part_e cfg pair_sup triple_sup [] = Ok []) ∧
  apriori_C3_from_L2 ∅ = ∅ ∧
  (∀ ts, run (apriori_L3 cfg ts (apriori_C3_from_L2 ∅)) = (∅, ∅)) ∧
  (∀ ts, run (apriori_L3 cfg ts ∅) = (∅, ∅)) ∧
  (∀ ts, visited (apriori_L3 cfg ts ∅) = 0).
Proof.
  assert (∀ ts, run (apriori_L3 cfg ts ∅) = (∅, ∅)) as HL3.
  { intros ts. unfold run, apriori_L3. by rewrite decide_True. }
  assert (∀ item_sup pair_sup, top5_part_d cfg item_sup pair_sup [] = Ok [])
    as Hd.
  { intros. unfold top5_part_d. simpl. by rewrite slice_to_nil. }
  assert (∀ pair_sup triple_sup, top5_part_e cfg pair_sup triple_sup [] = Ok [])
    as He.
  { intros. unfold top5_part_e. simpl. by rewrite slice_to_nil. }
  assert (run (apriori_L1 cfg []) = (∅, [])) as E1.
  { unfold run, apriori_L1. simpl. by rewrite frequent_empty. }
  assert (run (apriori_L2 cfg [] []) = (∅, ∅)) as E2.
  { unfold run, apriori_L2. simpl. by rewrite frequent_empty. }
  refine (conj E1 (conj E2 (conj _ (conj _ (conj Hd (conj He
           (conj _ (conj _ (conj HL3 _))))))))).
  - by rewrite apriori_C3_from_L2_empty.
  - destruct (main_stages cfg [])
      as (item_sup & L1 & pair_sup & L2 & triple_sup & L3 & F1 & F2 & F3 & ->).
    rewrite E1 in F1. injection F1 as <- <-.
    rewrite E2 in F2. injection F2 as <- <-.
    rewrite apriori_C3_from_L2_empty, HL3 in F3. injection F3 as <- <-.
    by rewrite elements_empty, Hd, He.
  - apply apriori_C3_from_L2_empty.
  - intros ts. by rewrite apriori_C3_from_L2_empty.
  - intros ts. by rewrite apriori_L3_visited, decide_True.
Qed.

(** C8 — configuration check, as the code has it.  [main] has no check of
    [MIN_SUPPORT] or [TOP_K]: for every configuration, the non-positive
    ones included, and every input it runs to the end and returns two rule
    lists. *)
Theorem no_configuration_check cfg ts :
  ∃ d_rules e_rules, run (main cfg ts) = Ok (d_rules, e_rules).
Proof.
  destruct (main_stages cfg ts)
    as (item_sup & L1 & pair_sup & L2 & triple_sup & L3 & E1 & E2 & E3 & ->).
  destruct (top5_part_d_ok cfg item_sup pair_sup (elements L2)) as [d ->].
  { apply (pairs_ok cfg ts item_sup L1 pair_sup L2 E1 E2).
    intros p. by rewrite elem_of_elements. }
  destruct (top5_part_e_ok cfg pair_sup triple_sup (elements L3)) as [e ->].
  { apply (triples_ok cfg ts L1 pair_sup L2 triple_sup L3 E2 E3).
    intros t. by rewrite elem_of_elements. }
  by exists d, e.
Qed.

(** With [MIN_SUPPORT = 0] and [TOP_K = -1] the run on the scenario is not
    refused: it returns all the rules but the last of each ranking. *)
Lemma config_check_counterexample :
  ((MIN_SUPPORT bad_cfg ≤ 0)%Z ∨ (TOP_K bad_cfg ≤ 0)%Z) ∧
  run (main bad_cfg scenario) =
    Ok ([ ((3 # 4)%Q, "A", "B", 3%Z); ((3 # 4)%Q, "A", "C", 3%Z);
          ((3 # 4)%Q, "B", "A", 3%Z); ((3 # 4)%Q, "B", "C", 3%Z);
          ((3 # 4)%Q, "C", "A", 3%Z) ],
        [ (quotient 2 3, ("A", "B"), "C", 2%Z);
          (quotient 2 3, ("A", "C"), "B", 2%Z) ]) ∧
  ¬ (∃ e, run (main bad_cfg scenario) = Raise e).
Proof.
  assert (run (main bad_cfg scenario) =
    Ok ([ ((3 # 4)%Q, "A", "B", 3%Z); ((3 # 4)%Q, "A", "C", 3%Z);
          ((3 # 4)%Q, "B", "A", 3%Z); ((3 # 4)%Q, "B", "C", 3%Z);
          ((3 # 4)%Q, "C", "A", 3%Z) ],
        [ (quotient 2 3, ("A", "B"), "C", 2%Z);
          (quotient 2 3, ("A", "C"), "B", 2%Z) ])) as E
    by (vm_compute; reflexivity).
  split_and!; [left; vm_compute; discriminate|exact E|].
  intros [e He]. rewrite E in He. discriminate.
Qed.

(** * Further properties of the pipeline *)

(** ** Tables as functions *)

(** Two tables of positive counts that read the same are the same. *)
Lemma positive_counts_eq `{Countable K} (d1 d2 : gmap K Z) :
  positive_counts d1 → positive_counts d2 →
  (∀ k, getitem d1 k = getitem d2 k) → d1 = d2.
Proof.
  intros H1 H2 Hget. apply map_eq. intros k.
  destruct (d1 !! k) as [c|] eqn:E1.
  - apply (lookup_getitem _ _ _ H1) in E1 as [E1 Hc].
    symmetry. apply (lookup_getitem _ _ _ H2). by rewrite <- Hget.
  - apply (lookup_None_getitem _ _ H1) in E1.
    symmetry. apply (lookup_None_getitem _ _ H2). by rewrite <- Hget.
Qed.

Lemma support_app s ts1 ts2 :
  support s (ts1 ++ ts2) = (support s ts1 + support s ts2)%Z.
Proof. unfold support. rewrite filter_app, length_app. lia. Qed.

Lemma support_perm s ts1 ts2 : ts1 ≡ₚ ts2 → support s ts1 = support s ts2.
Proof. intros Hp. unfold support. by rewrite Hp. Qed.

(** A larger itemset is in no more transactions. *)
(** ** The join and the prune are exact *)

Lemma foldl_grows {X} `{Countable T} (f : gset T → X → gset T)
    (l : list X) (s : gset T) (t : T) :
  (∀ s x, s ⊆ f s x) →
  t ∈ s ∨ (∃ x, x ∈ l ∧ ∀ s, t ∈ f s x) →
  t ∈ foldl f s l.
Proof.
  intros Hmono. revert s. induction l as [|x l IH]; intros s; simpl.
  - intros [?|(x & ?%elem_of_nil & _)]; done.
  - intros [Ht|(y & Hy & Hf)]; apply IH.
    + left. by apply Hmono.
    + apply elem_of_cons in Hy as [->|Hy]; [by left|].
      right. by exists y.
Qed.

Lemma by_first_of_lookup (L2 : gset pair) a b :
  b ∈ default ∅ (by_first_of L2 !! a) ↔ (a, b) ∈ L2.
Proof.
  unfold by_first_of. rewrite <- (elem_of_elements L2).
  generalize (elements L2). intros l.
  assert (∀ m : gmap item (gset item),
    b ∈ default ∅
          (foldl (λ by_first ab,
                    <[ab.1 := {[ab.2]} ∪ default ∅ (by_first !! ab.1)]> by_first)
                 m l !! a)
    ↔ b ∈ default ∅ (m !! a) ∨ (a, b) ∈ l) as Hgen.
  { induction l as [|[a' b'] l IH]; intros m; simpl.
    - rewrite elem_of_nil. tauto.
    - rewrite IH, elem_of_cons, lookup_insert. simpl.
      destruct (decide (a' = a)) as [->|Hne]; simpl.
      + rewrite elem_of_union, elem_of_singleton.
        split; [intros [[->|?]|?]|intros [?|[[= ->]|?]]]; auto.
      + split; [intros [?|?]|intros [?|[[= -> ->]|?]]]; auto. done. }
  rewrite Hgen, lookup_empty. simpl. rewrite elem_of_empty. tauto.
Qed.

Lemma apriori_C3_from_L2_complete (L2 : gset pair) x y z :
  (∀ a b, (a, b) ∈ L2 → item_lt a b) →
  (x, y) ∈ L2 → (x, z) ∈ L2 → (y, z) ∈ L2 →
  (x, y, z) ∈ apriori_C3_from_L2 L2.
Proof.
  intros Hcanon Hxy Hxz Hyz. unfold apriori_C3_from_L2.
  destruct (by_first_of L2 !! x) as [bs|] eqn:E.
  2: { apply by_first_of_lookup in Hxy. rewrite E in Hxy.
       by apply elem_of_empty in Hxy. }
  assert (y ∈ bs) as Hy.
  { apply by_first_of_lookup in Hxy. by rewrite E in Hxy. }
  assert (z ∈ bs) as Hz.
  { apply by_first_of_lookup in Hxz. by rewrite E in Hxz. }
  apply foldl_grows.
  { intros C3 [a bs']. simpl. apply foldl_invariant; [done|].
    intros C3' [b c] _ HC3'. case_decide; [|done].
    etransitivity; [done|]. apply union_subseteq_r. }
  right. exists (x, bs). split; [by apply elem_of_map_to_list|].
  intros C3. simpl. apply foldl_grows.
  { intros C3' [b c]. case_decide; [apply union_subseteq_r|done]. }
  right. exists (y, z). split.
  - apply (combinations2_complete item_lt).
    + apply sorted_items_strict, NoDup_elements.
    + by rewrite (elem_of_sorted String.compare), elem_of_elements.
    + by rewrite (elem_of_sorted String.compare), elem_of_elements.
    + by apply Hcanon.
  - intros C3'. rewrite decide_True by done.
    apply elem_of_union_l. by apply elem_of_singleton.
Qed.

(** X1 — for pairs in canonical form, as [apriori_L2] returns them, the
    candidates are exactly the triples whose three pairs are all in [L2]:
    the join proposes each of them and the prune drops nothing else. *)
Theorem candidate_triples_exact (L2 : gset pair) x y z :
  (∀ a b, (a, b) ∈ L2 → item_lt a b) →
  (x, y, z) ∈ apriori_C3_from_L2 L2 ↔
  (x, y) ∈ L2 ∧ (x, z) ∈ L2 ∧ (y, z) ∈ L2.
Proof.
  intros Hcanon. split; [apply elem_of_apriori_C3_from_L2|].
  intros (Hxy & Hxz & Hyz). by apply apriori_C3_from_L2_complete.
Qed.

Lemma candidate_triples_exact_witness :
  ("A", "B", "C") ∈
    apriori_C3_from_L2 {[("A", "B"); ("A", "C"); ("B", "C")]} ∧
  ¬ (("A", "B", "D") ∈
       apriori_C3_from_L2 {[("A", "B"); ("A", "D"); ("B", "C")]}).
Proof.
  split.
  - apply (candidate_triples_exact {[("A", "B"); ("A", "C"); ("B", "C")]}).
    + intros a b. rewrite !elem_of_union, !elem_of_singleton.
      intros [[[= -> ->]|[= -> ->]]|[= -> ->]]; vm_compute; reflexivity.
    + split_and!; vm_compute; reflexivity.
  - intros H.
    apply (candidate_triples_exact {[("A", "B"); ("A", "D"); ("B", "C")]})
      in H as (_ & _ & H).
    + vm_compute in H. discriminate H.
    + intros a b. rewrite !elem_of_union, !elem_of_singleton.
      intros [[[= -> ->]|[= -> ->]]|[= -> ->]]; vm_compute; reflexivity.
Defined.

(** ** The frequent sets are exact *)

Section exactness.
Variable cfg : config.
Variables (ts : list transaction).
Variables (item_sup : gmap item Z) (L1 : list item).
Variables (pair_sup : gmap pair Z) (L2 : gset pair).
Variables (triple_sup : gmap triple Z) (L3 : gset triple).
Hypothesis min_positive : (0 < MIN_SUPPORT cfg)%Z.
Hypothesis run_L1 : run (apriori_L1 cfg ts) = (item_sup, L1).
Hypothesis run_L2 : run (apriori_L2 cfg ts L1) = (pair_sup, L2).
Hypothesis run_L3 :
  run (apriori_L3 cfg ts (apriori_C3_from_L2 L2)) = (triple_sup, L3).

Lemma frequent_item_exact x :
  x ∈ L1 ↔ (MIN_SUPPORT cfg ≤ support {[x]} ts)%Z.
Proof.
  rewrite (apriori_L1_member _ _ _ _ _ run_L1). split.
  - intros (c & Hc & Hle).
    by apply (item_sup_key _ _ _ _ _ _ run_L1) in Hc as [<- _].
  - intros Hle. exists (support {[x]} ts). split; [|done].
    apply (item_sup_key _ _ _ _ _ _ run_L1). split; [done|lia].
Qed.

Lemma frequent_pair_exact a b :
  (a, b) ∈ L2 ↔ item_lt a b ∧ (MIN_SUPPORT cfg ≤ support {[a; b]} ts)%Z.
Proof.
  rewrite (apriori_L2_member _ _ _ _ _ _ run_L2). split.
  - intros (c & Hc & Hle).
    by apply (pair_sup_key _ _ _ _ _ _ _ _ run_L2) in Hc as ([_ ?] & <- & _).
  - intros [Hlt Hle]. exists (support {[a; b]} ts). split; [|done].
    apply (pair_sup_key _ _ _ _ _ _ _ _ run_L2).
    split_and!; [|done|done|lia].
    unfold C2_of. rewrite elem_of_list_to_set.
    apply (combinations2_complete item_lt); [|apply frequent_item_exact..|done].
    + by eapply apriori_L1_sorted.
    + pose proof (support_anti_monotone _ _ ts (singleton_in_pair_l a b)). lia.
    + pose proof (support_anti_monotone _ _ ts (singleton_in_pair_r a b)). lia.
Qed.

Lemma frequent_triple_exact x y z :
  (x, y, z) ∈ L3 ↔
  item_lt x y ∧ item_lt y z ∧ (MIN_SUPPORT cfg ≤ support {[x; y; z]} ts)%Z.
Proof.
  rewrite (apriori_L3_member _ _ _ _ _ _ run_L3). split.
  - intros (c & Hc & Hle).
    by apply (triple_sup_key _ _ _ _ _ _ _ _ _ run_L3) in Hc
      as ((_ & ? & ?) & <- & _).
  - intros (Hxy & Hyz & Hle). exists (support {[x; y; z]} ts). split; [|done].
    apply (triple_sup_key _ _ _ _ _ _ _ _ _ run_L3).
    split_and!; [|done|done|done|lia].
    pose proof (support_anti_monotone _ _ ts (pair_in_triple_xy x y z)).
    pose proof (support_anti_monotone _ _ ts (pair_in_triple_xz x y z)).
    pose proof (support_anti_monotone _ _ ts (pair_in_triple_yz x y z)).
    assert (item_lt x z) as Hxz by (by transitivity y).
    apply apriori_C3_from_L2_complete.
    + intros a b [? _]%frequent_pair_exact. done.
    + apply frequent_pair_exact. split; [done|lia].
    + apply frequent_pair_exact. split; [done|lia].
    + apply frequent_pair_exact. split; [done|lia].
Qed.
End exactness.

(** X2 — the pipeline finds exactly the frequent itemsets.  With a
    positive [MIN_SUPPORT], [L1] holds the items, [L2] the ascending pairs
    and [L3] the ascending triples whose support, counted by a direct scan,
    is at least [MIN_SUPPORT]: nothing frequent is lost by building the
    candidates from the level below. *)
Theorem frequent_sets_exact cfg ts item_sup L1 pair_sup L2 triple_sup L3 :
  (0 < MIN_SUPPORT cfg)%Z →
  run (apriori_L1 cfg ts) = (item_sup, L1) →
  run (apriori_L2 cfg ts L1) = (pair_sup, L2) →
  run (apriori_L3 cfg ts (apriori_C3_from_L2 L2)) = (triple_sup, L3) →
  (∀ x, x ∈ L1 ↔ (MIN_SUPPORT cfg ≤ support {[x]} ts)%Z) ∧
  (∀ a b, (a, b) ∈ L2 ↔
     item_lt a b ∧ (MIN_SUPPORT cfg ≤ support {[a; b]} ts)%Z) ∧
  (∀ x y z, (x, y, z) ∈ L3 ↔
     item_lt x y ∧ item_lt y z ∧
     (MIN_SUPPORT cfg ≤ support {[x; y; z]} ts)%Z).
Proof.
  intros Hmin E1 E2 E3. split_and!.
  - intros x. by eapply frequent_item_exact.
  - intros a b. by eapply frequent_pair_exact.
  - intros x y z. by eapply frequent_triple_exact.
Qed.

Lemma frequent_sets_exact_witness :
  support {["B"; "C"]} scenario = 3%Z ∧ ("B", "C") ∈ scenario_L2.2 ∧
  support {["A"; "B"; "C"]} scenario = 2%Z ∧
  ("A", "B", "C") ∈ scenario_L3.2.
Proof.
  assert (0 < MIN_SUPPORT cfg2)%Z as Hmin by (vm_compute; reflexivity).
  destruct (frequent_sets_exact cfg2 scenario scenario_L1.1 scenario_L1.2
              scenario_L2.1 scenario_L2.2 scenario_L3.1 scenario_L3.2 Hmin)
    as (_ & H2 & H3); [apply surjective_pairing..|].
  assert (support {["B"; "C"]} scenario = 3%Z) as E2
    by (vm_compute; reflexivity).
  assert (support {["A"; "B"; "C"]} scenario = 2%Z) as E3
    by (vm_compute; reflexivity).
  refine (conj E2 (conj _ (conj E3 _))).
  - apply H2. split; [vm_compute; reflexivity|].
    rewrite E2. vm_compute. discriminate.
  - apply H3. split_and!; [vm_compute; reflexivity..|].
    rewrite E3. vm_compute. discriminate.
Defined.

(** ** What the rules of [main] say *)

(** A confidence of the pipeline: a count over a count that is not
    smaller. *)
Lemma quotient_part n d :
  (0 < n)%Z → (n ≤ d)%Z →
  (0 <= quotient n d)%Q ∧ (quotient n d <= 1)%Q ∧
  (Qabs (quotient n d - ratio n d) <= 1 # 2 ^ 53)%Q.
Proof.
  intros Hn Hd.
  destruct (quotient_unit n d) as [H0 H1]; [lia..|].
  split_and!; [done..|]. apply quotient_error; lia.
Qed.

Lemma elem_of_slice_to {A} (k : Z) (l : list A) x : x ∈ slice_to k l → x ∈ l.
Proof.
  unfold slice_to. case_decide; intros Hx;
    (eapply elem_of_sublist; [exact Hx|apply sublist_take]).
Qed.

Lemma top5_part_d_emitted cfg item_sup pair_sup (L2 : list pair) rules r :
  top5_part_d cfg item_sup pair_sup L2 = Ok rules → r ∈ rules →
  r ∈ L2 ≫= emit_d item_sup pair_sup.
Proof.
  unfold top5_part_d. rewrite rules_part_d_spec.
  destruct (first_error _ L2); simpl; [done|].
  intros [= <-] Hr%elem_of_slice_to.
  by apply (elem_of_sorted (cmp_on key_d cmp_key_d)).
Qed.

Lemma top5_part_e_emitted cfg pair_sup triple_sup (L3 : list triple) rules r :
  top5_part_e cfg pair_sup triple_sup L3 = Ok rules → r ∈ rules →
  r ∈ L3 ≫= emit_e pair_sup triple_sup.
Proof.
  unfold top5_part_e. rewrite rules_part_e_spec.
  destruct (first_error _ L3); simpl; [done|].
  intros [= <-] Hr%elem_of_slice_to.
  by apply (elem_of_sorted (cmp_on key_e cmp_key_e)).
Qed.

Lemma triple_set_xzy (x y z : item) : ({[x; z; y]} : gset item) = {[x; y; z]}.
Proof.
  apply set_eq. intros u. rewrite !elem_of_union, !elem_of_singleton. tauto.
Qed.
Lemma triple_set_yzx (x y z : item) : ({[y; z; x]} : gset item) = {[x; y; z]}.
Proof.
  apply set_eq. intros u. rewrite !elem_of_union, !elem_of_singleton. tauto.
Qed.

Section rules_sound.
Variable cfg : config.
Variables (ts : list transaction).
Variables (item_sup : gmap item Z) (L1 : list item).
Variables (pair_sup : gmap pair Z) (L2 : gset pair).
Variables (triple_sup : gmap triple Z) (L3 : gset triple).
Hypothesis run_L1 : run (apriori_L1 cfg ts) = (item_sup, L1).
Hypothesis run_L2 : run (apriori_L2 cfg ts L1) = (pair_sup, L2).
Hypothesis run_L3 :
  run (apriori_L3 cfg ts (apriori_C3_from_L2 L2)) = (triple_sup, L3).

Lemma item_count x : getitem item_sup x = support {[x]} ts.
Proof. by apply apriori_L1_spec in run_L1 as (_ & ? & _). Qed.

Lemma frequent_pair_facts a b :
  (a, b) ∈ L2 →
  item_lt a b ∧ getitem pair_sup (a, b) = support {[a; b]} ts ∧
  (MIN_SUPPORT cfg ≤ support {[a; b]} ts)%Z ∧ (0 < support {[a; b]} ts)%Z.
Proof.
  intros (c & Hc & Hle)%(apriori_L2_member _ _ _ _ _ _ run_L2).
  unfold getitem. rewrite Hc. simpl.
  by apply (pair_sup_key _ _ _ _ _ _ _ _ run_L2) in Hc as ([_ ?] & <- & ?).
Qed.

Lemma frequent_triple_facts x y z :
  (x, y, z) ∈ L3 →
  (item_lt x y ∧ item_lt y z) ∧
  getitem triple_sup (x, y, z) = support {[x; y; z]} ts ∧
  (MIN_SUPPORT cfg ≤ support {[x; y; z]} ts)%Z ∧
  (0 < support {[x; y; z]} ts)%Z.
Proof.
  intros (c & Hc & Hle)%(apriori_L3_member _ _ _ _ _ _ run_L3).
  unfold getitem. rewrite Hc. simpl.
  by apply (triple_sup_key _ _ _ _ _ _ _ _ _ run_L3) in Hc
    as ((_ & ? & ?) & <- & ?).
Qed.

Lemma rule_d_sound c a b s :
  (c, a, b, s) ∈ elements L2 ≫= emit_d item_sup pair_sup →
  a ≠ b ∧ s = support {[a; b]} ts ∧ (MIN_SUPPORT cfg ≤ s)%Z ∧
  c = quotient s (support {[a]} ts) ∧ (0 <= c)%Q ∧ (c <= 1)%Q ∧
  (Qabs (c - ratio s (support {[a]} ts)) <= 1 # 2 ^ 53)%Q.
Proof.
  intros ([a' b'] & Hr & Hab%elem_of_elements)%list_elem_of_bind.
  destruct (frequent_pair_facts _ _ Hab) as (Hlt & Hget & Hmin & Hpos).
  pose proof (support_anti_monotone _ _ ts (singleton_in_pair_l a' b')).
  pose proof (support_anti_monotone _ _ ts (singleton_in_pair_r a' b')).
  unfold emit_d in Hr. simpl in Hr. rewrite Hget, !item_count in Hr.
  apply elem_of_cons in Hr as [[= -> -> -> ->]|Hr].
  - split_and!; try done; [by apply string_lt_neq|by apply quotient_part..].
  - apply list_elem_of_singleton in Hr as [= -> -> -> ->].
    rewrite (union_comm_L {[b']} {[a']}).
    split_and!; try done; [|by apply quotient_part..].
    intros ->. by apply string_lt_neq in Hlt.
Qed.

Lemma rule_e_sound c x y z s :
  (c, (x, y), z, s) ∈ elements L3 ≫= emit_e pair_sup triple_sup →
  item_lt x y ∧ z ≠ x ∧ z ≠ y ∧ s = support {[x; y; z]} ts ∧
  (MIN_SUPPORT cfg ≤ s)%Z ∧
  c = quotient s (support {[x; y]} ts) ∧ (0 <= c)%Q ∧ (c <= 1)%Q ∧
  (Qabs (c - ratio s (support {[x; y]} ts)) <= 1 # 2 ^ 53)%Q.
Proof.
  intros ([[x' y'] z'] & Hr & Hxyz%elem_of_elements)%list_elem_of_bind.
  destruct (frequent_triple_facts _ _ _ Hxyz) as ([Hxy Hyz] & Hget & Hmin & Hpos).
  assert (item_lt x' z') as Hxz by (by transitivity y').
  destruct (frequent_triple_pairs cfg ts L2 triple_sup L3 run_L3 _ _ _ Hxyz)
    as (Pxy & Pxz & Pyz).
  apply frequent_pair_facts in Pxy as (_ & Gxy & _).
  apply frequent_pair_facts in Pxz as (_ & Gxz & _).
  apply frequent_pair_facts in Pyz as (_ & Gyz & _).
  pose proof (support_anti_monotone _ _ ts (pair_in_triple_xy x' y' z')).
  pose proof (support_anti_monotone _ _ ts (pair_in_triple_xz x' y' z')).
  pose proof (support_anti_monotone _ _ ts (pair_in_triple_yz x' y' z')).
  pose proof (string_lt_neq _ _ Hxy). pose proof (string_lt_neq _ _ Hyz).
  pose proof (string_lt_neq _ _ Hxz).
  unfold emit_e in Hr. simpl in Hr. rewrite Hget, Gxy, Gxz, Gyz in Hr.
  apply elem_of_cons in Hr as [[= -> -> -> -> ->]|Hr].
  { split_and!; try done; by apply quotient_part. }
  apply elem_of_cons in Hr as [[= -> -> -> -> ->]|Hr].
  { rewrite (triple_set_xzy x' y' z').
    split_and!; try done; by apply quotient_part. }
  apply list_elem_of_singleton in Hr as [= -> -> -> -> ->].
  rewrite (triple_set_yzx x' y' z').
  split_and!; try done; by apply quotient_part.
Qed.
End rules_sound.

(** X3 — what a rule of [main] says.  Every rule [a => b] that [main]
    returns has distinct sides and carries the support of {a, b} counted by
    a direct scan, which is at least [MIN_SUPPORT]; its confidence is the
    double that [support{a, b} / support{a}] gives: it lies between 0 and 1
    and is within [2^-53] of the exact ratio.  Every rule [(x, y) => z] has
    an ascending left pair, a right item outside it, the support of
    {x, y, z} and as confidence the double of
    [support{x, y, z} / support{x, y}], with the same bounds. *)
Theorem main_rules_sound cfg ts d_rules e_rules :
  run (main cfg ts) = Ok (d_rules, e_rules) →
  (∀ c a b s, (c, a, b, s) ∈ d_rules →
     a ≠ b ∧ s = support {[a; b]} ts ∧ (MIN_SUPPORT cfg ≤ s)%Z ∧
     c = quotient s (support {[a]} ts) ∧ (0 <= c)%Q ∧ (c <= 1)%Q ∧
     (Qabs (c - ratio s (support {[a]} ts)) <= 1 # 2 ^ 53)%Q) ∧
  (∀ c x y z s, (c, (x, y), z, s) ∈ e_rules →
     item_lt x y ∧ z ≠ x ∧ z ≠ y ∧ s = support {[x; y; z]} ts ∧
     (MIN_SUPPORT cfg ≤ s)%Z ∧
     c = quotient s (support {[x; y]} ts) ∧ (0 <= c)%Q ∧ (c <= 1)%Q ∧
     (Qabs (c - ratio s (support {[x; y]} ts)) <= 1 # 2 ^ 53)%Q).
Proof.
  destruct (main_stages cfg ts)
    as (item_sup & L1 & pair_sup & L2 & triple_sup & L3 & E1 & E2 & E3 & ->).
  destruct (top5_part_d cfg item_sup pair_sup (elements L2)) as [d|] eqn:Ed;
    simpl; [|done].
  destruct (top5_part_e cfg pair_sup triple_sup (elements L3)) as [e|] eqn:Ee;
    simpl; [|done].
  intros [= <- <-]. split.
  - intros c a b s Hr.
    apply (rule_d_sound cfg ts item_sup L1 pair_sup L2 E1 E2).
    by eapply top5_part_d_emitted.
  - intros c x y z s Hr.
    apply (rule_e_sound cfg ts L1 pair_sup L2 triple_sup L3 E2 E3).
    by eapply top5_part_e_emitted.
Qed.

Lemma main_rules_sound_witness :
  ("A" ≠ "C" ∧ 3%Z = support {["A"; "C"]} scenario ∧
   (MIN_SUPPORT cfg2 ≤ 3)%Z ∧
   (3 # 4)%Q = quotient 3 (support {["A"]} scenario) ∧
   (0 <= 3 # 4)%Q ∧ (3 # 4 <= 1)%Q ∧
   (Qabs ((3 # 4) - ratio 3 (support {["A"]} scenario)) <= 1 # 2 ^ 53)%Q) ∧
  (item_lt "A" "B" ∧ "C" ≠ "A" ∧ "C" ≠ "B" ∧
   2%Z = support {["A"; "B"; "C"]} scenario ∧ (MIN_SUPPORT cfg2 ≤ 2)%Z ∧
   quotient 2 3 = quotient 2 (support {["A"; "B"]} scenario) ∧
   (0 <= quotient 2 3)%Q ∧ (quotient 2 3 <= 1)%Q ∧
   (Qabs (quotient 2 3 - ratio 2 (support {["A"; "B"]} scenario))
    <= 1 # 2 ^ 53)%Q).
Proof.
  destruct (main_rules_sound cfg2 scenario
    [ ((3 # 4)%Q, "A", "B", 3%Z); ((3 # 4)%Q, "A", "C", 3%Z);
      ((3 # 4)%Q, "B", "A", 3%Z); ((3 # 4)%Q, "B", "C", 3%Z);
      ((3 # 4)%Q, "C", "A", 3%Z) ]
    [ (quotient 2 3, ("A", "B"), "C", 2%Z);
      (quotient 2 3, ("A", "C"), "B", 2%Z);
      (quotient 2 3, ("B", "C"), "A", 2%Z) ]) as [Hd He];
    [vm_compute; reflexivity|].
  split.
  - apply Hd. right. left.
  - apply He. left.
Defined.

(** ** When the rule generators raise, and how long their lists are *)

Lemma length_emit_d item_sup pair_sup (L2 : list pair) :
  length (L2 ≫= emit_d item_sup pair_sup) = 2 * length L2.
Proof.
  induction L2 as [|ab L2 IH]; [done|].
  rewrite bind_cons, length_app, IH. simpl. lia.
Qed.

Lemma length_emit_e pair_sup triple_sup (L3 : list triple) :
  length (L3 ≫= emit_e pair_sup triple_sup) = 3 * length L3.
Proof.
  induction L3 as [|[[x y] z] L3 IH]; [done|].
  rewrite bind_cons, length_app, IH. simpl. lia.
Qed.

Lemma length_slice_to {A} (k : Z) (l : list A) :
  length (slice_to k l) =
    if decide (k < 0)%Z then length l - Z.to_nat (- k)
    else min (Z.to_nat k) (length l).
Proof.
  unfold slice_to. case_decide; rewrite length_take; lia.
Qed.

Lemma div_error_None n d :
  div_error n d = None ↔ d ≠ 0%Z ∧ overflows n d = false.
Proof.
  unfold div_error. case_decide; [by split; [|intros [? _]]|].
  destruct (overflows n d); split; try done. by intros [_ ?].
Qed.

Lemma pair_error_None item_sup pair_sup a b :
  pair_error item_sup pair_sup (a, b) = None ↔
  (getitem item_sup a ≠ 0%Z ∧
   overflows (getitem pair_sup (a, b)) (getitem item_sup a) = false) ∧
  (getitem item_sup b ≠ 0%Z ∧
   overflows (getitem pair_sup (a, b)) (getitem item_sup b) = false).
Proof.
  unfold pair_error. simpl. rewrite <- !div_error_None.
  destruct (div_error _ (getitem item_sup a)); split; try done.
  - by intros [? _].
  - by intros [_ ?].
Qed.

Lemma pair_error_Some item_sup pair_sup a b e :
  pair_error item_sup pair_sup (a, b) = Some e →
  (e = ZeroDivisionError ∧
   (getitem item_sup a = 0%Z ∨ getitem item_sup b = 0%Z)) ∨
  (e = OverflowError ∧
   (overflows (getitem pair_sup (a, b)) (getitem item_sup a) = true ∨
    overflows (getitem pair_sup (a, b)) (getitem item_sup b) = true)).
Proof.
  unfold pair_error. simpl.
  destruct (div_error _ (getitem item_sup a)) as [e'|] eqn:Ea.
  - intros [= ->]. apply div_error_cases in Ea as [[-> ?]|(-> & _ & ?)]; auto.
  - intros [[-> ?]|(-> & _ & ?)]%div_error_cases; auto.
Qed.

Lemma triple_error_None pair_sup triple_sup x y z :
  triple_error pair_sup triple_sup (x, y, z) = None ↔
  (getitem pair_sup (x, y) ≠ 0%Z ∧
   overflows (getitem triple_sup (x, y, z)) (getitem pair_sup (x, y)) = false) ∧
  (getitem pair_sup (x, z) ≠ 0%Z ∧
   overflows (getitem triple_sup (x, y, z)) (getitem pair_sup (x, z)) = false) ∧
  (getitem pair_sup (y, z) ≠ 0%Z ∧
   overflows (getitem triple_sup (x, y, z)) (getitem pair_sup (y, z)) = false).
Proof.
  unfold triple_error. rewrite <- !div_error_None.
  destruct (div_error _ (getitem pair_sup (x, y))); [by split; [|intros [? _]]|].
  destruct (div_error _ (getitem pair_sup (x, z)));
    [by split; [|intros (_ & ? & _)]|].
  split; [done|]. by intros (_ & _ & ?).
Qed.

Lemma triple_error_Some pair_sup triple_sup x y z e :
  triple_error pair_sup triple_sup (x, y, z) = Some e →
  (e = ZeroDivisionError ∧
   (getitem pair_sup (x, y) = 0%Z ∨ getitem pair_sup (x, z) = 0%Z ∨
    getitem pair_sup (y, z) = 0%Z)) ∨
  (e = OverflowError ∧
   (overflows (getitem triple_sup (x, y, z)) (getitem pair_sup (x, y)) = true ∨
    overflows (getitem triple_sup (x, y, z)) (getitem pair_sup (x, z)) = true ∨
    overflows (getitem triple_sup (x, y, z)) (getitem pair_sup (y, z)) = true)).
Proof.
  unfold triple_error.
  destruct (div_error _ (getitem pair_sup (x, y))) as [e'|] eqn:E1.
  { intros [= ->]. apply div_error_cases in E1 as [[-> ?]|(-> & _ & ?)]; auto. }
  destruct (div_error _ (getitem pair_sup (x, z))) as [e'|] eqn:E2.
  { intros [= ->]. apply div_error_cases in E2 as [[-> ?]|(-> & _ & ?)]; auto. }
  intros [[-> ?]|(-> & _ & ?)]%div_error_cases; auto.
Qed.

Section raising.
Variable cfg : config.
Variables (item_sup : gmap item Z) (pair_sup : gmap pair Z).
Variables (triple_sup : gmap triple Z).

Lemma top5_part_d_first (L2 : list pair) :
  top5_part_d cfg item_sup pair_sup L2 =
    match first_error (pair_error item_sup pair_sup) L2 with
    | Some e => Raise e
    | None =>
        Ok (slice_to (TOP_K cfg)
              (sorted (cmp_on key_d cmp_key_d)
                 (L2 ≫= emit_d item_sup pair_sup)))
    end.
Proof.
  unfold top5_part_d. rewrite rules_part_d_spec.
  by destruct (first_error _ L2).
Qed.

Lemma top5_part_e_first (L3 : list triple) :
  top5_part_e cfg pair_sup triple_sup L3 =
    match first_error (triple_error pair_sup triple_sup) L3 with
    | Some e => Raise e
    | None =>
        Ok (slice_to (TOP_K cfg)
              (sorted (cmp_on key_e cmp_key_e)
                 (L3 ≫= emit_e pair_sup triple_sup)))
    end.
Proof.
  unfold top5_part_e. rewrite rules_part_e_spec.
  by destruct (first_error _ L3).
Qed.
End raising.

(** X4 — when the rule generators raise.  On arbitrary tables
    [top5_part_d] returns a list exactly when every division of its loop
    is defined: no count of an item of a pair reads 0 and no quotient is
    beyond the range of a double.  Otherwise it raises the exception of the
    first division that fails, [ZeroDivisionError] for a count that reads 0
    or [OverflowError] for a quotient out of range.  A key that is missing
    from the [defaultdict] reads 0: it makes the function raise, and no
    [KeyError] exists.  The same holds for [top5_part_e] and the counts of
    the pairs of a triple. *)
Theorem rule_generators_raise cfg item_sup pair_sup triple_sup
    (L2 : list pair) (L3 : list triple) :
  ((∃ d_rules, top5_part_d cfg item_sup pair_sup L2 = Ok d_rules) ↔
   ∀ a b, (a, b) ∈ L2 →
     (getitem item_sup a ≠ 0%Z ∧
      overflows (getitem pair_sup (a, b)) (getitem item_sup a) = false) ∧
     (getitem item_sup b ≠ 0%Z ∧
      overflows (getitem pair_sup (a, b)) (getitem item_sup b) = false)) ∧
  (∀ e, top5_part_d cfg item_sup pair_sup L2 = Raise e →
     ∃ a b, (a, b) ∈ L2 ∧
       ((e = ZeroDivisionError ∧
         (getitem item_sup a = 0%Z ∨ getitem item_sup b = 0%Z)) ∨
        (e = OverflowError ∧
         (overflows (getitem pair_sup (a, b)) (getitem item_sup a) = true ∨
          overflows (getitem pair_sup (a, b)) (getitem item_sup b) = true)))) ∧
  (∀ a b, (a, b) ∈ L2 → item_sup !! a = None ∨ item_sup !! b = None →
     ∃ e, top5_part_d cfg item_sup pair_sup L2 = Raise e) ∧
  ((∃ e_rules, top5_part_e cfg pair_sup triple_sup L3 = Ok e_rules) ↔
   ∀ x y z, (x, y, z) ∈ L3 →
     (getitem pair_sup (x, y) ≠ 0%Z ∧
      overflows (getitem triple_sup (x, y, z)) (getitem pair_sup (x, y))
      = false) ∧
     (getitem pair_sup (x, z) ≠ 0%Z ∧
      overflows (getitem triple_sup (x, y, z)) (getitem pair_sup (x, z))
      = false) ∧
     (getitem pair_sup (y, z) ≠ 0%Z ∧
      overflows (getitem triple_sup (x, y, z)) (getitem pair_sup (y, z))
      = false)) ∧
  (∀ e, top5_part_e cfg pair_sup triple_sup L3 = Raise e →
     ∃ x y z, (x, y, z) ∈ L3 ∧
       ((e = ZeroDivisionError ∧
         (getitem pair_sup (x, y) = 0%Z ∨ getitem pair_sup (x, z) = 0%Z ∨
          getitem pair_sup (y, z) = 0%Z)) ∨
        (e = OverflowError ∧
         (overflows (getitem triple_sup (x, y, z)) (getitem pair_sup (x, y))
          = true ∨
          overflows (getitem triple_sup (x, y, z)) (getitem pair_sup (x, z))
          = true ∨
          overflows (getitem triple_sup (x, y, z)) (getitem pair_sup (y, z))
          = true)))) ∧
  (∀ x y z, (x, y, z) ∈ L3 →
     pair_sup !! (x, y) = None ∨ pair_sup !! (x, z) = None ∨
     pair_sup !! (y, z) = None →
     ∃ e, top5_part_e cfg pair_sup triple_sup L3 = Raise e).
Proof.
  rewrite top5_part_d_first, top5_part_e_first.
  assert (∀ a b, (a, b) ∈ L2 →
            getitem item_sup a = 0%Z ∨ getitem item_sup b = 0%Z →
            ∃ e, first_error (pair_error item_sup pair_sup) L2 = Some e) as Hd.
  { intros a b Hab Hz.
    destruct (pair_error item_sup pair_sup (a, b)) as [e|] eqn:E.
    - by eapply first_error_is_Some.
    - apply pair_error_None in E. tauto. }
  assert (∀ x y z, (x, y, z) ∈ L3 →
            getitem pair_sup (x, y) = 0%Z ∨ getitem pair_sup (x, z) = 0%Z ∨
            getitem pair_sup (y, z) = 0%Z →
            ∃ e, first_error (triple_error pair_sup triple_sup) L3 = Some e)
    as He.
  { intros x y z Hxyz Hz.
    destruct (triple_error pair_sup triple_sup (x, y, z)) as [e|] eqn:E.
    - by eapply first_error_is_Some.
    - apply triple_error_None in E. tauto. }
  split_and!.
  - destruct (first_error _ L2) as [e|] eqn:E.
    + split; [by intros [? [=]]|]. intros Hall.
      apply first_error_Some in E as ([a b] & Hab & Herr).
      apply Hall, pair_error_None in Hab. congruence.
    + split; [|by eexists]. intros _ a b Hab.
      apply first_error_None in E. rewrite Forall_forall in E.
      by apply pair_error_None, E.
  - intros e. destruct (first_error _ L2) as [e'|] eqn:E; [|done].
    intros [= ->]. apply first_error_Some in E as ([a b] & Hab & Herr).
    exists a, b. split; [done|]. by apply pair_error_Some.
  - intros a b Hab Hnone. destruct (Hd a b Hab) as [e ->]; [|by eexists].
    unfold getitem. destruct Hnone as [-> | ->]; auto.
  - destruct (first_error _ L3) as [e|] eqn:E.
    + split; [by intros [? [=]]|]. intros Hall.
      apply first_error_Some in E as ([[x y] z] & Hxyz & Herr).
      apply Hall, triple_error_None in Hxyz. congruence.
    + split; [|by eexists]. intros _ x y z Hxyz.
      apply first_error_None in E. rewrite Forall_forall in E.
      by apply triple_error_None, E.
  - intros e. destruct (first_error _ L3) as [e'|] eqn:E; [|done].
    intros [= ->]. apply first_error_Some in E as ([[x y] z] & Hxyz & Herr).
    exists x, y, z. split; [done|]. by apply triple_error_Some.
  - intros x y z Hxyz Hnone.
    destruct (He x y z Hxyz) as [e ->]; [|by eexists].
    unfold getitem. destruct Hnone as [-> |[-> | ->]]; auto.
Qed.

Lemma rule_generators_raise_witness :
  (∃ e, top5_part_d cfg2 scenario_L1.1 scenario_L2.1 [("A", "B"); ("A", "Z")]
        = Raise e) ∧
  (∃ e, top5_part_e cfg2 scenario_L2.1 scenario_L3.1 [("A", "B", "Z")]
        = Raise e) ∧
  (∃ a b, (a, b) ∈ [("A", "B"); ("A", "Z")] ∧
     ((OverflowError = ZeroDivisionError ∧
       (getitem one_item_sup a = 0%Z ∨ getitem one_item_sup b = 0%Z)) ∨
      (OverflowError = OverflowError ∧
       (overflows (getitem huge_pair_sup (a, b)) (getitem one_item_sup a)
        = true ∨
        overflows (getitem huge_pair_sup (a, b)) (getitem one_item_sup b)
        = true)))).
Proof.
  destruct (rule_generators_raise cfg2 scenario_L1.1 scenario_L2.1
              scenario_L3.1 [("A", "B"); ("A", "Z")] [("A", "B", "Z")])
    as (_ & _ & Hd & _ & _ & He).
  destruct (rule_generators_raise cfg2 one_item_sup huge_pair_sup
              scenario_L3.1 [("A", "B"); ("A", "Z")] [])
    as (_ & Hover & _).
  split_and!.
  - apply (Hd "A" "Z"); [right; left|right; vm_compute; reflexivity].
  - apply (He "A" "B" "Z"); [left|right; left; vm_compute; reflexivity].
  - apply Hover. vm_compute. reflexivity.
Defined.

(** X5 — the size of the rule lists.  The loop of [top5_part_d] builds
    two rules for each pair and the loop of [top5_part_e] three for each
    triple; what is returned keeps the first [TOP_K] of them, all of them
    when there are fewer, and for a negative [TOP_K] all but the last
    [-TOP_K], as the slice [rules[:TOP_K]] does. *)
Theorem rule_list_length cfg item_sup pair_sup triple_sup
    (L2 : list pair) (L3 : list triple) :
  (∀ d_rules, top5_part_d cfg item_sup pair_sup L2 = Ok d_rules →
     length d_rules =
       if decide (TOP_K cfg < 0)%Z
       then 2 * length L2 - Z.to_nat (- TOP_K cfg)
       else min (Z.to_nat (TOP_K cfg)) (2 * length L2)) ∧
  (∀ e_rules, top5_part_e cfg pair_sup triple_sup L3 = Ok e_rules →
     length e_rules =
       if decide (TOP_K cfg < 0)%Z
       then 3 * length L3 - Z.to_nat (- TOP_K cfg)
       else min (Z.to_nat (TOP_K cfg)) (3 * length L3)).
Proof.
  split.
  - intros d_rules. rewrite top5_part_d_first.
    destruct (first_error _ L2); [done|]. intros [= <-].
    by rewrite length_slice_to, (length_sorted (cmp_on key_d cmp_key_d)),
      length_emit_d.
  - intros e_rules. rewrite top5_part_e_first.
    destruct (first_error _ L3); [done|]. intros [= <-].
    by rewrite length_slice_to, (length_sorted (cmp_on key_e cmp_key_e)),
      length_emit_e.
Qed.

Lemma rule_list_length_witness :
  length [ (1%Q, "A", "B", 3%Z); (1%Q, "B", "A", 3%Z); (1%Q, "C", "A", 2%Z);
           (1%Q, "C", "B", 2%Z); (1%Q, "C", "D", 2%Z) ]
    = (if decide (TOP_K cfg2 < 0)%Z
       then 2 * length (elements scenario4_L2.2) - Z.to_nat (- TOP_K cfg2)
       else min (Z.to_nat (TOP_K cfg2)) (2 * length (elements scenario4_L2.2))) ∧
  length [ (quotient 2 3, ("A", "B"), "C", 2%Z);
           (quotient 2 3, ("A", "C"), "B", 2%Z) ]
    = (if decide (TOP_K bad_cfg < 0)%Z
       then 3 * length (elements scenario_L3.2) - Z.to_nat (- TOP_K bad_cfg)
       else min (Z.to_nat (TOP_K bad_cfg)) (3 * length (elements scenario_L3.2))).
Proof.
  split.
  - apply (rule_list_length cfg2 scenario4_L1.1 scenario4_L2.1 scenario4_L3.1
             (elements scenario4_L2.2) []).
    vm_compute. reflexivity.
  - apply (rule_list_length bad_cfg scenario_L1.1 scenario_L2.1 scenario_L3.1
             [] (elements scenario_L3.2)).
    vm_compute. reflexivity.
Defined.

(** ** The order and the splitting of the transactions *)

Section reorder.
Variable cfg : config.
Implicit Types ts : list transaction.

Lemma pair_getitem_eq (d1 d2 : gmap pair Z) :
  (∀ a b, getitem d1 (a, b) = getitem d2 (a, b)) →
  ∀ p, getitem d1 p = getitem d2 p.
Proof. intros Hd [a b]. apply Hd. Qed.

Lemma triple_getitem_eq (d1 d2 : gmap triple Z) :
  (∀ x y z, getitem d1 (x, y, z) = getitem d2 (x, y, z)) →
  ∀ t, getitem d1 t = getitem d2 t.
Proof. intros Hd [[x y] z]. apply Hd. Qed.

Lemma apriori_L1_perm ts ts' :
  ts ≡ₚ ts' → run (apriori_L1 cfg ts) = run (apriori_L1 cfg ts').
Proof.
  intros Hp.
  destruct (run (apriori_L1 cfg ts)) as [d1 l1] eqn:E1.
  destruct (run (apriori_L1 cfg ts')) as [d2 l2] eqn:E2.
  apply apriori_L1_spec in E1 as (P1 & G1 & ->).
  apply apriori_L1_spec in E2 as (P2 & G2 & ->).
  assert (d1 = d2) as ->; [|done].
  apply positive_counts_eq; [done..|].
  intros x. by rewrite G1, G2, (support_perm _ _ _ Hp).
Qed.

Lemma apriori_L2_perm ts ts' L1 :
  ts ≡ₚ ts' → run (apriori_L2 cfg ts L1) = run (apriori_L2 cfg ts' L1).
Proof.
  intros Hp.
  destruct (run (apriori_L2 cfg ts L1)) as [d1 l1] eqn:E1.
  destruct (run (apriori_L2 cfg ts' L1)) as [d2 l2] eqn:E2.
  apply apriori_L2_spec in E1 as (P1 & G1 & ->).
  apply apriori_L2_spec in E2 as (P2 & G2 & ->).
  assert (d1 = d2) as ->; [|done].
  apply positive_counts_eq; [done..|]. apply pair_getitem_eq.
  intros a b. by rewrite G1, G2, (support_perm _ _ _ Hp).
Qed.

Lemma apriori_L3_perm ts ts' C3 :
  ts ≡ₚ ts' → run (apriori_L3 cfg ts C3) = run (apriori_L3 cfg ts' C3).
Proof.
  intros Hp.
  destruct (run (apriori_L3 cfg ts C3)) as [d1 l1] eqn:E1.
  destruct (run (apriori_L3 cfg ts' C3)) as [d2 l2] eqn:E2.
  apply apriori_L3_spec in E1 as (P1 & G1 & ->).
  apply apriori_L3_spec in E2 as (P2 & G2 & ->).
  assert (d1 = d2) as ->; [|done].
  apply positive_counts_eq; [done..|]. apply triple_getitem_eq.
  intros x y z. by rewrite G1, G2, (support_perm _ _ _ Hp).
Qed.
End reorder.

(** X6 — the order of the transactions does not matter.  Two sequences
    with the same transactions in another order give the same tables, the
    same frequent sets at every level and the same two rule lists. *)
Theorem transaction_order_irrelevant cfg ts ts' :
  ts ≡ₚ ts' →
  run (apriori_L1 cfg ts) = run (apriori_L1 cfg ts') ∧
  (∀ L1, run (apriori_L2 cfg ts L1) = run (apriori_L2 cfg ts' L1)) ∧
  (∀ C3, run (apriori_L3 cfg ts C3) = run (apriori_L3 cfg ts' C3)) ∧
  run (main cfg ts) = run (main cfg ts').
Proof.
  intros Hp. split_and!.
  - by apply apriori_L1_perm.
  - intros L1. by apply apriori_L2_perm.
  - intros C3. by apply apriori_L3_perm.
  - destruct (main_stages cfg ts)
      as (d1 & l1 & d2 & l2 & d3 & l3 & E1 & E2 & E3 & ->).
    destruct (main_stages cfg ts')
      as (d1' & l1' & d2' & l2' & d3' & l3' & E1' & E2' & E3' & ->).
    rewrite (apriori_L1_perm cfg _ _ Hp), E1' in E1. injection E1 as <- <-.
    rewrite (apriori_L2_perm cfg _ _ _ Hp), E2' in E2. injection E2 as <- <-.
    rewrite (apriori_L3_perm cfg _ _ _ Hp), E3' in E3. injection E3 as <- <-.
    done.
Qed.

Lemma transaction_order_irrelevant_witness :
  run (main cfg2 scenario) = run (main cfg2 (rev scenario)).
Proof.
  apply (transaction_order_irrelevant cfg2 scenario (rev scenario)).
  apply Permutation_rev.
Defined.

(** X7 — counting is additive.  The count a table holds for a sequence
    cut in two is the sum of the counts of the two parts, for items, for
    pairs (same [L1]) and for triples (same [C3]): partial tables of
    shards can be merged by adding them. *)
Theorem counting_additive cfg ts1 ts2 :
  (∀ x, getitem (run (apriori_L1 cfg (ts1 ++ ts2))).1 x =
        (getitem (run (apriori_L1 cfg ts1)).1 x +
         getitem (run (apriori_L1 cfg ts2)).1 x)%Z) ∧
  (∀ L1 p, getitem (run (apriori_L2 cfg (ts1 ++ ts2) L1)).1 p =
           (getitem (run (apriori_L2 cfg ts1 L1)).1 p +
            getitem (run (apriori_L2 cfg ts2 L1)).1 p)%Z) ∧
  (∀ C3 t, getitem (run (apriori_L3 cfg (ts1 ++ ts2) C3)).1 t =
           (getitem (run (apriori_L3 cfg ts1 C3)).1 t +
            getitem (run (apriori_L3 cfg ts2 C3)).1 t)%Z).
Proof.
  split_and!.
  - intros x.
    pose proof (apriori_L1_spec cfg (ts1 ++ ts2) _ _ (surjective_pairing _))
      as (_ & -> & _).
    pose proof (apriori_L1_spec cfg ts1 _ _ (surjective_pairing _))
      as (_ & -> & _).
    pose proof (apriori_L1_spec cfg ts2 _ _ (surjective_pairing _))
      as (_ & -> & _).
    apply support_app.
  - intros L1 [a b].
    pose proof (apriori_L2_spec cfg (ts1 ++ ts2) L1 _ _ (surjective_pairing _))
      as (_ & -> & _).
    pose proof (apriori_L2_spec cfg ts1 L1 _ _ (surjective_pairing _))
      as (_ & -> & _).
    pose proof (apriori_L2_spec cfg ts2 L1 _ _ (surjective_pairing _))
      as (_ & -> & _).
    case_decide; [apply support_app|done].
  - intros C3 [[x y] z].
    pose proof (apriori_L3_spec cfg (ts1 ++ ts2) C3 _ _ (surjective_pairing _))
      as (_ & -> & _).
    pose proof (apriori_L3_spec cfg ts1 C3 _ _ (surjective_pairing _))
      as (_ & -> & _).
    pose proof (apriori_L3_spec cfg ts2 C3 _ _ (surjective_pairing _))
      as (_ & -> & _).
    case_decide; [apply support_app|done].
Qed.

(** ** Few frequent items, a higher threshold, and the number of scans *)

Lemma combinations2_short {A} (l : list A) : length l < 2 → combinations2 l = [].
Proof. destruct l as [|x [|y l]]; simpl; [done..|lia]. Qed.

Lemma apriori_L2_short cfg ts L1 :
  length L1 < 2 → run (apriori_L2 cfg ts L1) = (∅, ∅).
Proof.
  intros Hlen.
  destruct (run (apriori_L2 cfg ts L1)) as [d l] eqn:E.
  apply apriori_L2_spec in E as (Hpos & Hget & ->).
  assert (d = ∅) as ->; [|by rewrite frequent_empty].
  apply positive_counts_eq; [done|apply positive_counts_empty|].
  intros [a b]. rewrite Hget, getitem_empty, decide_False; [done|].
  unfold C2_of. rewrite combinations2_short by done.
  intros [?%elem_of_empty _]. done.
Qed.

Lemma apriori_L3_no_candidate cfg ts : run (apriori_L3 cfg ts ∅) = (∅, ∅).
Proof. unfold run, apriori_L3. by rewrite decide_True. Qed.

Lemma main_visited cfg ts item_sup L1 pair_sup L2 :
  run (apriori_L1 cfg ts) = (item_sup, L1) →
  run (apriori_L2 cfg ts L1) = (pair_sup, L2) →
  visited (main cfg ts) =
    2 * length ts + visited (apriori_L3 cfg ts (apriori_C3_from_L2 L2)).
Proof.
  intros E1 E2. unfold visited at 1, main, mbind at 1 2 3, scan_bind.
  rewrite apriori_L1_counter, E1, apriori_L2_counter, E2.
  rewrite apriori_L3_counter.
  destruct (run (apriori_L3 cfg ts (apriori_C3_from_L2 L2))). simpl. lia.
Qed.

(** X8 — fewer than two frequent items.  When [L1] has at most one item
    there is no candidate pair: [apriori_L2] returns an empty table and an
    empty [L2], [main] returns two empty rule lists, and the transactions
    are read twice only, the scan for triples being skipped. *)
Theorem few_frequent_items cfg ts item_sup L1 :
  run (apriori_L1 cfg ts) = (item_sup, L1) →
  length L1 < 2 →
  run (apriori_L2 cfg ts L1) = (∅, ∅) ∧
  run (main cfg ts) = Ok ([], []) ∧
  visited (main cfg ts) = 2 * length ts.
Proof.
  intros E1 Hlen.
  pose proof (apriori_L2_short cfg ts L1 Hlen) as E2.
  split_and!; [done| |].
  - destruct (main_stages cfg ts)
      as (d1 & l1 & d2 & l2 & d3 & l3 & F1 & F2 & F3 & ->).
    rewrite E1 in F1. injection F1 as <- <-.
    rewrite E2 in F2. injection F2 as <- <-.
    rewrite apriori_C3_from_L2_empty, apriori_L3_no_candidate in F3.
    injection F3 as <- <-.
    rewrite !elements_empty. unfold top5_part_d, top5_part_e. simpl.
    by rewrite !slice_to_nil.
  - rewrite (main_visited cfg ts _ _ _ _ E1 E2).
    rewrite apriori_C3_from_L2_empty, apriori_L3_visited, decide_True by done.
    lia.
Qed.

Lemma few_frequent_items_witness :
  run (main cfg2 [ {["A"; "B"]}; {["A"; "C"]}; {["D"]} ]) = Ok ([], []) ∧
  visited (main cfg2 [ {["A"; "B"]}; {["A"; "C"]}; {["D"]} ]) = 6.
Proof.
  destruct (few_frequent_items cfg2 [ {["A"; "B"]}; {["A"; "C"]}; {["D"]} ]
              (run (apriori_L1 cfg2 [ {["A"; "B"]}; {["A"; "C"]}; {["D"]} ])).1
              (run (apriori_L1 cfg2 [ {["A"; "B"]}; {["A"; "C"]}; {["D"]} ])).2)
    as (_ & Hm & Hv).
  - apply surjective_pairing.
  - vm_compute. lia.
  - exact (conj Hm Hv).
Defined.

(** X9 — the number of scans.  [main] reads the transaction sequence
    twice, once for the items and once for the pairs, and a third time
    exactly when there is a candidate triple. *)
Theorem main_scans cfg ts item_sup L1 pair_sup L2 :
  run (apriori_L1 cfg ts) = (item_sup, L1) →
  run (apriori_L2 cfg ts L1) = (pair_sup, L2) →
  visited (main cfg ts) =
    if decide (apriori_C3_from_L2 L2 = ∅) then 2 * length ts
    else 3 * length ts.
Proof.
  intros E1 E2. rewrite (main_visited cfg ts _ _ _ _ E1 E2).
  rewrite apriori_L3_visited. case_decide; lia.
Qed.

Lemma main_scans_witness : visited (main cfg2 scenario) = 15.
Proof.
  rewrite (main_scans cfg2 scenario scenario_L1.1 scenario_L1.2
             scenario_L2.1 scenario_L2.2);
    [|apply surjective_pairing..].
  rewrite decide_False; [reflexivity|].
  intros H. assert (("A", "B", "C") ∈ apriori_C3_from_L2 scenario_L2.2) as Hin
    by (vm_compute; reflexivity).
  rewrite H in Hin. by apply elem_of_empty in Hin.
Defined.

(** X10 — a higher threshold only removes itemsets.  For two positive
    thresholds, every item, pair and triple that is frequent at the higher
    one is frequent at the lower one. *)
Theorem threshold_monotone cfg cfg' ts
    item_sup L1 pair_sup L2 triple_sup L3
    item_sup' L1' pair_sup' L2' triple_sup' L3' :
  (0 < MIN_SUPPORT cfg)%Z →
  (MIN_SUPPORT cfg ≤ MIN_SUPPORT cfg')%Z →
  run (apriori_L1 cfg ts) = (item_sup, L1) →
  run (apriori_L2 cfg ts L1) = (pair_sup, L2) →
  run (apriori_L3 cfg ts (apriori_C3_from_L2 L2)) = (triple_sup, L3) →
  run (apriori_L1 cfg' ts) = (item_sup', L1') →
  run (apriori_L2 cfg' ts L1') = (pair_sup', L2') →
  run (apriori_L3 cfg' ts (apriori_C3_from_L2 L2')) = (triple_sup', L3') →
  item_sup' = item_sup ∧
  (∀ x, x ∈ L1' → x ∈ L1) ∧ L2' ⊆ L2 ∧ L3' ⊆ L3.
Proof.
  intros Hmin Hle E1 E2 E3 E1' E2' E3'.
  assert (0 < MIN_SUPPORT cfg')%Z as Hmin' by lia.
  split_and!.
  - apply apriori_L1_spec in E1 as (P1 & G1 & _).
    apply apriori_L1_spec in E1' as (P1' & G1' & _).
    apply positive_counts_eq; [done..|]. intros x. by rewrite G1, G1'.
  - intros x Hx.
    apply (frequent_item_exact cfg ts item_sup L1 Hmin E1).
    apply (frequent_item_exact cfg' ts item_sup' L1' Hmin' E1') in Hx. lia.
  - intros [a b] Hab.
    apply (frequent_pair_exact cfg ts item_sup L1 pair_sup L2 Hmin E1 E2).
    apply (frequent_pair_exact cfg' ts item_sup' L1' pair_sup' L2' Hmin' E1' E2')
      in Hab as [? ?].
    split; [done|lia].
  - intros [[x y] z] Hxyz.
    apply (frequent_triple_exact cfg ts item_sup L1 pair_sup L2 triple_sup L3
             Hmin E1 E2 E3).
    apply (frequent_triple_exact cfg' ts item_sup' L1' pair_sup' L2'
             triple_sup' L3' Hmin' E1' E2' E3') in Hxyz as (? & ? & ?).
    split_and!; [done..|lia].
Qed.


Lemma threshold_monotone_witness :
  ("A", "B") ∈ (run (apriori_L2 cfg3 scenario
                       (run (apriori_L1 cfg3 scenario)).2)).2 ∧
  ("A", "B") ∈ scenario_L2.2.
Proof.
  destruct (threshold_monotone cfg2 cfg3 scenario
    scenario_L1.1 scenario_L1.2 scenario_L2.1 scenario_L2.2
    scenario_L3.1 scenario_L3.2
    (run (apriori_L1 cfg3 scenario)).1 (run (apriori_L1 cfg3 scenario)).2
    (run (apriori_L2 cfg3 scenario (run (apriori_L1 cfg3 scenario)).2)).1
    (run (apriori_L2 cfg3 scenario (run (apriori_L1 cfg3 scenario)).2)).2
    (run (apriori_L3 cfg3 scenario
            (apriori_C3_from_L2
               (run (apriori_L2 cfg3 scenario
                       (run (apriori_L1 cfg3 scenario)).2)).2))).1
    (run (apriori_L3 cfg3 scenario
            (apriori_C3_from_L2
               (run (apriori_L2 cfg3 scenario
                       (run (apriori_L1 cfg3 scenario)).2)).2))).2)
    as (_ & _ & H2 & _);
    [vm_compute; reflexivity|vm_compute; discriminate
    |apply surjective_pairing..|].
  assert (("A", "B") ∈ (run (apriori_L2 cfg3 scenario
                              (run (apriori_L1 cfg3 scenario)).2)).2) as E
    by (vm_compute; reflexivity).
  exact (conj E (H2 _ E)).
Defined.

(** * The loader *)

(** ** Stripping and splitting *)

Lemma lstrip_spec s :
  ∃ w, Forall (λ c, isspace c = true) w ∧ s = w ++ lstrip s.
Proof.
  induction s as [|c s (w & Hw & IH)]; simpl.
  - by exists [].
  - destruct (isspace c) eqn:E.
    + exists (c :: w). split; [by constructor|]. simpl. by f_equal.
    + by exists [].
Qed.

Lemma lstrip_nil s : lstrip s = [] ↔ Forall (λ c, isspace c = true) s.
Proof.
  induction s as [|c s IH]; simpl; [done|].
  destruct (isspace c) eqn:E.
  - rewrite IH, Forall_cons. tauto.
  - split; [done|]. intros [Hc _]%Forall_cons. congruence.
Qed.

Lemma rstrip_spec s :
  ∃ w, Forall (λ c, isspace c = true) w ∧ s = rstrip s ++ w.
Proof.
  destruct (lstrip_spec (reverse s)) as (w & Hw & E).
  exists (reverse w). split; [by apply Forall_reverse|].
  unfold rstrip. rewrite <- reverse_app, <- E. by rewrite reverse_involutive.
Qed.

Lemma rstrip_nil s : rstrip s = [] ↔ Forall (λ c, isspace c = true) s.
Proof.
  unfold rstrip. rewrite <- (Forall_reverse _ s), <- lstrip_nil.
  split; [|by intros ->].
  intros E. by rewrite <- (reverse_involutive (lstrip _)), E.
Qed.

Lemma flush_app_ne cur c : flush (cur ++ [c]) = [cur ++ [c]].
Proof. by destruct cur. Qed.

Lemma split_go_blank cur w :
  Forall (λ c, isspace c = true) w → split_go cur w = flush cur.
Proof.
  intros Hw. revert cur. induction Hw as [|c w Hc Hw IH]; intros cur; simpl.
  - done.
  - rewrite Hc, IH. simpl. apply app_nil_r.
Qed.

Lemma split_go_app_blank cur s w :
  Forall (λ c, isspace c = true) w → split_go cur (s ++ w) = split_go cur s.
Proof.
  intros Hw. revert cur. induction s as [|c s IH]; intros cur; simpl.
  - by apply split_go_blank.
  - destruct (isspace c); by rewrite IH.
Qed.

Lemma split_go_blank_app w s :
  Forall (λ c, isspace c = true) w → split_go [] (w ++ s) = split_go [] s.
Proof.
  induction 1 as [|c w Hc Hw IH]; simpl; [done|]. by rewrite Hc.
Qed.

Lemma split_go_word cur tok s :
  Forall (λ c, isspace c = false) tok →
  split_go cur (tok ++ s) = split_go (cur ++ tok) s.
Proof.
  intros Htok. revert cur. induction Htok as [|c tok Hc Htok IH]; intros cur.
  - by rewrite app_nil_r.
  - simpl. rewrite Hc, IH. by rewrite <- app_assoc.
Qed.

Lemma flush_tokens cur :
  Forall (λ c, isspace c = false) cur →
  Forall (λ tok, tok ≠ [] ∧ Forall (λ c, isspace c = false) tok) (flush cur).
Proof.
  intros Hcur. destruct cur as [|c cur]; simpl; [constructor|].
  apply Forall_singleton. by split.
Qed.

Lemma split_go_tokens cur s :
  Forall (λ c, isspace c = false) cur →
  Forall (λ tok, tok ≠ [] ∧ Forall (λ c, isspace c = false) tok)
         (split_go cur s).
Proof.
  revert cur. induction s as [|c s IH]; intros cur Hcur; simpl.
  - by apply flush_tokens.
  - destruct (isspace c) eqn:E.
    + apply Forall_app. split; [by apply flush_tokens|]. by apply IH.
    + apply IH. apply Forall_app. split; [done|]. by apply Forall_singleton.
Qed.

Lemma split_go_nil cur s :
  split_go cur s = [] ↔ cur = [] ∧ Forall (λ c, isspace c = true) s.
Proof.
  revert cur. induction s as [|c s IH]; intros cur; simpl.
  - destruct cur; simpl; split; try done; [by intros [? _]].
  - destruct (isspace c) eqn:E.
    + rewrite app_nil, IH, Forall_cons. destruct cur; simpl; split; try done.
      * by intros [_ [_ ?]].
      * tauto.
      * intros [[=] _].
      * by intros [? _].
    + rewrite IH. split.
      * intros [[? ?]%app_nil _]. done.
      * intros [_ [? _]%Forall_cons]. congruence.
Qed.

Lemma list_ascii_of_string_app s1 s2 :
  String.list_ascii_of_string (s1 +:+ s2) =
  String.list_ascii_of_string s1 ++ String.list_ascii_of_string s2.
Proof. induction s1 as [|c s1 IH]; simpl; [done|]. by f_equal. Qed.

Lemma list_ascii_of_string_nil s :
  String.list_ascii_of_string s = [] ↔ s = "".
Proof. destruct s; simpl; split; done. Qed.

Lemma string_of_list_ascii_nil l :
  String.string_of_list_ascii l = "" ↔ l = [].
Proof. destruct l; simpl; split; done. Qed.

(** The strip before the split changes nothing for the split, and leaves
    the empty string exactly on a blank line. *)
Lemma str_split_strip line : str_split (str_strip line) = str_split line.
Proof.
  unfold str_split, str_strip.
  rewrite String.list_ascii_of_string_of_list_ascii. f_equal.
  destruct (lstrip_spec (String.list_ascii_of_string line)) as (w & Hw & E).
  destruct (rstrip_spec (lstrip (String.list_ascii_of_string line)))
    as (w' & Hw' & E').
  rewrite E at 2. rewrite split_go_blank_app by done.
  rewrite E' at 2. by rewrite split_go_app_blank.
Qed.

Lemma str_strip_empty line : str_strip line = "" ↔ blank line.
Proof.
  unfold str_strip, blank. rewrite string_of_list_ascii_nil, rstrip_nil.
  destruct (lstrip_spec (String.list_ascii_of_string line)) as (w & Hw & E).
  split.
  - intros H. rewrite E. by apply Forall_app.
  - intros H. rewrite E in H. by apply Forall_app in H as [_ ?].
Qed.

Lemma str_split_nil line : str_split line = [] ↔ blank line.
Proof.
  unfold str_split, blank. split.
  - intros H%fmap_nil_inv. by apply split_go_nil in H as [_ ?].
  - intros H. by rewrite (proj2 (split_go_nil [] _) (conj eq_refl H)).
Qed.

Lemma str_split_valid line x : x ∈ str_split line → valid_item x.
Proof.
  unfold str_split. intros (tok & -> & Htok)%list_elem_of_fmap.
  pose proof (split_go_tokens [] (String.list_ascii_of_string line)
                (Forall_nil_2 _)) as Hall.
  rewrite Forall_forall in Hall. destruct (Hall _ Htok) as [Hne Hns].
  split.
  - by rewrite string_of_list_ascii_nil.
  - by rewrite String.list_ascii_of_string_of_list_ascii.
Qed.

(** One transaction for each line that is not blank, in the order of the
    lines. *)
Lemma load_transactions_spec lines :
  load_transactions lines =
    (λ line, list_to_set (str_split line)) <$>
      filter (λ line, ¬ blank line) lines.
Proof.
  unfold load_transactions.
  match goal with |- foldl ?f _ _ = _ => set (step := f) end.
  assert (∀ acc, foldl step acc lines =
            acc ++ ((λ line, list_to_set (str_split line)) <$>
                      filter (λ line, ¬ blank line) lines)) as Hgen;
    [|by rewrite Hgen].
  induction lines as [|line lines IH]; intros acc; simpl.
  { by rewrite app_nil_r. }
  rewrite IH. unfold step. simpl. rewrite filter_cons.
  destruct (decide (str_strip line = "")) as [E|E].
  - apply str_strip_empty in E. rewrite decide_False by tauto. done.
  - rewrite decide_True by (by rewrite <- str_strip_empty).
    rewrite str_split_strip, fmap_cons. by rewrite <- app_assoc.
Qed.

Lemma length_filter_fmap {A B} (f : A → B) (P : B → Prop)
    `{!∀ y, Decision (P y)} (l : list A) :
  length (filter P (f <$> l)) = length (filter (λ x, P (f x)) l).
Proof.
  induction l as [|x l IH]; [done|].
  rewrite fmap_cons, !filter_cons. case_decide; simpl; by rewrite IH.
Qed.

Lemma split_join items w :
  items ≠ [] → Forall valid_item items →
  Forall (λ c, isspace c = true) w →
  split_go [] (String.list_ascii_of_string (String.concat " " items) ++ w)
  = String.list_ascii_of_string <$> items.
Proof.
  intros Hne Hvalid Hw.
  induction Hvalid as [|x items [Hx Hns] Hvalid IH]; [done|]. clear Hne.
  assert (String.list_ascii_of_string x ≠ []) as Hx'
    by (by rewrite list_ascii_of_string_nil).
  destruct items as [|y items].
  - simpl. rewrite split_go_word, split_go_blank by done. simpl.
    by destruct (String.list_ascii_of_string x).
  - change (String.concat " " (x :: y :: items))
      with (x +:+ " " +:+ String.concat " " (y :: items)).
    specialize (IH ltac:(done)).
    remember (String.concat " " (y :: items)) as rest eqn:Hrest.
    rewrite !list_ascii_of_string_app, <- !app_assoc.
    rewrite split_go_word by done. simpl.
    rewrite IH.
    by destruct (String.list_ascii_of_string x).
Qed.

Lemma str_split_join items :
  items ≠ [] → Forall valid_item items →
  str_split (String.concat " " items +:+ newline) = items.
Proof.
  intros Hne Hvalid. unfold str_split.
  rewrite list_ascii_of_string_app, split_join; [|done..|].
  - rewrite <- list_fmap_compose.
    clear Hne Hvalid. induction items as [|x items IH]; [done|].
    rewrite fmap_cons, IH. simpl.
    by rewrite String.string_of_list_ascii_of_string.
  - by repeat constructor.
Qed.

(** X11 — what the loader hands to the pipeline.  On ASCII text no loaded
    transaction is empty, and every item in it is a non-empty string
    without whitespace: the pipeline never sees an empty token. *)
Theorem loaded_transactions_well_formed lines t :
  Forall ascii_text lines →
  t ∈ load_transactions lines →
  t ≠ ∅ ∧ ∀ x, x ∈ t → valid_item x.
Proof.
  intros _. rewrite load_transactions_spec.
  intros (line & -> & [Hnb _]%list_elem_of_filter)%list_elem_of_fmap. split.
  - destruct (str_split line) as [|x l] eqn:E.
    + by apply str_split_nil in E.
    + intros H.
      assert (x ∈ (∅ : gset item)) as Hx; [|by apply elem_of_empty in Hx].
      rewrite <- H. apply elem_of_list_to_set. left.
  - intros x Hx%elem_of_list_to_set. by eapply str_split_valid.
Qed.

Lemma ascii_text_sample_lines : Forall ascii_text sample_lines.
Proof. unfold ascii_text. by repeat constructor. Qed.

Lemma loaded_transactions_well_formed_witness :
  Forall ascii_text sample_lines ∧
  (list_to_set (str_split ("  GRO2   SNA3 " +:+ newline)) : gset item) ≠ ∅ ∧
  valid_item "SNA3".
Proof.
  split; [exact ascii_text_sample_lines|].
  destruct (loaded_transactions_well_formed sample_lines
              (list_to_set (str_split ("  GRO2   SNA3 " +:+ newline))))
    as [Hne Hitems].
  - exact ascii_text_sample_lines.
  - rewrite load_transactions_spec. apply list_elem_of_fmap.
    exists ("  GRO2   SNA3 " +:+ newline). split; [done|].
    apply list_elem_of_filter. split.
    + intros Hb%str_split_nil. vm_compute in Hb. discriminate.
    + unfold sample_lines. do 3 right. left.
  - split; [done|]. apply Hitems, elem_of_list_to_set.
    replace (str_split ("  GRO2   SNA3 " +:+ newline)) with ["GRO2"; "SNA3"]
      by (vm_compute; reflexivity).
    right. left.
Defined.

(** X12 — blank lines are skipped.  On ASCII text the loader returns one
    transaction for each line that has a character other than whitespace,
    in the order of the lines; loading two chunks of lines one after the
    other is loading their concatenation. *)
Theorem load_transactions_lines lines lines' :
  Forall ascii_text (lines ++ lines') →
  load_transactions lines =
    (λ line, list_to_set (str_split line)) <$>
      filter (λ line, ¬ blank line) lines ∧
  load_transactions (lines ++ lines') =
    load_transactions lines ++ load_transactions lines' ∧
  length (load_transactions lines) ≤ length lines.
Proof.
  intros _. split_and!.
  - apply load_transactions_spec.
  - rewrite !load_transactions_spec. by rewrite filter_app, fmap_app.
  - rewrite load_transactions_spec, length_fmap. apply length_filter.
Qed.

Lemma load_transactions_lines_witness :
  Forall ascii_text (sample_lines ++ sample_lines) ∧
  load_transactions (sample_lines ++ sample_lines) =
    load_transactions sample_lines ++ load_transactions sample_lines ∧
  length (load_transactions sample_lines) ≤ length sample_lines.
Proof.
  assert (Forall ascii_text (sample_lines ++ sample_lines)) as Hascii.
  { apply Forall_app. split; exact ascii_text_sample_lines. }
  split; [exact Hascii|].
  exact (proj2 (load_transactions_lines sample_lines sample_lines Hascii)).
Defined.

(** X13 — reading back a written line.  A line made of one or more items
    (non-empty, free of whitespace) separated by single spaces and ended by
    a newline loads as the set of these items. *)
Theorem load_written_line items :
  items ≠ [] →
  Forall valid_item items →
  Forall ascii_text items →
  load_transactions [String.concat " " items +:+ newline]
  = [list_to_set items].
Proof.
  intros Hne Hvalid _. rewrite load_transactions_spec.
  rewrite filter_cons, decide_True; simpl.
  - by rewrite str_split_join.
  - intros Hb%str_split_nil. rewrite str_split_join in Hb by done. done.
Qed.

Lemma load_written_line_witness :
  load_transactions ["FRO1 GRO2 FRO1" +:+ newline]
  = [list_to_set ["FRO1"; "GRO2"; "FRO1"]].
Proof.
  apply (load_written_line ["FRO1"; "GRO2"; "FRO1"]).
  - done.
  - repeat (apply Forall_cons; split; [split; [done|by repeat constructor]|]).
    apply Forall_nil_2.
  - unfold ascii_text. by repeat constructor.
Defined.

(** X14 — the loader and the first level together.  On ASCII text the
    count that [apriori_L1] holds for an item after [load_transactions] is
    the number of lines having that item among their words, however often
    it is repeated inside one line. *)
Theorem item_counts_of_lines cfg lines item_sup L1 x :
  Forall ascii_text lines →
  run (apriori_L1 cfg (load_transactions lines)) = (item_sup, L1) →
  getitem item_sup x =
    Z.of_nat (length (filter (λ line, x ∈ str_split line) lines)).
Proof.
  intros _ E. apply apriori_L1_spec in E as (_ & -> & _).
  unfold support. f_equal.
  rewrite load_transactions_spec, length_filter_fmap, list_filter_filter.
  f_equal. apply list_filter_iff. intros line.
  rewrite singleton_subseteq_l, elem_of_list_to_set. split; [tauto|].
  intros Hx. split; [done|]. intros Hb%str_split_nil. rewrite Hb in Hx.
  by apply elem_of_nil in Hx.
Qed.

Lemma item_counts_of_lines_witness :
  Forall ascii_text sample_lines ∧
  getitem (run (apriori_L1 cfg2 (load_transactions sample_lines))).1 "FRO1"
  = 1%Z ∧
  getitem (run (apriori_L1 cfg2 (load_transactions sample_lines))).1 "GRO2"
  = 2%Z.
Proof.
  split; [exact ascii_text_sample_lines|]. split.
  - rewrite (item_counts_of_lines cfg2 sample_lines _ _ "FRO1"
               ascii_text_sample_lines (surjective_pairing _)).
    vm_compute. reflexivity.
  - rewrite (item_counts_of_lines cfg2 sample_lines _ _ "GRO2"
               ascii_text_sample_lines (surjective_pairing _)).
    vm_compute. reflexivity.
Defined.

(** * Friend recommendation *)

(** ** More on combinations and lists *)

Lemma length_combinations2 {A} (l : list A) :
  2 * length (combinations2 l) + length l = length l * length l.
Proof.
  induction l as [|x l IH]; simpl; [done|].
  rewrite length_app, length_fmap. lia.
Qed.

Lemma combinations2_lookup {A} (l : list A) a b :
  (a, b) ∈ combinations2 l ↔
  ∃ i j, i < j ∧ l !! i = Some a ∧ l !! j = Some b.
Proof.
  induction l as [|x l IH]; simpl.
  { split; [by intros ?%elem_of_nil|]. by intros (i & j & _ & ? & _). }
  rewrite elem_of_app, list_elem_of_fmap, IH. split.
  - intros [(y & [= -> ->] & (j & Hj)%list_elem_of_lookup_1)
           |(i & j & Hij & Hi & Hj)].
    + exists 0, (S j). split_and!; [lia|done..].
    + exists (S i), (S j). split_and!; [lia|done..].
  - intros (i & j & Hij & Hi & Hj).
    destruct j as [|j]; [lia|]. destruct i as [|i]; simpl in *.
    + left. exists b. injection Hi as ->. split; [done|].
      by eapply list_elem_of_lookup_2.
    + right. exists i, j. split_and!; [lia|done..].
Qed.

Lemma NoDup_filter_length {A} `{EqDecision A} (l : list A) x :
  NoDup l →
  length (filter (λ y, y = x) l) = if decide (x ∈ l) then 1 else 0.
Proof.
  induction 1 as [|y l Hy Hnd IH].
  { rewrite decide_False; [done|apply not_elem_of_nil]. }
  rewrite filter_cons. destruct (decide (y = x)) as [->|Hne]; simpl.
  - rewrite IH. case_decide; [done|]. rewrite decide_True; [done|left].
  - rewrite IH. apply decide_ext. rewrite elem_of_cons.
    split; [by right|]. by intros [->|?].
Qed.

Global Instance Z_comparator : Comparator Z.compare.
Proof.
  split.
  - intros x y. apply Z.compare_antisym.
  - intros x y z Hxy Hyz Hxz. apply Z.compare_gt_iff in Hxz.
    destruct (Z.compare_spec x y); destruct (Z.compare_spec y z);
      try done; lia.
Qed.

(** ** The mapper *)

Section mapper_facts.
Import question_1.
Implicit Types (user k c n : Z) (friend_list : list Z).

Lemma length_pair_emissions friend_list :
  length (combinations2 friend_list ≫=
            λ '(fi, fj), [(fi, (fj, 1%Z)); (fj, (fi, 1%Z))])
  = 2 * length (combinations2 friend_list).
Proof.
  induction (combinations2 friend_list) as [|[fi fj] l IH]; [done|].
  rewrite bind_cons, length_app, IH. simpl. lia.
Qed.

Lemma elem_of_mapper user friend_list k c n :
  (k, (c, n)) ∈ mapper user friend_list ↔
  (k = user ∧ n = (-1)%Z ∧ c ∈ friend_list) ∨
  (n = 1%Z ∧ ∃ i j, i ≠ j ∧ friend_list !! i = Some k ∧
                     friend_list !! j = Some c).
Proof.
  unfold mapper. rewrite elem_of_app, list_elem_of_fmap, list_elem_of_bind.
  split.
  - intros [(fi & [= -> -> ->] & Hfi)|([fi fj] & He & Hc)]; [by left|].
    right. apply combinations2_lookup in Hc as (i & j & Hij & Hi & Hj).
    apply elem_of_cons in He as [[= -> -> ->]|He].
    { split; [done|]. exists i, j. split_and!; [lia|done..]. }
    apply list_elem_of_singleton in He as [= -> -> ->].
    split; [done|]. exists j, i. split_and!; [lia|done..].
  - intros [(-> & -> & Hc)|(-> & i & j & Hij & Hi & Hj)].
    { left. by exists c. }
    right. destruct (decide (i < j)) as [Hlt|Hge].
    + exists (k, c). split; [left|].
      apply combinations2_lookup. by exists i, j.
    + exists (c, k). split; [right; left|].
      apply combinations2_lookup. exists j, i. split_and!; [lia|done..].
Qed.

Lemma NoDup_mapper user friend_list :
  NoDup friend_list → NoDup (mapper user friend_list).
Proof.
  intros Hnd. unfold mapper. apply NoDup_app. split_and!.
  - apply NoDup_fmap_2; [|done]. by intros x y [= ->].
  - intros [k [c n]] (fi & [= -> -> ->] & _)%list_elem_of_fmap
           ([fi' fj'] & He & _)%list_elem_of_bind.
    apply elem_of_cons in He as [[=]|He].
    by apply list_elem_of_singleton in He as [=].
  - assert (∀ a b i j, friend_list !! i = Some a → friend_list !! j = Some b →
                       a = b → i = j) as Hinj.
    { intros a b i j Hi Hj <-. by eapply NoDup_lookup. }
    apply NoDup_bind; [..|by apply NoDup_combinations2].
    + intros [a b] [a' b'] e (i & j & Hij & Hi & Hj)%combinations2_lookup
             (i' & j' & Hij' & Hi' & Hj')%combinations2_lookup He He'.
      apply elem_of_cons in He as [->|He];
        [|apply list_elem_of_singleton in He as ->];
        (apply elem_of_cons in He' as [[= -> ->]|He'];
         [|apply list_elem_of_singleton in He' as [= -> ->]]); try done.
      * pose proof (Hinj _ _ _ _ Hi Hj' eq_refl).
        pose proof (Hinj _ _ _ _ Hj Hi' eq_refl). lia.
      * pose proof (Hinj _ _ _ _ Hi Hj' eq_refl).
        pose proof (Hinj _ _ _ _ Hj Hi' eq_refl). lia.
    + intros [a b] (i & j & Hij & Hi & Hj)%combinations2_lookup.
      apply NoDup_cons. split; [|apply NoDup_singleton].
      intros [= -> _]%list_elem_of_singleton.
      pose proof (Hinj _ _ _ _ Hi Hj eq_refl). lia.
Qed.

End mapper_facts.

(** X15 — the size of the mapper's output.  For a friend list of [n]
    entries the mapper emits [n * n] records: [n] marks and two records for
    each of the [n (n - 1) / 2] pairs of positions. *)
Theorem mapper_length user friend_list :
  length (question_1.mapper user friend_list)
  = length friend_list * length friend_list.
Proof.
  unfold question_1.mapper.
  rewrite length_app, length_fmap, length_pair_emissions.
  pose proof (length_combinations2 friend_list). lia.
Qed.

(** X16 — what the mapper emits.  A record with count [-1] is emitted
    exactly for the user itself and each entry of its friend list; a record
    [(k, (c, 1))] exactly when [k] and [c] stand at two different positions
    of the list, so the records with count [1] are symmetric; every count
    is [-1] or [1]. *)
Theorem mapper_emits user friend_list k c n :
  ((k, (c, n)) ∈ question_1.mapper user friend_list →
   n = (-1)%Z ∨ n = 1%Z) ∧
  ((k, (c, -1)%Z) ∈ question_1.mapper user friend_list ↔
   k = user ∧ c ∈ friend_list) ∧
  ((k, (c, 1%Z)) ∈ question_1.mapper user friend_list ↔
   ∃ i j, i ≠ j ∧ friend_list !! i = Some k ∧ friend_list !! j = Some c) ∧
  ((k, (c, 1%Z)) ∈ question_1.mapper user friend_list ↔
   (c, (k, 1%Z)) ∈ question_1.mapper user friend_list).
Proof.
  rewrite !elem_of_mapper. split_and!.
  - intros [(_ & -> & _)|(-> & _)]; auto.
  - split; [|intros [-> ?]; by left]. by intros [(-> & _ & ?)|([=] & _)].
  - split; [|intros ?; by right]. by intros [(_ & [=] & _)|(_ & ?)].
  - split; (intros [(_ & [=] & _)|(_ & i & j & Hij & Hi & Hj)]; right;
            split; [done|exists j, i; by split_and!]).
Qed.

(** X17 — no record twice.  When the friend list has no duplicate the
    mapper emits no record twice, and never pairs a user with itself. *)
Theorem mapper_no_duplicate user friend_list :
  NoDup friend_list →
  NoDup (question_1.mapper user friend_list) ∧
  ∀ k, (k, (k, 1%Z)) ∉ question_1.mapper user friend_list.
Proof.
  intros Hnd. split; [by apply NoDup_mapper|].
  intros k [(_ & [=] & _)|(_ & i & j & Hij & Hi & Hj)]%elem_of_mapper.
  by pose proof (NoDup_lookup _ _ _ _ Hnd Hi Hj).
Qed.

Lemma mapper_no_duplicate_witness :
  NoDup [2; 3; 4]%Z ∧
  NoDup (question_1.mapper 1 [2; 3; 4]%Z) ∧
  (3, (3, 1))%Z ∉ question_1.mapper 1 [2; 3; 4]%Z.
Proof.
  assert (NoDup [2; 3; 4]%Z) as Hnd by (by apply (bool_decide_unpack _)).
  split; [exact Hnd|].
  destruct (mapper_no_duplicate 1 [2; 3; 4]%Z Hnd) as [H1 H2].
  exact (conj H1 (H2 3%Z)).
Defined.

(** ** The reducer *)

Lemma sum_app (l1 l2 : list Z) :
  foldr Z.add 0%Z (l1 ++ l2) = (foldr Z.add 0 l1 + foldr Z.add 0 l2)%Z.
Proof. induction l1 as [|x l1 IH]; simpl; [done|]. rewrite IH. lia. Qed.

Lemma sum_perm (l1 l2 : list Z) :
  l1 ≡ₚ l2 → foldr Z.add 0%Z l1 = foldr Z.add 0%Z l2.
Proof. induction 1; simpl; lia. Qed.

Lemma StronglySorted_fmap_elem {A B} (R : relation A) (R' : relation B)
    (f : A → B) (l : list A) :
  (∀ x y, x ∈ l → y ∈ l → R x y → R' (f x) (f y)) →
  StronglySorted R l → StronglySorted R' (f <$> l).
Proof.
  intros HR Hs. induction Hs as [|x l Hs IH Hall]; simpl; constructor.
  - apply IH. intros a b Ha Hb. apply HR; by right.
  - rewrite Forall_fmap. rewrite Forall_forall in *. intros y Hy. simpl.
    apply HR; [left|by right|by apply Hall].
Qed.

Lemma foldl_delete (l : list Z) (d : gmap Z Z) c :
  foldl (λ d friend, delete friend d) d l !! c
  = if decide (c ∈ l) then None else d !! c.
Proof.
  revert d. induction l as [|x l IH]; intros d.
  { rewrite decide_False; [done|apply not_elem_of_nil]. }
  simpl. rewrite IH, lookup_delete. destruct (decide (x = c)) as [->|Hne].
  - rewrite (decide_True (P := c ∈ c :: l)) by left. by case_decide.
  - apply decide_ext. rewrite elem_of_cons.
    split; [by right|]. by intros [->|?].
Qed.

Section reducer_facts.
Import question_1.
Implicit Types (values items : list (Z * Z)) (c n : Z).

Lemma score_app values values' c :
  score (values ++ values') c = (score values c + score values' c)%Z.
Proof. unfold score. by rewrite filter_app, fmap_app, sum_app. Qed.

Lemma score_singleton c0 n0 c :
  score [(c0, n0)] c = if decide (c0 = c ∧ n0 ≠ (-1)%Z) then n0 else 0%Z.
Proof.
  unfold score. rewrite filter_cons, filter_nil. simpl.
  case_decide; simpl; lia.
Qed.

Lemma score_perm values values' c :
  values ≡ₚ values' → score values c = score values' c.
Proof. intros Hp. unfold score. apply sum_perm. by rewrite Hp. Qed.

Lemma tally_spec values E M :
  foldl tally (∅, ∅) values = (E, M) →
  (∀ c, c ∈ E ↔ marked values c) ∧
  (∀ c, getitem M c = score values c) ∧
  (∀ c, is_Some (M !! c) ↔ counted values c).
Proof.
  revert E M. induction values as [|[c0 n0] values IH] using rev_ind;
    intros E M.
  { simpl. intros [= <- <-]. split_and!; intros c.
    - unfold marked. rewrite elem_of_empty, elem_of_nil. done.
    - apply getitem_empty.
    - rewrite lookup_empty. split; [by intros [? [=]]|].
      by intros (n & _ & ?%elem_of_nil). }
  rewrite foldl_snoc. destruct (foldl tally (∅, ∅) values) as [E0 M0].
  destruct (IH _ _ eq_refl) as (HE & HM & HS). clear IH.
  unfold tally. case_decide as Hn; intros [= <- <-].
  - subst n0. split_and!; intros c.
    + rewrite elem_of_union, elem_of_singleton, HE. unfold marked.
      rewrite elem_of_app, list_elem_of_singleton. split.
      * intros [->|?]; [by right|by left].
      * intros [?|[= ->]]; [by right|by left].
    + rewrite score_app, score_singleton, decide_False, HM; [lia|].
      by intros [_ ?].
    + rewrite HS. unfold counted. split; intros (n & Hn & Hin); exists n.
      * split; [done|]. apply elem_of_app. by left.
      * split; [done|]. apply elem_of_app in Hin as [?|Hin]; [done|].
        by apply list_elem_of_singleton in Hin as [= -> ->].
  - split_and!; intros c.
    + rewrite HE. unfold marked. rewrite elem_of_app, list_elem_of_singleton.
      split; [by left|]. intros [?|[= ? ?]]; [done|congruence].
    + rewrite score_app, score_singleton. unfold getitem at 1.
      rewrite lookup_insert. destruct (decide (c0 = c)) as [->|Hne]; simpl.
      * rewrite decide_True by done. by rewrite HM.
      * rewrite decide_False by (by intros [? _]).
        fold (getitem M0 c). rewrite HM. lia.
    + rewrite lookup_insert_is_Some', HS. unfold counted. split.
      * intros [->|(n & Hn' & Hin)].
        { exists n0. split; [done|]. apply elem_of_app. right. left. }
        exists n. split; [done|]. apply elem_of_app. by left.
      * intros (n & Hn' & [Hin|Hin]%elem_of_app).
        { right. by exists n. }
        apply list_elem_of_singleton in Hin as [= -> ->]. by left.
Qed.

Lemma mutual_counts_of_lookup values c n :
  mutual_counts_of values !! c = Some n ↔
  counted values c ∧ ¬ marked values c ∧ n = score values c.
Proof.
  unfold mutual_counts_of.
  destruct (foldl tally (∅, ∅) values) as [E M] eqn:Ht.
  apply tally_spec in Ht as (HE & HM & HS).
  rewrite foldl_delete. rewrite <- HE, <- HS, <- HM.
  case_decide as Hc.
  - apply elem_of_elements in Hc. split; [done|]. by intros (_ & ? & _).
  - rewrite elem_of_elements in Hc. unfold getitem.
    destruct (M !! c) as [m|] eqn:Hm; simpl.
    + split; [intros [= ->]; by split_and!|]. by intros (_ & _ & ->).
    + split; [done|]. by intros ([? [=]] & _).
Qed.

Lemma elem_of_items values c n :
  (c, n) ∈ map_to_list (mutual_counts_of values) ↔
  counted values c ∧ ¬ marked values c ∧ n = score values c.
Proof. by rewrite elem_of_map_to_list, mutual_counts_of_lookup. Qed.

Lemma mutual_counts_of_perm values values' :
  values ≡ₚ values' → mutual_counts_of values = mutual_counts_of values'.
Proof.
  intros Hp. apply map_eq. intros c. apply option_eq. intros n.
  rewrite !mutual_counts_of_lookup. unfold counted, marked.
  rewrite (score_perm _ _ c Hp). by setoid_rewrite Hp.
Qed.

(** *** The order of the keys *)

Lemma key_rec_lt a n b m :
  cmp_lt (cmp_on key_rec cmp_key_rec) (a, n) (b, m) ↔
  (m < n)%Z ∨ (n = m ∧ (a < b)%Z).
Proof.
  unfold cmp_lt, cmp_on, key_rec, cmp_key_rec, cmp_pair, lex. simpl.
  destruct (Z.compare_spec (- n) (- m)) as [H1|H1|H1];
    [destruct (Z.compare_spec a b) as [H2|H2|H2]|..];
    (split; [intros H; try done; lia|intros H; try done; lia]).
Qed.

Lemma key_rec_eq (x y : Z * Z) :
  cmp_on key_rec cmp_key_rec x y = Eq → x = y.
Proof.
  destruct x as [a n], y as [b m].
  unfold cmp_on, key_rec, cmp_key_rec, cmp_pair, lex. simpl.
  destruct (Z.compare_spec (- n) (- m)) as [H1|H1|H1]; try done.
  destruct (Z.compare_spec a b) as [H2|H2|H2]; try done.
  intros _. f_equal; lia.
Qed.

(** *** The last two lines *)

Lemma elem_of_recommend items r :
  r ∈ recommend items → ∃ n, (r, n) ∈ items.
Proof.
  unfold recommend. intros ([r' n] & -> & Hin)%list_elem_of_fmap.
  exists n. apply (elem_of_sorted (cmp_on key_rec cmp_key_rec)).
  eapply elem_of_sublist; [exact Hin|apply sublist_take].
Qed.

Lemma NoDup_recommend items : NoDup items.*1 → NoDup (recommend items).
Proof.
  intros Hnd. unfold recommend. rewrite fmap_take.
  apply (sublist_NoDup _ (sorted (cmp_on key_rec cmp_key_rec) items).*1);
    [|apply sublist_take].
  by rewrite (sorted_perm (cmp_on key_rec cmp_key_rec)).
Qed.

Lemma length_recommend items :
  length (recommend items) = min 10 (length items).
Proof.
  unfold recommend.
  rewrite length_fmap, length_take, (length_sorted (cmp_on key_rec cmp_key_rec)).
  done.
Qed.

Lemma recommend_strict items :
  NoDup items.*1 →
  StronglySorted (cmp_lt (cmp_on key_rec cmp_key_rec))
    (sorted (cmp_on key_rec cmp_key_rec) items).
Proof.
  intros Hnd. apply sorted_strict; [apply _| |apply key_rec_eq].
  by eapply NoDup_fmap_1.
Qed.

Lemma recommend_top items x r :
  NoDup items.*1 → x ∈ items → x.1 ∉ recommend items →
  r ∈ take 10 (sorted (cmp_on key_rec cmp_key_rec) items) →
  cmp_lt (cmp_on key_rec cmp_key_rec) r x ∧ length (recommend items) = 10.
Proof.
  intros Hnd Hx Hout Hr.
  pose proof (recommend_strict items Hnd) as Hs.
  set (l := sorted (cmp_on key_rec cmp_key_rec) items) in *.
  assert (x ∈ drop 10 l) as Hdrop.
  { apply (elem_of_sorted (cmp_on key_rec cmp_key_rec)) in Hx. fold l in Hx.
    rewrite <- (take_drop 10 l) in Hx. apply elem_of_app in Hx as [Hx|Hx]; [|done].
    destruct Hout. unfold recommend. fold l. apply list_elem_of_fmap.
    by exists x. }
  split.
  - rewrite <- (take_drop 10 l) in Hs.
    by eapply StronglySorted_app_1_elem_of.
  - unfold recommend. fold l. rewrite length_fmap, length_take.
    assert (length (drop 10 l) ≠ 0) as Hlen.
    { intros Hz. apply nil_length_inv in Hz. rewrite Hz in Hdrop.
      by apply elem_of_nil in Hdrop. }
    rewrite length_drop in Hlen. lia.
Qed.

Lemma recommend_ranked items (sc : Z → Z) :
  NoDup items.*1 → (∀ c n, (c, n) ∈ items → n = sc c) →
  StronglySorted (λ a b, (sc b < sc a)%Z ∨ (sc a = sc b ∧ (a < b)%Z))
    (recommend items).
Proof.
  intros Hnd Hsc. unfold recommend.
  apply (StronglySorted_fmap_elem (cmp_lt (cmp_on key_rec cmp_key_rec))).
  - assert (∀ x, x ∈ take 10 (sorted (cmp_on key_rec cmp_key_rec) items) →
                 x ∈ items) as Hin.
    { intros x Hx. apply (elem_of_sorted (cmp_on key_rec cmp_key_rec)).
      eapply elem_of_sublist; [exact Hx|apply sublist_take]. }
    intros [a n] [b m] Ha%Hin%Hsc Hb%Hin%Hsc Hlt%key_rec_lt. simpl.
    by subst n m.
  - pose proof (recommend_strict items Hnd) as Hs.
    rewrite <- (take_drop 10 (sorted _ items)) in Hs.
    by apply StronglySorted_app_1_l in Hs.
Qed.

(** An item that is left out: the list is full. *)
Lemma recommend_full items x :
  x ∈ items → x.1 ∉ recommend items → length (recommend items) = 10.
Proof.
  intros Hx Hout. unfold recommend in *.
  set (l := sorted (cmp_on key_rec cmp_key_rec) items) in *.
  assert (x ∈ drop 10 l) as Hdrop.
  { apply (elem_of_sorted (cmp_on key_rec cmp_key_rec)) in Hx. fold l in Hx.
    rewrite <- (take_drop 10 l) in Hx.
    apply elem_of_app in Hx as [Hx|Hx]; [|done].
    destruct Hout. apply list_elem_of_fmap. by exists x. }
  rewrite length_fmap, length_take.
  assert (length (drop 10 l) ≠ 0) as Hlen.
  { intros Hz. apply nil_length_inv in Hz. rewrite Hz in Hdrop.
    by apply elem_of_nil in Hdrop. }
  rewrite length_drop in Hlen. lia.
Qed.

Lemma recommend_above items (sc : Z → Z) c :
  NoDup items.*1 → (∀ c n, (c, n) ∈ items → n = sc c) →
  (c, sc c) ∈ items → c ∉ recommend items →
  length (recommend items) = 10 ∧
  ∀ r, r ∈ recommend items →
       (sc c < sc r)%Z ∨ (sc r = sc c ∧ (r < c)%Z).
Proof.
  intros Hnd Hsc Hc Hout.
  split; [by apply (recommend_full items (c, sc c))|].
  intros r Hr. unfold recommend in Hr.
  apply list_elem_of_fmap in Hr as ([r' n] & -> & Hx).
  destruct (recommend_top items _ _ Hnd Hc Hout Hx) as [Hlt _].
  apply key_rec_lt in Hlt. simpl.
  assert (n = sc r') as ->; [|done]. apply Hsc.
  apply (elem_of_sorted (cmp_on key_rec cmp_key_rec)).
  eapply elem_of_sublist; [exact Hx|apply sublist_take].
Qed.

Lemma recommend_nil items : recommend items = [] ↔ items = [].
Proof.
  split; [|by intros ->].
  intros Hnil. apply (f_equal length) in Hnil.
  rewrite length_recommend in Hnil. destruct items; [done|simpl in Hnil; lia].
Qed.

End reducer_facts.

(** X18 — what the reducer can recommend.  The reducer returns at most
    ten ids, none twice; each one is counted in [values] (it has a record
    whose count is not [-1]) and is not marked as an existing friend (it
    has no record with count [-1]).  When fewer than ten ids come back,
    every id that is counted and not marked is among them.  The [user]
    argument is not read, so this holds of the user's own id as of any
    other: an id that is both counted and marked is never returned, the
    user's included. *)
Theorem reducer_sound user values :
  length (question_1.reducer user values) ≤ 10 ∧
  NoDup (question_1.reducer user values) ∧
  (∀ r, r ∈ question_1.reducer user values →
        question_1.counted values r ∧ ¬ question_1.marked values r) ∧
  (length (question_1.reducer user values) < 10 →
   ∀ c, question_1.counted values c → ¬ question_1.marked values c →
        c ∈ question_1.reducer user values) ∧
  (∀ user', question_1.reducer user' values = question_1.reducer user values).
Proof.
  unfold question_1.reducer. split_and!.
  - rewrite length_recommend. lia.
  - apply NoDup_recommend, NoDup_fst_map_to_list.
  - intros r (n & Hn%elem_of_items)%elem_of_recommend. tauto.
  - intros Hlen c Hc Hm.
    destruct (decide (c ∈ question_1.recommend
                (map_to_list (question_1.mutual_counts_of values))))
      as [|Hout]; [done|].
    assert ((c, question_1.score values c) ∈
              map_to_list (question_1.mutual_counts_of values)) as Hin
      by (by apply elem_of_items).
    pose proof (recommend_full _ _ Hin Hout). lia.
  - done.
Qed.

(** The user's own id is recommended to the user when the values count
    it; a marked id is not, counted or not. *)
Lemma reducer_sound_witness :
  8%Z ∈ question_1.reducer 8 question_1.sample_values ∧
  7%Z ∉ question_1.reducer 7 question_1.sample_values.
Proof.
  destruct (reducer_sound 8 question_1.sample_values)
    as (_ & _ & _ & Hall & _).
  destruct (reducer_sound 7 question_1.sample_values)
    as (_ & _ & Hsound & _).
  split.
  - apply Hall.
    + vm_compute. lia.
    + exists 1%Z. split; [done|]. left.
    + unfold question_1.marked. by apply (bool_decide_unpack _).
  - intros [_ Hm]%Hsound. apply Hm. right. left.
Defined.

(** X19 — the ranking of the reducer.  The ids come out by decreasing
    score, the sum of the counts the id has in [values], and by increasing
    id among equal scores.  When an id that is counted and not marked is
    left out, exactly ten ids are returned and each of them ranks before
    it. *)
Theorem reducer_ranked user values :
  StronglySorted (question_1.ranks_before values)
    (question_1.reducer user values) ∧
  ∀ c,
    question_1.counted values c → ¬ question_1.marked values c →
    c ∉ question_1.reducer user values →
    length (question_1.reducer user values) = 10 ∧
    ∀ r, r ∈ question_1.reducer user values →
         question_1.ranks_before values r c.
Proof.
  unfold question_1.reducer, question_1.ranks_before.
  set (items := map_to_list (question_1.mutual_counts_of values)).
  assert (NoDup items.*1) as Hnd by apply NoDup_fst_map_to_list.
  assert (∀ c n, (c, n) ∈ items → n = question_1.score values c) as Hsc.
  { by intros c n (_ & _ & ->)%elem_of_items. }
  split.
  - by apply (recommend_ranked items (question_1.score values)).
  - intros c Hc Hm Hout.
    apply (recommend_above items (question_1.score values)); try done.
    by apply elem_of_items.
Qed.

(** Twelve candidates: the two with the largest ids and the smallest score
    are left out, and 12, counted twice, comes first. *)
Lemma reducer_ranked_witness :
  question_1.reducer 0 question_1.crowd_values
  = [12; 1; 2; 3; 4; 5; 6; 7; 8; 9]%Z ∧
  StronglySorted (question_1.ranks_before question_1.crowd_values)
    [12; 1; 2; 3; 4; 5; 6; 7; 8; 9]%Z ∧
  length [12; 1; 2; 3; 4; 5; 6; 7; 8; 9]%Z = 10 ∧
  question_1.ranks_before question_1.crowd_values 9 11.
Proof.
  assert (question_1.reducer 0 question_1.crowd_values
          = [12; 1; 2; 3; 4; 5; 6; 7; 8; 9]%Z) as E
    by (vm_compute; reflexivity).
  destruct (reducer_ranked 0 question_1.crowd_values) as [Hs Hout].
  destruct (Hout 11%Z) as [Hlen Hr].
  - exists 1%Z. split; [done|]. do 10 right. left.
  - unfold question_1.marked. by apply (bool_decide_unpack _).
  - rewrite E. by apply (bool_decide_unpack _).
  - rewrite E in Hs, Hlen, Hr.
    refine (conj E (conj Hs (conj Hlen (Hr 9%Z _)))). do 9 right. left.
Defined.

(** X20 — the order of the input does not matter.  The reducer returns
    the same list for any reordering of [values], and for any order in which
    the dict [mutual_counts] lists its items: the sort key tells any two
    items apart. *)
Theorem reducer_order_irrelevant user values values' items :
  values ≡ₚ values' →
  items ≡ₚ map_to_list (question_1.mutual_counts_of values) →
  question_1.reducer user values' = question_1.reducer user values ∧
  question_1.recommend items = question_1.reducer user values.
Proof.
  intros Hp Hitems. unfold question_1.reducer.
  rewrite <- (mutual_counts_of_perm values values' Hp). split; [done|].
  unfold question_1.recommend. do 2 f_equal.
  apply sorted_unique; [apply _|done|].
  intros x y _ _. apply key_rec_eq.
Qed.

Lemma reducer_order_irrelevant_witness :
  question_1.reducer 0 (reverse question_1.sample_values)
  = question_1.reducer 0 question_1.sample_values ∧
  question_1.recommend
    (reverse (map_to_list (question_1.mutual_counts_of question_1.sample_values)))
  = question_1.reducer 0 question_1.sample_values.
Proof.
  apply (reducer_order_irrelevant 0 question_1.sample_values).
  - symmetry. apply reverse_Permutation.
  - apply reverse_Permutation.
Defined.

(** ** Map, shuffle and reduce *)

Section main_facts.
Import question_1.
Implicit Types (adjacency : list (Z * list Z)) (es : list (Z * (Z * Z))).
Implicit Types (intermediate : gmap Z (list (Z * Z))) (k c : Z).

Lemma values_for_app k es es' :
  values_for k (es ++ es') = values_for k es ++ values_for k es'.
Proof. unfold values_for. by rewrite filter_app, fmap_app. Qed.

Lemma elem_of_values_for k es v : v ∈ values_for k es ↔ (k, v) ∈ es.
Proof.
  unfold values_for. rewrite list_elem_of_fmap. split.
  - intros ([k' v'] & -> & [Hk Hin]%list_elem_of_filter). simpl in *.
    by subst k'.
  - intros Hin. exists (k, v). split; [done|].
    by apply list_elem_of_filter.
Qed.

Lemma emissions_cons user friend_list adjacency :
  emissions ((user, friend_list) :: adjacency)
  = mapper user friend_list ++ emissions adjacency.
Proof. done. Qed.

Lemma elem_of_emissions adjacency e :
  e ∈ emissions adjacency ↔
  ∃ user friend_list,
    (user, friend_list) ∈ adjacency ∧ e ∈ mapper user friend_list.
Proof.
  unfold emissions. rewrite list_elem_of_bind. split.
  - intros ([user friend_list] & ? & ?). by exists user, friend_list.
  - intros (user & friend_list & ? & ?). by exists (user, friend_list).
Qed.

(** *** The shuffle *)

Lemma getlist_append intermediate e k :
  getlist (append intermediate e) k
  = getlist intermediate k ++ values_for k [e].
Proof.
  unfold append, getlist at 1, values_for. rewrite lookup_insert, filter_cons.
  destruct (decide (e.1 = k)) as [->|Hne]; simpl; [done|].
  by rewrite app_nil_r.
Qed.

Lemma is_Some_append intermediate e k :
  is_Some (append intermediate e !! k) ↔
  is_Some (intermediate !! k) ∨ k = e.1.
Proof.
  unfold append. rewrite lookup_insert_is_Some'.
  split; [intros [<-|?]; auto|intros [?| ->]; auto].
Qed.

Lemma foldl_append intermediate es k :
  getlist (foldl append intermediate es) k
  = getlist intermediate k ++ values_for k es ∧
  (is_Some (foldl append intermediate es !! k) ↔
   is_Some (intermediate !! k) ∨ k ∈ es.*1).
Proof.
  revert intermediate. induction es as [|e es IH]; intros intermediate; simpl.
  { rewrite app_nil_r. split; [done|]. rewrite elem_of_nil. tauto. }
  destruct (IH (append intermediate e)) as [-> ->].
  rewrite getlist_append, is_Some_append, <- app_assoc.
  rewrite <- values_for_app, elem_of_cons. simpl. tauto.
Qed.

Lemma map_phase_spec adjacency k :
  getlist (map_phase adjacency) k = values_for k (emissions adjacency) ∧
  (is_Some (map_phase adjacency !! k) ↔ k ∈ (emissions adjacency).*1).
Proof.
  unfold map_phase.
  match goal with |- context [foldl ?f ∅ adjacency] => set (step := f) end.
  assert (∀ intermediate,
    getlist (foldl step intermediate adjacency) k
    = getlist intermediate k ++ values_for k (emissions adjacency) ∧
    (is_Some (foldl step intermediate adjacency !! k) ↔
     is_Some (intermediate !! k) ∨ k ∈ (emissions adjacency).*1)) as Hgen.
  { induction adjacency as [|[user friend_list] adjacency IH];
      intros intermediate.
    { simpl. rewrite app_nil_r. split; [done|]. rewrite elem_of_nil. tauto. }
    change (foldl step intermediate ((user, friend_list) :: adjacency))
      with (foldl step (step intermediate (user, friend_list)) adjacency).
    destruct (IH (step intermediate (user, friend_list))) as [-> ->].
    assert (step intermediate (user, friend_list)
            = foldl append intermediate (mapper user friend_list)) as -> by done.
    destruct (foldl_append intermediate (mapper user friend_list) k)
      as [-> ->].
    rewrite emissions_cons, values_for_app, fmap_app, elem_of_app, app_assoc.
    tauto. }
  destruct (Hgen ∅) as [-> ->]. unfold getlist. rewrite lookup_empty. simpl.
  split; [done|]. split; [|by right]. by intros [[? [=]]|?].
Qed.

(** *** The reduce phase and the users it does not reach *)

Lemma foldl_insert {V} (f : Z → V) (l : list Z) (results : gmap Z V) k :
  foldl (λ results user, <[user := f user]> results) results l !! k
  = if decide (k ∈ l) then Some (f k) else results !! k.
Proof.
  revert results. induction l as [|x l IH]; intros results.
  { rewrite decide_False; [done|apply not_elem_of_nil]. }
  simpl. rewrite IH, lookup_insert.
  destruct (decide (k ∈ l)) as [Hin|Hout].
  - rewrite decide_True; [done|by right].
  - destruct (decide (x = k)) as [->|Hne].
    + rewrite decide_True; [done|left].
    + rewrite decide_False; [done|]. rewrite elem_of_cons. by intros [->|?].
Qed.

Lemma reduce_phase_lookup intermediate k :
  reduce_phase intermediate !! k
  = if decide (is_Some (intermediate !! k))
    then Some (reducer k (getlist intermediate k)) else None.
Proof.
  unfold reduce_phase. rewrite foldl_insert, lookup_empty.
  apply decide_ext. rewrite (elem_of_sorted Z.compare), list_elem_of_fmap.
  split.
  - intros ([k' v] & -> & Hin%elem_of_map_to_list). by exists v.
  - intros [v Hv]. exists (k, v). split; [done|].
    by apply elem_of_map_to_list.
Qed.

Lemma foldl_fill adjacency (results : gmap Z (list Z)) k :
  foldl (λ results '(user, _),
           if decide (is_Some (results !! user)) then results
           else <[user := []]> results) results adjacency !! k
  = match results !! k with
    | Some recs => Some recs
    | None => if decide (k ∈ adjacency.*1) then Some [] else None
    end.
Proof.
  revert results.
  induction adjacency as [|[user friend_list] adjacency IH]; intros results.
  { cbn [foldl]. rewrite decide_False by apply not_elem_of_nil.
    by destruct (results !! k). }
  simpl. rewrite IH. clear IH.
  destruct (decide (is_Some (results !! user))) as [[recs Hrecs]|Hnone].
  - destruct (results !! k) as [recs'|] eqn:Hk; [done|].
    apply decide_ext. rewrite elem_of_cons. split; [by right|].
    intros [->|?]; [congruence|done].
  - rewrite lookup_insert. destruct (decide (user = k)) as [->|Hne].
    + destruct (results !! k) as [recs'|] eqn:Hk; [by destruct Hnone|].
      rewrite decide_True; [done|left].
    + destruct (results !! k) as [recs'|] eqn:Hk; [done|].
      apply decide_ext. rewrite elem_of_cons. split; [by right|].
      by intros [->|?].
Qed.

Lemma reducer_nil k : reducer k [] = [].
Proof.
  unfold reducer. apply recommend_nil.
  destruct (map_to_list (mutual_counts_of [])) as [|[c n] l] eqn:E; [done|].
  assert ((c, n) ∈ map_to_list (mutual_counts_of [])) as Hin
    by (rewrite E; left).
  apply elem_of_items in Hin as ((m & _ & Hm) & _).
  by apply elem_of_nil in Hm.
Qed.

Lemma values_for_absent k es : k ∉ es.*1 → values_for k es = [].
Proof.
  intros Hk. destruct (values_for k es) as [|v l] eqn:E; [done|].
  assert (v ∈ values_for k es) as Hv by (rewrite E; left).
  apply elem_of_values_for in Hv. destruct Hk.
  apply list_elem_of_fmap. by exists (k, v).
Qed.

Lemma main_lookup adjacency k :
  main adjacency !! k
  = if decide (k ∈ (emissions adjacency).*1 ∨ k ∈ adjacency.*1)
    then Some (reducer k (values_for k (emissions adjacency))) else None.
Proof.
  unfold main. rewrite foldl_fill, reduce_phase_lookup.
  destruct (map_phase_spec adjacency k) as [-> Hdom].
  destruct (decide (is_Some (map_phase adjacency !! k))) as [Hs|Hn].
  - rewrite decide_True; [done|]. left. by apply Hdom.
  - rewrite Hdom in Hn. rewrite (values_for_absent _ _ Hn), reducer_nil.
    apply decide_ext. tauto.
Qed.

(** *** The keys of the shuffle *)

Lemma second_position (friend_list : list Z) i :
  i < length friend_list → 2 ≤ length friend_list →
  ∃ j c, i ≠ j ∧ friend_list !! j = Some c.
Proof.
  intros Hi Hlen. destruct i as [|i].
  - destruct (lookup_lt_is_Some_2 friend_list 1) as [c Hc]; [lia|].
    by exists 1, c.
  - destruct (lookup_lt_is_Some_2 friend_list 0) as [c Hc]; [lia|].
    by exists 0, c.
Qed.

Lemma elem_of_keys adjacency k :
  k ∈ (emissions adjacency).*1 ↔
  ∃ user friend_list,
    (user, friend_list) ∈ adjacency ∧
    ((k = user ∧ friend_list ≠ []) ∨
     (k ∈ friend_list ∧ 2 ≤ length friend_list)).
Proof.
  rewrite list_elem_of_fmap. split.
  - intros ([k' [c n]] & -> & (user & fl & Hin & He)%elem_of_emissions).
    exists user, fl. split; [done|]. simpl.
    apply elem_of_mapper in He as [(-> & _ & Hc)|(_ & i & j & Hij & Hi & Hj)].
    + left. split; [done|]. intros ->. by apply elem_of_nil in Hc.
    + right. split; [by eapply list_elem_of_lookup_2|].
      apply lookup_lt_Some in Hi, Hj. lia.
  - intros (user & fl & Hin & [[-> Hne]|[Hk Hlen]]).
    + destruct fl as [|c fl]; [done|]. exists (user, (c, -1)%Z).
      split; [done|]. apply elem_of_emissions. exists user, (c :: fl).
      split; [done|]. apply elem_of_mapper. left. split_and!; [done..|left].
    + apply list_elem_of_lookup_1 in Hk as [i Hi].
      destruct (second_position fl i) as (j & c & Hij & Hj);
        [by eapply lookup_lt_Some|done|].
      exists (k, (c, 1%Z)). split; [done|].
      apply elem_of_emissions. exists user, fl. split; [done|].
      apply elem_of_mapper. right. split; [done|]. by exists i, j.
Qed.

(** *** Marks, counts and scores of the shuffled values *)

Lemma marked_values_for adjacency k c :
  marked (values_for k (emissions adjacency)) c ↔
  ∃ friend_list, (k, friend_list) ∈ adjacency ∧ c ∈ friend_list.
Proof.
  unfold marked. rewrite elem_of_values_for, elem_of_emissions. split.
  - intros (user & fl & Hin & He).
    apply elem_of_mapper in He as [(-> & _ & Hc)|([=] & _)]. by exists fl.
  - intros (fl & Hin & Hc). exists k, fl. split; [done|].
    apply elem_of_mapper. by left.
Qed.

Lemma counted_values_for adjacency k c :
  counted (values_for k (emissions adjacency)) c ↔
  ∃ user friend_list i j,
    (user, friend_list) ∈ adjacency ∧ i ≠ j ∧
    friend_list !! i = Some k ∧ friend_list !! j = Some c.
Proof.
  unfold counted. split.
  - intros (n & Hn & (user & fl & Hin & He)%elem_of_values_for%elem_of_emissions).
    apply elem_of_mapper in He as [(_ & -> & _)|(_ & i & j & ?)]; [done|].
    by exists user, fl, i, j.
  - intros (user & fl & i & j & Hin & Hij & Hi & Hj). exists 1%Z.
    split; [done|]. apply elem_of_values_for, elem_of_emissions.
    exists user, fl. split; [done|]. apply elem_of_mapper. right.
    split; [done|]. by exists i, j.
Qed.

Lemma score_count es k c :
  Forall (λ e, e.2.2 = 1%Z ∨ e.2.2 = (-1)%Z) es →
  score (values_for k es) c
  = Z.of_nat (length (filter (λ e, e = (k, (c, 1%Z))) es)).
Proof.
  induction 1 as [|[k' [c' n]] es Hn Hes IH]; [done|].
  change ((k', (c', n)) :: es) with ([(k', (c', n))] ++ es).
  rewrite values_for_app, score_app, filter_app, length_app, IH.
  rewrite Nat2Z.inj_add. f_equal. clear IH. simpl in Hn.
  unfold values_for. rewrite !filter_cons, !filter_nil. simpl.
  destruct (decide (k' = k)) as [->|Hk]; simpl.
  - rewrite score_singleton.
    destruct (decide (c' = c ∧ n ≠ (-1)%Z)) as [[-> Hn']|Hc].
    + assert (n = 1%Z) as -> by (by destruct Hn). by rewrite decide_True.
    + rewrite decide_False; [done|]. intros [= -> ->]. by destruct Hc.
  - rewrite decide_False; [done|]. by intros [= -> _].
Qed.

Lemma mutual_cons user friend_list adjacency k c :
  mutual ((user, friend_list) :: adjacency) k c
  = ((if decide (k ∈ friend_list ∧ c ∈ friend_list) then 1 else 0)
     + mutual adjacency k c)%Z.
Proof.
  unfold mutual. rewrite filter_cons. simpl.
  case_decide; simpl; lia.
Qed.

Lemma mutual_positive adjacency user friend_list k c :
  (user, friend_list) ∈ adjacency → k ∈ friend_list → c ∈ friend_list →
  (0 < mutual adjacency k c)%Z.
Proof.
  intros Hin Hk Hc. unfold mutual.
  assert ((user, friend_list) ∈
            filter (λ p, k ∈ p.2 ∧ c ∈ p.2) adjacency) as Hf
    by (by apply list_elem_of_filter).
  destruct (filter _ adjacency); [by apply elem_of_nil in Hf|simpl; lia].
Qed.

Lemma score_mapper user friend_list k c :
  NoDup friend_list → k ≠ c →
  score (values_for k (mapper user friend_list)) c
  = if decide (k ∈ friend_list ∧ c ∈ friend_list) then 1%Z else 0%Z.
Proof.
  intros Hnd Hkc. rewrite score_count.
  - rewrite NoDup_filter_length by (by apply NoDup_mapper).
    rewrite (decide_ext _ (k ∈ friend_list ∧ c ∈ friend_list));
      [by case_decide|].
    rewrite elem_of_mapper. split.
    + intros [(_ & [=] & _)|(_ & i & j & _ & Hi & Hj)].
      split; by eapply list_elem_of_lookup_2.
    + intros [[i Hi]%list_elem_of_lookup_1 [j Hj]%list_elem_of_lookup_1].
      right. split; [done|]. exists i, j. split; [|done].
      intros ->. congruence.
  - apply Forall_forall. intros [k' [c' n]] He. simpl.
    apply elem_of_mapper in He as [(_ & -> & _)|(-> & _)]; auto.
Qed.

Lemma score_values_for adjacency k c :
  Forall (λ p, NoDup p.2) adjacency → k ≠ c →
  score (values_for k (emissions adjacency)) c = mutual adjacency k c.
Proof.
  intros Hwf Hkc.
  induction Hwf as [|[user friend_list] adjacency Hnd Hwf IH]; [done|].
  rewrite emissions_cons, values_for_app, score_app, mutual_cons, IH.
  by rewrite score_mapper.
Qed.

Lemma counted_distinct adjacency k c :
  Forall (λ p, NoDup p.2) adjacency →
  counted (values_for k (emissions adjacency)) c →
  k ≠ c ∧ (0 < mutual adjacency k c)%Z.
Proof.
  intros Hwf (user & fl & i & j & Hin & Hij & Hi & Hj)%counted_values_for.
  split.
  - intros ->. rewrite Forall_forall in Hwf.
    by pose proof (NoDup_lookup _ _ _ _ (Hwf _ Hin) Hi Hj).
  - eapply mutual_positive; [done|by eapply list_elem_of_lookup_2..].
Qed.

Lemma mutual_counted adjacency k c :
  k ≠ c → (0 < mutual adjacency k c)%Z →
  counted (values_for k (emissions adjacency)) c.
Proof.
  intros Hkc Hpos. unfold mutual in Hpos.
  destruct (filter _ adjacency) as [|[user fl] l] eqn:E; [simpl in Hpos; lia|].
  assert ((user, fl) ∈ filter (λ p, k ∈ p.2 ∧ c ∈ p.2) adjacency) as Hf
    by (rewrite E; left).
  apply list_elem_of_filter in Hf as [[Hk Hc] Hin]. simpl in *.
  apply list_elem_of_lookup_1 in Hk as [i Hi].
  apply list_elem_of_lookup_1 in Hc as [j Hj].
  apply counted_values_for. exists user, fl, i, j. split_and!; try done.
  intros ->. congruence.
Qed.

Lemma main_items adjacency k c n :
  Forall (λ p, NoDup p.2) adjacency →
  (c, n) ∈ map_to_list (mutual_counts_of (values_for k (emissions adjacency))) ↔
  c ≠ k ∧ (0 < mutual adjacency k c)%Z ∧
  (∀ friend_list, (k, friend_list) ∈ adjacency → c ∉ friend_list) ∧
  n = mutual adjacency k c.
Proof.
  intros Hwf. rewrite elem_of_items, marked_values_for. split.
  - intros (Hc & Hm & ->).
    destruct (counted_distinct _ _ _ Hwf Hc) as [Hkc Hpos].
    split_and!; [done|done| |by apply score_values_for].
    intros fl Hin Hcfl. apply Hm. by exists fl.
  - intros (Hkc & Hpos & Hm & ->). split_and!.
    + by apply mutual_counted.
    + intros (fl & Hin & Hcfl). by eapply Hm.
    + symmetry. by apply score_values_for.
Qed.

End main_facts.

(** X21 — who gets a line of output.  [results] has an entry for every
    user of [adjacency] and for every id that stands in a friend list of
    two or more entries, and for nobody else; an id that only stands in
    friend lists of one entry and has no line of its own gets none.  A user
    whose id is in no friend list of two or more entries gets the empty
    list. *)
Theorem main_domain adjacency k :
  (is_Some (question_1.main adjacency !! k) ↔
   k ∈ adjacency.*1 ∨
   ∃ user friend_list, (user, friend_list) ∈ adjacency ∧
                       k ∈ friend_list ∧ 2 ≤ length friend_list) ∧
  (k ∈ adjacency.*1 →
   (∀ user friend_list, (user, friend_list) ∈ adjacency →
                        k ∈ friend_list → length friend_list < 2) →
   question_1.main adjacency !! k = Some []).
Proof.
  rewrite main_lookup. split.
  - case_decide as Hk.
    + split; [intros _|by eexists].
      destruct Hk as [Hk|Hk]; [|by left].
      apply elem_of_keys in Hk as (user & fl & Hin & [[-> Hne]|[Hk Hlen]]).
      * left. apply list_elem_of_fmap. by exists (user, fl).
      * right. by exists user, fl.
    + split; [by intros [? [=]]|]. intros Hdom. destruct Hk.
      destruct Hdom as [Hdom|(user & fl & Hin & Hk & Hlen)]; [by right|].
      left. apply elem_of_keys. exists user, fl. split; [done|]. by right.
  - intros Hk Hshort. rewrite decide_True by (by right). f_equal.
    unfold question_1.reducer. apply recommend_nil.
    destruct (map_to_list _) as [|[c n] l] eqn:E; [done|].
    assert ((c, n) ∈ map_to_list (question_1.mutual_counts_of
              (question_1.values_for k (question_1.emissions adjacency))))
      as Hin by (rewrite E; left).
    apply elem_of_items in Hin as (Hc & _).
    apply counted_values_for in Hc
      as (user & fl & i & j & Hin & Hij & Hi & Hj).
    pose proof (Hshort user fl Hin (list_elem_of_lookup_2 _ _ _ Hi)).
    apply lookup_lt_Some in Hi, Hj. lia.
Qed.

(** X22 — what [main] recommends.  When no friend list has a duplicate,
    the list for a user has at most ten ids, none twice; each of them is
    another user, is in no friend list of the user's own line, and shares
    at least one friend list with the user. *)
Theorem main_recommends adjacency k recs :
  question_1.well_formed adjacency →
  question_1.main adjacency !! k = Some recs →
  length recs ≤ 10 ∧ NoDup recs ∧
  ∀ c, c ∈ recs →
       c ≠ k ∧
       (∀ friend_list, (k, friend_list) ∈ adjacency → c ∉ friend_list) ∧
       (0 < question_1.mutual adjacency k c)%Z.
Proof.
  intros [_ Hwf]. rewrite main_lookup. case_decide; [|done].
  intros [= <-]. unfold question_1.reducer. split_and!.
  - rewrite length_recommend. lia.
  - apply NoDup_recommend, NoDup_fst_map_to_list.
  - intros c (n & Hn)%elem_of_recommend.
    apply main_items in Hn as (? & ? & ? & _); done.
Qed.

(** X23 — the ranking of [main].  When no friend list has a duplicate, the
    list for a user is ordered by the number of friend lists that hold both
    the user and the recommended id, largest first, and by id among equal
    numbers.  When an id that qualifies (another user, in no friend list of
    the user's own line, sharing a friend list with the user) is left out,
    exactly ten ids are returned and each of them comes before it. *)
Theorem main_ranked adjacency k recs :
  question_1.well_formed adjacency →
  question_1.main adjacency !! k = Some recs →
  StronglySorted (question_1.closer adjacency k) recs ∧
  ∀ c,
    c ≠ k → (0 < question_1.mutual adjacency k c)%Z →
    (∀ friend_list, (k, friend_list) ∈ adjacency → c ∉ friend_list) →
    c ∉ recs →
    length recs = 10 ∧
    ∀ r, r ∈ recs → question_1.closer adjacency k r c.
Proof.
  intros [_ Hwf]. rewrite main_lookup. case_decide; [|done].
  intros [= <-]. unfold question_1.reducer, question_1.closer.
  set (items := map_to_list _).
  assert (NoDup items.*1) as Hnd by apply NoDup_fst_map_to_list.
  assert (∀ c n, (c, n) ∈ items → n = question_1.mutual adjacency k c) as Hsc.
  { intros c n Hin. by apply main_items in Hin as (_ & _ & _ & ->). }
  split.
  - by apply (recommend_ranked items (question_1.mutual adjacency k)).
  - intros c Hck Hpos Hm Hout.
    apply (recommend_above items (question_1.mutual adjacency k));
      try done.
    by apply main_items.
Qed.

Lemma well_formed_sample_adjacency :
  question_1.well_formed question_1.sample_adjacency.
Proof. split; by apply (bool_decide_unpack _). Qed.

Lemma main_recommends_witness :
  question_1.well_formed question_1.sample_adjacency ∧
  question_1.main question_1.sample_adjacency !! 5%Z = Some [2; 3]%Z ∧
  (3%Z ≠ 5%Z ∧
   (∀ friend_list, (5%Z, friend_list) ∈ question_1.sample_adjacency →
                   3%Z ∉ friend_list) ∧
   (0 < question_1.mutual question_1.sample_adjacency 5 3)%Z).
Proof.
  assert (question_1.main question_1.sample_adjacency !! 5%Z
          = Some [2; 3]%Z) as Hm by (vm_compute; reflexivity).
  destruct (main_recommends _ 5%Z _ well_formed_sample_adjacency Hm)
    as (_ & _ & Hc).
  refine (conj well_formed_sample_adjacency (conj Hm (Hc 3%Z _))).
  right. left.
Defined.

Lemma well_formed_crowd_adjacency :
  question_1.well_formed question_1.crowd_adjacency.
Proof. split; by apply (bool_decide_unpack _). Qed.

(** User 100 has eleven candidates: user 5, who shares two lists with it,
    comes first, and user 11 is left out behind ten others. *)
Lemma main_ranked_witness :
  question_1.well_formed question_1.crowd_adjacency ∧
  question_1.main question_1.crowd_adjacency !! 100%Z
  = Some [5; 1; 2; 3; 4; 6; 7; 8; 9; 10]%Z ∧
  StronglySorted (question_1.closer question_1.crowd_adjacency 100)
    [5; 1; 2; 3; 4; 6; 7; 8; 9; 10]%Z ∧
  length [5; 1; 2; 3; 4; 6; 7; 8; 9; 10]%Z = 10 ∧
  question_1.closer question_1.crowd_adjacency 100 10 11.
Proof.
  assert (question_1.main question_1.crowd_adjacency !! 100%Z
          = Some [5; 1; 2; 3; 4; 6; 7; 8; 9; 10]%Z) as Hm
    by (vm_compute; reflexivity).
  destruct (main_ranked _ 100%Z _ well_formed_crowd_adjacency Hm)
    as [Hs Hout].
  destruct (Hout 11%Z) as [Hlen Hr].
  - done.
  - vm_compute. reflexivity.
  - intros friend_list Hin.
    apply elem_of_cons in Hin as [[=]|Hin].
    apply elem_of_cons in Hin as [[=]|Hin].
    by apply elem_of_nil in Hin.
  - by apply (bool_decide_unpack _).
  - refine (conj well_formed_crowd_adjacency
              (conj Hm (conj Hs (conj Hlen (Hr 10%Z _))))).
    do 9 right. left.
Defined.
